(** * mavalloc: an arena allocator over a pooled linked list of block nodes

    Shallow embedding of [mavalloc.c].  The C program keeps its whole state
    in globals: the arena, its size, the placement algorithm, a singly linked
    list of [struct Node] headed by a sentinel, a cursor for next fit, and a
    stack of spare nodes carved out of one [malloc]ed array [node_stack].

    Pointers to nodes are indices into [node_stack]; [None] is [NULL].  A
    [size_t] is a [Z] in [0, 2^64) with its wrap-around written out.  The
    fields [type], [address] and [size] of a node that was never written
    hold no value ([None]); the [next] field is written for every node by
    [node_stack_init].  Every function returns an [outcome]: [Done] with the
    result, [Fault] when the C code dereferences [NULL] or reads a field that
    holds no value, [Timeout] when a loop has not finished within its budget
    of iterations. *)

From Stdlib Require Import ZArith Lia List.
From stdpp Require Import base option list sets.

Local Open Scope Z_scope.
Local Set Warnings "-clear-no-such-hyp".

(** ** Outcomes *)

Inductive outcome (A : Type) : Type :=
| Done (a : A)
| Fault
| Timeout.
Arguments Done {A} a.
Arguments Fault {A}.
Arguments Timeout {A}.

Definition bind {A B : Type} (m : outcome A) (k : A -> outcome B) : outcome B :=
  match m with
  | Done a => k a
  | Fault => Fault
  | Timeout => Timeout
  end.

Notation "'let*' x ':=' m 'in' k" := (bind m (fun x => k))
  (at level 10, x pattern, m at level 200, k at level 200).

(** Reading through an optional value: a [NULL] pointer that is followed, or
    a field that was never written. *)
Definition defined {A : Type} (o : option A) : outcome A :=
  match o with
  | Some a => Done a
  | None => Fault
  end.

(** ** size_t arithmetic *)

Definition SIZE_MOD : Z := 2 ^ 64.

Definition wadd (a b : Z) : Z := (a + b) mod SIZE_MOD.
Definition wsub (a b : Z) : Z := (a - b) mod SIZE_MOD.

(** Modelled from the spec: the macro [ALIGN4] of [mavalloc.h], which is not
    among the sources.  The spec says it rounds a size up to the next multiple
    of 4; the result is a [size_t]. *)
Definition ALIGN4 (s : Z) : Z := (4 * ((s + 3) / 4)) mod SIZE_MOD.

(** ** Data *)

(** Modelled from the spec: the enumeration [ALGORITHM] of [mavalloc.h]. *)
Inductive ALGORITHM : Type := FIRST_FIT | NEXT_FIT | BEST_FIT | WORST_FIT.

Inductive ALLOCATE : Type := HOLE | PROCESS.

Global Instance ALLOCATE_eq_dec : EqDecision ALLOCATE.
Proof. solve_decision. Defined.

Global Instance ALGORITHM_eq_dec : EqDecision ALGORITHM.
Proof. solve_decision. Defined.

Record Node : Type := mkNode {
  type : option ALLOCATE;
  address : option Z;
  size : option Z;
  next : option nat
}.

Definition NODE_AMOUNT : nat := 200.

Record state : Type := mkState {
  memory_arena : bool;            (* is the arena pointer non-NULL *)
  memory_arena_size : Z;
  heap_algo : ALGORITHM;
  head_pointer : option nat;
  previous_node : option nat;
  node_stack : list Node;
  stack_head : option nat
}.

(** The globals before the first call: zero initialised. *)
Definition boot : state :=
  mkState false 0 FIRST_FIT None None [] None.

Definition with_nodes (st : state) (h : list Node) : state :=
  mkState (memory_arena st) (memory_arena_size st) (heap_algo st)
          (head_pointer st) (previous_node st) h (stack_head st).

Definition with_stack_head (st : state) (p : option nat) : state :=
  mkState (memory_arena st) (memory_arena_size st) (heap_algo st)
          (head_pointer st) (previous_node st) (node_stack st) p.

Definition with_previous_node (st : state) (p : option nat) : state :=
  mkState (memory_arena st) (memory_arena_size st) (heap_algo st)
          (head_pointer st) p (node_stack st) (stack_head st).

Definition with_head_pointer (st : state) (p : option nat) : state :=
  mkState (memory_arena st) (memory_arena_size st) (heap_algo st)
          p (previous_node st) (node_stack st) (stack_head st).

(** ** Node accesses *)

Definition load (h : list Node) (p : nat) : outcome Node := defined (h !! p).

Definition set_type (n : Node) (t : ALLOCATE) : Node :=
  mkNode (Some t) (address n) (size n) (next n).
Definition set_address (n : Node) (a : Z) : Node :=
  mkNode (type n) (Some a) (size n) (next n).
Definition set_size (n : Node) (s : Z) : Node :=
  mkNode (type n) (address n) (Some s) (next n).
Definition set_next (n : Node) (q : option nat) : Node :=
  mkNode (type n) (address n) (size n) q.

(** [p->f] as an rvalue *)
Definition rd_type (st : state) (p : nat) : outcome ALLOCATE :=
  let* n := load (node_stack st) p in defined (type n).
Definition rd_address (st : state) (p : nat) : outcome Z :=
  let* n := load (node_stack st) p in defined (address n).
Definition rd_size (st : state) (p : nat) : outcome Z :=
  let* n := load (node_stack st) p in defined (size n).
Definition rd_next (st : state) (p : nat) : outcome (option nat) :=
  let* n := load (node_stack st) p in Done (next n).

(** [p->f = v] *)
Definition wr (st : state) (p : nat) (f : Node -> Node) : outcome state :=
  let* n := load (node_stack st) p in
  Done (with_nodes st (<[p := f n]> (node_stack st))).

Definition wr_type st p t := wr st p (fun n => set_type n t).
Definition wr_address st p a := wr st p (fun n => set_address n a).
Definition wr_size st p s := wr st p (fun n => set_size n s).
Definition wr_next st p q := wr st p (fun n => set_next n q).

(** ** The reserve node stack *)

Definition node_stack_init (node_amount : nat) (st : state) : state :=
  let arr :=
    map (fun i : nat =>
           mkNode None None None
                  (if decide (S i < node_amount)%nat then Some (S i) else None))
        (seq 0 node_amount) in
  with_stack_head (with_nodes st arr) (Some 0%nat).

Definition node_malloc (st : state) : outcome (state * option nat) :=
  match stack_head st with
  | None => Done (st, None)
  | Some new =>
      let* nx := rd_next st new in
      Done (with_stack_head st nx, Some new)
  end.

Definition node_free (st : state) (node : nat) : outcome state :=
  let* st1 := wr_next st node (stack_head st) in
  Done (with_stack_head st1 (Some node)).

Definition new_node (st : state) (t : ALLOCATE) (a s : Z)
  : outcome (state * option nat) :=
  let* (st1, new) := node_malloc st in
  match new with
  | None => Done (st1, None)
  | Some p =>
      let* st2 := wr_next st1 p None in
      let* st3 := wr_type st2 p t in
      let* st4 := wr_address st3 p a in
      let* st5 := wr_size st4 p s in
      Done (st5, Some p)
  end.

(** ** Lifecycle *)

(** [malloc_ok] says whether the [malloc] of the arena returned a buffer. *)
Definition mavalloc_init (size0 : Z) (algorithm : ALGORITHM) (malloc_ok : bool)
           (st : state) : outcome (state * Z) :=
  if size0 <? 0 then Done (st, -1) else
  let requested_size := ALIGN4 size0 in
  let st := mkState malloc_ok (memory_arena_size st) (heap_algo st)
                    (head_pointer st) (previous_node st) (node_stack st)
                    (stack_head st) in
  if negb malloc_ok then Done (st, -1) else
  let st := mkState (memory_arena st) requested_size (heap_algo st)
                    (head_pointer st) (previous_node st) (node_stack st)
                    (stack_head st) in
  let st := node_stack_init NODE_AMOUNT st in
  let st := mkState (memory_arena st) (memory_arena_size st) algorithm
                    (head_pointer st) (previous_node st) (node_stack st)
                    (stack_head st) in
  let* (st, hd) := new_node st HOLE 0 0 in
  let st := with_head_pointer st hd in
  match hd with
  | None => Done (st, -1)
  | Some hp =>
      let* (st, first) := new_node st HOLE 0 requested_size in
      let* st := wr_next st hp first in
      match first with
      | None => Done (st, -1)
      | Some _ =>
          let st := with_previous_node st (head_pointer st) in
          Done (st, 0)
      end
  end.

Definition mavalloc_destroy (st : state) : state :=
  match head_pointer st with
  | None => st
  | Some _ =>
      (* free( node_stack ); free( memory_arena ); *)
      mkState (memory_arena st) (memory_arena_size st) (heap_algo st)
              None None [] None
  end.

(** ** Splitting a hole *)

Definition allocate_node (st : state) (hole_ptr : option nat) (size0 : Z)
  : outcome (state * option Z) :=
  match hole_ptr with
  | None => Done (st, None)
  | Some hp =>
      let* y := rd_next st hp in
      let* y := defined y in
      let* a := rd_address st y in
      let* (st, new) := new_node st PROCESS a size0 in
      match new with
      | None => Done (st, None)
      | Some nw =>
          let* y := rd_next st hp in
          let* y := defined y in
          let* a := rd_address st y in
          let* st :=
            if wadd a size0 >=? memory_arena_size st then
              node_free st y
            else
              let* st := wr_address st y (wadd a size0) in
              let* y := rd_next st hp in
              let* y := defined y in
              let* s := rd_size st y in
              let* st := wr_size st y (wsub s size0) in
              let* y := rd_next st hp in
              let* y := defined y in
              let* s := rd_size st y in
              if s <=? 0 then
                let* yn := rd_next st y in
                let* st := wr_next st nw yn in
                let* y := rd_next st hp in
                let* y := defined y in
                node_free st y
              else
                let* y := rd_next st hp in
                wr_next st nw y
          in
          let* st := wr_next st hp (Some nw) in
          let* a := rd_address st nw in
          Done (st, Some a)
      end
  end.

(** ** Placement strategies *)

(** The guard shared by the first-fit and next-fit loops:
    [runner->next->type == PROCESS || runner->next->size < size]. *)
Definition skip_cond (st : state) (runner : nat) (size0 : Z) : outcome bool :=
  let* y := rd_next st runner in
  let* y := defined y in
  let* t := rd_type st y in
  if decide (t = PROCESS) then Done true
  else
    let* s := rd_size st y in
    Done (s <? size0).

Fixpoint first_fit_loop (fuel : nat) (st : state) (runner : nat) (size0 : Z)
  : outcome (option nat) :=
  match fuel with
  | O => Timeout
  | S fuel =>
      let* c := skip_cond st runner size0 in
      if c then
        let* r := rd_next st runner in
        let* runner := defined r in
        let* r := rd_next st runner in
        match r with
        | None => Done None
        | Some _ => first_fit_loop fuel st runner size0
        end
      else Done (Some runner)
  end.

Definition alloc_first_fit (fuel : nat) (st : state) (size0 : Z)
  : outcome (state * option Z) :=
  match head_pointer st with
  | None => Done (st, None)
  | Some hp =>
      let* r := first_fit_loop fuel st hp size0 in
      match r with
      | None => Done (st, None)
      | Some runner => allocate_node st (Some runner) size0
      end
  end.

Fixpoint next_fit_loop (fuel : nat) (st : state) (runner : nat) (size0 : Z)
  : outcome (option nat) :=
  match fuel with
  | O => Timeout
  | S fuel =>
      let* c := skip_cond st runner size0 in
      if c then
        let* r := rd_next st runner in
        let* runner := defined r in
        let* r := rd_next st runner in
        let* runner :=
          match r with
          | None => defined (head_pointer st)
          | Some _ => Done runner
          end in
        if decide (Some runner = previous_node st) then Done None
        else next_fit_loop fuel st runner size0
      else Done (Some runner)
  end.

Definition alloc_next_fit (fuel : nat) (st : state) (size0 : Z)
  : outcome (state * option Z) :=
  match head_pointer st with
  | None => Done (st, None)
  | Some _ =>
      let* start := defined (previous_node st) in
      let* r := next_fit_loop fuel st start size0 in
      match r with
      | None => Done (st, None)
      | Some runner =>
          let st := with_previous_node st (Some runner) in
          allocate_node st (Some runner) size0
      end
  end.

(** The loop of best fit; [best] and [min] are the locals of the C code. *)
Fixpoint best_fit_loop (fuel : nat) (st : state) (runner : nat) (size0 : Z)
         (best : option nat) (min : Z) : outcome (option nat) :=
  match fuel with
  | O => Timeout
  | S fuel =>
      let* r := rd_next st runner in
      match r with
      | None => Done best
      | Some y =>
          let* t := rd_type st y in
          let* hit :=
            if decide (t = HOLE) then
              let* s := rd_size st y in
              if s >=? size0 then Done (s <? min) else Done false
            else Done false in
          if (hit : bool) then
            let* s := rd_size st y in
            best_fit_loop fuel st y size0 (Some runner) s
          else best_fit_loop fuel st y size0 best min
      end
  end.

Definition alloc_best_fit (fuel : nat) (st : state) (size0 : Z)
  : outcome (state * option Z) :=
  match head_pointer st with
  | None => Done (st, None)
  | Some hp =>
      let* best :=
        best_fit_loop fuel st hp size0 None (wadd (memory_arena_size st) 1) in
      allocate_node st best size0
  end.

Fixpoint worst_fit_loop (fuel : nat) (st : state) (runner : nat) (size0 : Z)
         (worst : option nat) (max : Z) : outcome (option nat) :=
  match fuel with
  | O => Timeout
  | S fuel =>
      let* r := rd_next st runner in
      match r with
      | None => Done worst
      | Some y =>
          let* t := rd_type st y in
          let* hit :=
            if decide (t = HOLE) then
              let* s := rd_size st y in
              if s >=? size0 then Done (s >? max) else Done false
            else Done false in
          if (hit : bool) then
            let* s := rd_size st y in
            worst_fit_loop fuel st y size0 (Some runner) s
          else worst_fit_loop fuel st y size0 worst max
      end
  end.

Definition alloc_worst_fit (fuel : nat) (st : state) (size0 : Z)
  : outcome (state * option Z) :=
  match head_pointer st with
  | None => Done (st, None)
  | Some hp =>
      let* worst := worst_fit_loop fuel st hp size0 None 0 in
      allocate_node st worst size0
  end.

(** ** Public allocation and release

    An address handed to the caller is [memory_arena + new->address]; the
    model returns the offset [new->address], and [mavalloc_free] takes the
    offset [ptr - memory_arena]. *)

Definition mavalloc_alloc (fuel : nat) (st : state) (size0 : Z)
  : outcome (state * option Z) :=
  let requested_size := ALIGN4 size0 in
  match heap_algo st with
  | FIRST_FIT => alloc_first_fit fuel st requested_size
  | NEXT_FIT => alloc_next_fit fuel st requested_size
  | BEST_FIT => alloc_best_fit fuel st requested_size
  | WORST_FIT => alloc_worst_fit fuel st requested_size
  end.

(** The search loop of [mavalloc_free]: [Some runner] when
    [runner->next->address] is the offset looked for. *)
Fixpoint free_loop (fuel : nat) (st : state) (runner : nat) (ptr : Z)
  : outcome (option nat) :=
  match fuel with
  | O => Timeout
  | S fuel =>
      let* y := rd_next st runner in
      let* y := defined y in
      let* a := rd_address st y in
      if decide (a <> ptr) then
        let* r := rd_next st y in
        match r with
        | None => Done None
        | Some _ => free_loop fuel st y ptr
        end
      else Done (Some runner)
  end.

(** [node = runner->next; runner->size += node->size;
     runner->next = node->next; node_free( node );] *)
Definition absorb_next (st : state) (runner : nat) : outcome state :=
  let* node := rd_next st runner in
  let* node := defined node in
  let* s := rd_size st runner in
  let* sn := rd_size st node in
  let* st := wr_size st runner (wadd s sn) in
  let* nn := rd_next st node in
  let* st := wr_next st runner nn in
  node_free st node.

(** The end of [mavalloc_free], once [runner] is the node that was freed:
    [if( runner->next == NULL ) return;
     if( runner->next->type == HOLE ) { ... }] *)
Definition absorb_free_next (st : state) (runner : nat) : outcome state :=
  let* r := rd_next st runner in
  match r with
  | None => Done st
  | Some y =>
      let* t := rd_type st y in
      if decide (t = HOLE) then absorb_next st runner else Done st
  end.

Definition mavalloc_free (fuel : nat) (st : state) (ptr : Z) : outcome state :=
  match head_pointer st with
  | None => Done st
  | Some hp =>
      let* r := free_loop fuel st hp ptr in
      match r with
      | None => Done st
      | Some runner =>
          let* t := rd_type st runner in
          let* (st, runner) :=
            if bool_decide (t = HOLE) && negb (bool_decide (runner = hp)) then
              let* st := absorb_next st runner in
              Done (st, runner)
            else
              let* y := rd_next st runner in
              let* runner := defined y in
              let* st := wr_type st runner HOLE in
              Done (st, runner) in
          absorb_free_next st runner
      end
  end.

Fixpoint size_loop (fuel : nat) (st : state) (runner : nat) (number_of_nodes : Z)
  : outcome Z :=
  match fuel with
  | O => Timeout
  | S fuel =>
      let* r := rd_next st runner in
      match r with
      | None => Done number_of_nodes
      | Some y => size_loop fuel st y (number_of_nodes + 1)
      end
  end.

Definition mavalloc_size (fuel : nat) (st : state) : outcome Z :=
  match head_pointer st with
  | None => Done 0
  | Some hp => size_loop fuel st hp 0
  end.

(** ** The block list seen by a caller *)

Record Block : Type := mkBlock {
  kind : ALLOCATE;
  offset : Z;
  len : Z
}.

Global Instance Block_eq_dec : EqDecision Block.
Proof. solve_decision. Defined.

Definition block_of (n : Node) : option Block :=
  match type n, address n, size n with
  | Some t, Some a, Some s => Some (mkBlock t a s)
  | _, _, _ => None
  end.

(** The nodes reached from [p] along [next], at most [fuel] of them. *)
Fixpoint walk (fuel : nat) (h : list Node) (p : option nat) : list nat :=
  match fuel, p with
  | S fuel, Some i =>
      match h !! i with
      | Some n => i :: walk fuel h (next n)
      | None => []
      end
  | _, _ => []
  end.

(** The linked list, sentinel first. *)
Definition live (st : state) : list nat :=
  walk (S (length (node_stack st))) (node_stack st) (head_pointer st).

(** The blocks of the list in list order, without the sentinel. *)
Definition blocks (st : state) : list Block :=
  omap (fun i => n ← node_stack st !! i; block_of n) (tail (live st)).

(** ** Properties of block lists *)

(** [tiles a l c]: the blocks of [l], in list order, tile [a, c): the first
    starts at [a], each one starts where the one before ends, the last ends
    at [c]. *)
Fixpoint tiles (a : Z) (l : list Block) (c : Z) : Prop :=
  match l with
  | [] => a = c
  | b :: l' => offset b = a /\ 0 <= len b /\ tiles (a + len b) l' c
  end.

Fixpoint no_adjacent_free (l : list Block) : Prop :=
  match l with
  | a :: l' =>
      match l' with
      | b :: _ => ~ (kind a = HOLE /\ kind b = HOLE)
      | [] => True
      end /\ no_adjacent_free l'
  | [] => True
  end.

Fixpoint ascending (l : list Z) : Prop :=
  match l with
  | a :: l' =>
      match l' with
      | b :: _ => a <= b
      | [] => True
      end /\ ascending l'
  | [] => True
  end.

Fixpoint strictly_ascending (l : list Z) : Prop :=
  match l with
  | a :: l' =>
      match l' with
      | b :: _ => a < b
      | [] => True
      end /\ strictly_ascending l'
  | [] => True
  end.

Definition aligned4 (b : Block) : Prop := offset b mod 4 = 0 /\ len b mod 4 = 0.

Definition positive (b : Block) : Prop := 0 < len b.

(** What the list invariant of the allocator says about the blocks, for an
    arena of [cap] bytes.  [interior]: only the first block may start at the
    very end of the arena (it does when the arena is empty). *)
Record good (cap : Z) (l : list Block) : Prop := mkGood {
  good_cap : 0 <= cap < SIZE_MOD;
  good_cap4 : cap mod 4 = 0;
  good_nonempty : l <> [];
  good_tiles : tiles 0 l cap;
  good_interior : Forall (fun b => offset b < cap) (tail l);
  good_free : no_adjacent_free l;
  good_aligned : Forall aligned4 l
}.

(** *** The split, on lists ([allocate_node]) *)

Definition split_blocks (cap : Z) (l1 : list Block) (y : Block)
           (l2 : list Block) (s : Z) : list Block :=
  let p := mkBlock PROCESS (offset y) s in
  if wadd (offset y) s >=? cap then l1 ++ [p]
  else if wsub (len y) s <=? 0 then l1 ++ p :: l2
  else l1 ++ p :: mkBlock (kind y) (wadd (offset y) s) (wsub (len y) s) :: l2.

(** *** The release, on lists ([mavalloc_free]) *)

Definition grow (b : Block) (d : Z) : Block :=
  mkBlock (kind b) (offset b) (wadd (len b) d).

(** The second step of the release: [x] absorbs a free successor. *)
Definition merge_next (x : Block) (l2 : list Block) : list Block :=
  match l2 with
  | z :: l2' => if decide (kind z = HOLE) then grow x (len z) :: l2' else x :: l2
  | [] => [x]
  end.

(** The release of [x], found between [l1] and [l2]. *)
Definition coalesce (l1 : list Block) (x : Block) (l2 : list Block) : list Block :=
  match last l1 with
  | Some r =>
      if decide (kind r = HOLE) then
        removelast l1 ++ merge_next (grow r (len x)) l2
      else l1 ++ merge_next (mkBlock HOLE (offset x) (len x)) l2
  | None => l1 ++ merge_next (mkBlock HOLE (offset x) (len x)) l2
  end.

(** [free_blocks l ptr]: the whole release on lists; the block released is
    the first one of the list that starts at [ptr], whatever its kind. *)
Fixpoint free_search (l1 l : list Block) (ptr : Z) : option (list Block) :=
  match l with
  | [] => None
  | x :: l2 =>
      if decide (offset x = ptr) then Some (coalesce l1 x l2)
      else free_search (l1 ++ [x]) l2 ptr
  end.

Definition free_blocks (l : list Block) (ptr : Z) : list Block :=
  match free_search [] l ptr with
  | Some l' => l'
  | None => l
  end.

(** ** The linked list inside the node array *)

Definition nxt (h : list Node) (p : nat) : option (option nat) :=
  next <$> h !! p.

Definition dat (h : list Node) (p : nat) : option Block :=
  n ← h !! p; block_of n.

(** [path h p l e]: from node [p], following [next], one meets the nodes of
    [l] in order, each holding the block paired with it, and the [next] of
    the last node met ([p] itself when [l] is empty) is [e]. *)
Fixpoint path (h : list Node) (p : nat) (l : list (nat * Block))
         (e : option nat) : Prop :=
  match l with
  | [] => nxt h p = Some e
  | qb :: l' =>
      nxt h p = Some (Some qb.1) /\ dat h qb.1 = Some qb.2 /\ path h qb.1 l' e
  end.

(** [seg h o S e]: starting from the pointer [o] and following [next], one
    meets exactly the nodes of [S], in order, and then the pointer [e]. *)
Fixpoint seg (h : list Node) (o : option nat) (S : list nat)
         (e : option nat) : Prop :=
  match S with
  | [] => o = e
  | t :: S' => o = Some t /\ exists n, h !! t = Some n /\ seg h (next n) S' e
  end.

(** What holds of every node of the array, in the list or not. *)
Definition node_ok (x : Node) : Prop :=
  (forall a, address x = Some a -> a mod 4 = 0) /\
  (forall s, size x = Some s -> s mod 4 = 0).

(** [Struct st hp l sp]: the list of [st] is the sentinel [hp] followed by the
    nodes of [l]; the stack of spare nodes is [sp], apart from the list; the
    cursor of next fit designates a node of the list or a spare node. *)
Record Struct (st : state) (hp : nat) (l : list (nat * Block))
       (sp : list nat) : Prop := mkStruct {
  s_head : head_pointer st = Some hp;
  s_sentinel : exists n, node_stack st !! hp = Some n /\ type n = Some HOLE;
  s_path : path (node_stack st) hp l None;
  s_pool : seg (node_stack st) (stack_head st) sp None;
  s_nodup : NoDup ((hp :: l.*1) ++ sp);
  s_prev : exists c, previous_node st = Some c /\ c ∈ (hp :: l.*1) ++ sp;
  s_ok : Forall node_ok (node_stack st)
}.

Definition Inv (st : state) : Prop :=
  exists hp l sp, Struct st hp l sp /\ good (memory_arena_size st) l.*2.

(** ** Reachable states *)

Inductive reachable : state -> Prop :=
| reach_init size0 algorithm malloc_ok st0 st :
    mavalloc_init size0 algorithm malloc_ok st0 = Done (st, 0) ->
    reachable st
| reach_alloc st fuel size0 st' r :
    reachable st ->
    mavalloc_alloc fuel st size0 = Done (st', r) ->
    reachable st'
| reach_free st fuel ptr st' :
    reachable st ->
    mavalloc_free fuel st ptr = Done st' ->
    reachable st'.

(** States reached when neither the capacity nor any request rounds to 0. *)
Inductive reachable_nonzero : state -> Prop :=
| reachnz_init size0 algorithm malloc_ok st0 st :
    0 < ALIGN4 size0 ->
    mavalloc_init size0 algorithm malloc_ok st0 = Done (st, 0) ->
    reachable_nonzero st
| reachnz_alloc st fuel size0 st' r :
    reachable_nonzero st ->
    0 < ALIGN4 size0 ->
    mavalloc_alloc fuel st size0 = Done (st', r) ->
    reachable_nonzero st'
| reachnz_free st fuel ptr st' :
    reachable_nonzero st ->
    mavalloc_free fuel st ptr = Done st' ->
    reachable_nonzero st'.

(** The globals that only [mavalloc_init] and [mavalloc_destroy] write. *)
Definition same_arena (st st' : state) : Prop :=
  memory_arena st' = memory_arena st /\
  memory_arena_size st' = memory_arena_size st /\
  heap_algo st' = heap_algo st /\
  head_pointer st' = head_pointer st.

(** The last node of the path that starts at [p] and runs through [l]. *)
Definition endp (p : nat) (l : list (nat * Block)) : nat :=
  default p (last l.*1).

(** [fits st R s]: the node after [R] is a hole of at least [s] bytes; this is
    what the scans of the four strategies establish of the node they pass
    to [allocate_node]. *)
Definition fits (st : state) (R : nat) (s : Z) : Prop :=
  exists nR y nY L,
    node_stack st !! R = Some nR /\ next nR = Some y /\
    node_stack st !! y = Some nY /\ type nY = Some HOLE /\
    size nY = Some L /\ s <= L.

(** The split as the specification words it: an ALLOCATED block of [s]
    bytes at the offset of the hole [y]; the hole goes when nothing is left
    of it, and otherwise stays, [s] bytes further and [s] bytes shorter. *)
Definition split_spec (l1 : list Block) (y : Block) (l2 : list Block)
           (s : Z) : list Block :=
  l1 ++ mkBlock PROCESS (offset y) s ::
        (if len y - s =? 0 then l2
         else mkBlock HOLE (offset y + s) (len y - s) :: l2).

(** The list ends with, resp. starts with, a FREE block. *)
Definition hole_last (l : list Block) : Prop :=
  exists r, last l = Some r /\ kind r = HOLE.

Definition hole_head (l : list Block) : Prop :=
  exists z, head l = Some z /\ kind z = HOLE.

(** [good] without the clause on adjacent holes: what holds in the middle of
    a release, between its steps. *)
Definition tiled (cap : Z) (l : list Block) : Prop :=
  0 <= cap < SIZE_MOD /\ cap mod 4 = 0 /\ l <> [] /\ tiles 0 l cap /\
  Forall (fun b => offset b < cap) (tail l) /\ Forall aligned4 l.

(** [carved l s a l']: [l'] is [l] after the split of one of its holes, found
    at offset [a], for a request of [s] bytes. *)
Definition carved (l : list Block) (s a : Z) (l' : list Block) : Prop :=
  exists l1 y l2,
    l = l1 ++ y :: l2 /\ kind y = HOLE /\ s <= len y /\ a = offset y /\
    l' = split_spec l1 y l2 s.

(** ** Example runs

    The state after a call, for runs whose calls all return. *)
Definition after_init (size0 : Z) (algorithm : ALGORITHM) : state :=
  match mavalloc_init size0 algorithm true boot with
  | Done (st, _) => st
  | _ => boot
  end.

Definition after_alloc (st : state) (size0 : Z) : state :=
  match mavalloc_alloc 300 st size0 with
  | Done (st', _) => st'
  | _ => st
  end.

Definition after_free (st : state) (ptr : Z) : state :=
  match mavalloc_free 300 st ptr with
  | Done st' => st'
  | _ => st
  end.

(** [mavalloc_init( 8, FIRST_FIT ); mavalloc_alloc( 0 );] *)
Definition run_zero : state := after_alloc (after_init 8 FIRST_FIT) 0.

(** [mavalloc_init( 16, FIRST_FIT ); mavalloc_alloc( 8 );] *)
Definition run_plain : state := after_alloc (after_init 16 FIRST_FIT) 8.

(** [mavalloc_init( 8, NEXT_FIT ); a = mavalloc_alloc( 4 );
     b = mavalloc_alloc( 4 ); mavalloc_free( a ); mavalloc_free( b );] *)
Definition run_last : state :=
  after_free
    (after_free (after_alloc (after_alloc (after_init 8 NEXT_FIT) 4) 4) 0) 4.

(** [mavalloc_init( 32, NEXT_FIT )], then allocations of 4, 4 bytes, the
    release of offset 0, allocations of 4 and 20 bytes, and the releases of
    offsets 8 and 4. *)
Definition run_stale : state :=
  after_free
    (after_free
       (after_alloc
          (after_alloc
             (after_free (after_alloc (after_alloc (after_init 32 NEXT_FIT) 4) 4) 0)
             4)
          20)
       8)
    4.


(** [mavalloc_init( 16, NEXT_FIT )], then allocations of 4, 4 bytes, the
    release of offset 0, an allocation of 4 bytes, the releases of offsets
    8 and 4, and an allocation of 4 bytes. *)
Definition run_loop : state :=
  after_alloc
    (after_free
       (after_free
          (after_alloc
             (after_free (after_alloc (after_alloc (after_init 16 NEXT_FIT) 4) 4) 0)
             4)
          8)
       4)
    4.


(** ** Accounting *)

(** The bytes of the FREE blocks, resp. of the ALLOCATED blocks, of a list. *)
Definition free_bytes (l : list Block) : Z :=
  foldr (fun b acc => if decide (kind b = HOLE) then len b + acc else acc) 0 l.

Definition used_bytes (l : list Block) : Z :=
  foldr (fun b acc => if decide (kind b = PROCESS) then len b + acc else acc) 0 l.


(** ** The scans of best fit and worst fit, on the list

    What [best_fit_loop] and [worst_fit_loop] compute, read on the nodes of
    the list and their blocks instead of the node array: [r] is the node
    before the first of [l]. *)
Fixpoint best_scan (r : nat) (l : list (nat * Block)) (s : Z)
         (best : option nat) (min : Z) : option nat :=
  match l with
  | [] => best
  | (y, b) :: l' =>
      if bool_decide (kind b = HOLE) && (len b >=? s) && (len b <? min)
      then best_scan y l' s (Some r) (len b)
      else best_scan y l' s best min
  end.

Fixpoint worst_scan (r : nat) (l : list (nat * Block)) (s : Z)
         (worst : option nat) (max : Z) : option nat :=
  match l with
  | [] => worst
  | (y, b) :: l' =>
      if bool_decide (kind b = HOLE) && (len b >=? s) && (len b >? max)
      then worst_scan y l' s (Some r) (len b)
      else worst_scan y l' s worst max
  end.


(** The setup shared by [first_fit_test] and [worst_fit_test] of the test
    suite: [mavalloc_init( 1840, algorithm )], seven allocations that fill
    the arena, and the release of the first, third, fifth and seventh of
    them, which come back at offsets 0, 600, 1240 and 1760. *)
Definition fit_setup (algorithm : ALGORITHM) : state :=
  foldl after_free
        (foldl after_alloc (after_init 1840 algorithm)
               [200; 400; 240; 400; 120; 400; 80])
        [0; 600; 1240; 1760].


(** [mavalloc_init( 800, FIRST_FIT )] and 198 allocations of 4 bytes: the
    sentinel, the 198 ALLOCATED blocks and the FREE block left hold the 200
    nodes of the array. *)
Definition run_full : state :=
  Nat.iter 198 (fun st => after_alloc st 4) (after_init 800 FIRST_FIT).


(** [cursor_at st i]: the cursor of next fit is the node in front of block
    [i] of the list (the sentinel when [i = 0]); in particular it is a node
    of the list and not the last one. *)
Definition cursor_at (st : state) (i : nat) : Prop :=
  (i < length (blocks st))%nat /\
  exists c, previous_node st = Some c /\ live st !! i = Some c.


(** [mavalloc_init( 16, NEXT_FIT )], allocations of 4, 4 and 8 bytes that
    fill the arena, and the release of the first of them. *)
Definition run_round : state :=
  after_free
    (after_alloc (after_alloc (after_alloc (after_init 16 NEXT_FIT) 4) 4) 8) 0.


(** States reached under next fit by allocations alone. *)
Inductive allocs_only : state -> Prop :=
| only_init size0 malloc_ok st0 st :
    mavalloc_init size0 NEXT_FIT malloc_ok st0 = Done (st, 0) ->
    allocs_only st
| only_alloc st fuel size0 st' r :
    allocs_only st ->
    mavalloc_alloc fuel st size0 = Done (st', r) ->
    allocs_only st'.

(** [mavalloc_init( 16, NEXT_FIT )] and two allocations of 4 bytes. *)
Definition run_next : state :=
  after_alloc (after_alloc (after_init 16 NEXT_FIT) 4) 4.


(** ** Printing the list

    [mavalloc_print] writes one line per node after the sentinel.  The model
    returns, for each line, the four values handed to [printf]. *)
Record PrintLine : Type := mkLine {
  line_number : Z;
  line_type : ALLOCATE;
  line_address : Z;
  line_size : Z
}.

Fixpoint print_loop (fuel : nat) (st : state) (runner : nat)
         (number_of_nodes : Z) : outcome (list PrintLine) :=
  match fuel with
  | O => Timeout
  | S fuel =>
      let* r := rd_next st runner in
      match r with
      | None => Done []
      | Some y =>
          let number_of_nodes := number_of_nodes + 1 in
          let* t := rd_type st y in
          let* a := rd_address st y in
          let* s := rd_size st y in
          let* rest := print_loop fuel st y number_of_nodes in
          Done (mkLine number_of_nodes t a s :: rest)
      end
  end.

Definition mavalloc_print (fuel : nat) (st : state) : outcome (list PrintLine) :=
  match head_pointer st with
  | None => Done []
  | Some hp => print_loop fuel st hp 0
  end.

(** The lines for the blocks of [l], numbered from [k + 1]. *)
Fixpoint lines_from (k : Z) (l : list Block) : list PrintLine :=
  match l with
  | [] => []
  | b :: l' => mkLine (k + 1) (kind b) (offset b) (len b) :: lines_from (k + 1) l'
  end.


(** ** The unit tests of the test suite

    [malloc] is taken to succeed.  Each test returns 1 when it passes. *)
Definition test_case_0 (st : state) : outcome (state * Z) :=
  let* (st, rc) := mavalloc_init 2048 FIRST_FIT true st in
  if decide (rc <> 0) then Done (st, 0)
  else Done (mavalloc_destroy st, 1).

Definition test_case_1 (fuel : nat) (st : state) : outcome (state * Z) :=
  let* (st, ptr) := mavalloc_alloc fuel st 65535 in
  match ptr with
  | None => Done (st, 0)
  | Some p =>
      let* st := mavalloc_free fuel st p in
      Done (st, 1)
  end.

(** [test_case_2] with [FIRST_FIT], [test_case_3] with [WORST_FIT]. *)
Definition test_alloc_twice (algorithm : ALGORITHM) (fuel : nat) (st : state)
  : outcome (state * Z) :=
  let* (st, rc) := mavalloc_init 2048 algorithm true st in
  if decide (rc <> 0) then Done (st, 0)
  else
    let* (st, ptr1) := mavalloc_alloc fuel st 2048 in
    match ptr1 with
    | None => Done (st, 0)
    | Some p1 =>
        let* st := mavalloc_free fuel st p1 in
        let* (st, ptr2) := mavalloc_alloc fuel st 1024 in
        match ptr2 with
        | None => Done (st, 0)
        | Some p2 =>
            let* st := mavalloc_free fuel st p2 in
            Done (mavalloc_destroy st, 1)
        end
    end.

Definition test_case_2 := test_alloc_twice FIRST_FIT.
Definition test_case_3 := test_alloc_twice WORST_FIT.


(** The pool of spare descriptors, from [stack_head] along [next]. *)
Definition spare (st : state) : list nat :=
  walk (length (node_stack st)) (node_stack st) (stack_head st).

(* ================================================================= *)
(** * Proofs *)

(** ** Outcomes and node accesses *)

Lemma bind_Done {A B} (m : outcome A) (k : A -> outcome B) b :
  bind m k = Done b -> exists a, m = Done a /\ k a = Done b.
Proof. destruct m; simpl; intros; eauto; discriminate. Qed.

Lemma defined_Done {A} (o : option A) a : defined o = Done a -> o = Some a.
Proof. destruct o; simpl; congruence. Qed.

Lemma load_Done h p n : load h p = Done n -> h !! p = Some n.
Proof. apply defined_Done. Qed.

Lemma load_Some h p n : h !! p = Some n -> load h p = Done n.
Proof. unfold load. intros ->. reflexivity. Qed.

Lemma rd_next_Done st p r :
  rd_next st p = Done r -> exists n, node_stack st !! p = Some n /\ next n = r.
Proof.
  unfold rd_next. intros H. apply bind_Done in H as (n & H1 & H2).
  apply load_Done in H1. exists n. split; [assumption | congruence].
Qed.

Lemma rd_type_Done st p r :
  rd_type st p = Done r -> exists n, node_stack st !! p = Some n /\ type n = Some r.
Proof.
  unfold rd_type. intros H. apply bind_Done in H as (n & H1 & H2).
  apply load_Done in H1. apply defined_Done in H2. eauto.
Qed.

Lemma rd_address_Done st p r :
  rd_address st p = Done r ->
  exists n, node_stack st !! p = Some n /\ address n = Some r.
Proof.
  unfold rd_address. intros H. apply bind_Done in H as (n & H1 & H2).
  apply load_Done in H1. apply defined_Done in H2. eauto.
Qed.

Lemma rd_size_Done st p r :
  rd_size st p = Done r -> exists n, node_stack st !! p = Some n /\ size n = Some r.
Proof.
  unfold rd_size. intros H. apply bind_Done in H as (n & H1 & H2).
  apply load_Done in H1. apply defined_Done in H2. eauto.
Qed.

Lemma wr_Done st p f st' :
  wr st p f = Done st' ->
  exists n, node_stack st !! p = Some n /\
            st' = with_nodes st (<[p := f n]> (node_stack st)).
Proof.
  unfold wr. intros H. apply bind_Done in H as (n & H1 & H2).
  apply load_Done in H1. exists n. split; [assumption | congruence].
Qed.

(** ** Paths in the node array *)

Lemma nxt_Some h p e : nxt h p = Some e <-> exists n, h !! p = Some n /\ next n = e.
Proof.
  unfold nxt. destruct (h !! p) as [n|]; simpl; split.
  - intros [= <-]. eauto.
  - intros (n' & [= <-] & <-). reflexivity.
  - discriminate.
  - intros (n' & [=] & _).
Qed.

Lemma dat_Some h p b : dat h p = Some b <-> exists n, h !! p = Some n /\ block_of n = Some b.
Proof.
  unfold dat. destruct (h !! p) as [n|]; simpl; split.
  - eauto.
  - intros (n' & [= <-] & H). exact H.
  - discriminate.
  - intros (n' & [=] & _).
Qed.

Lemma block_of_Some n b :
  block_of n = Some b <->
  type n = Some (kind b) /\ address n = Some (offset b) /\ size n = Some (len b).
Proof.
  unfold block_of. destruct n as [[t|] [a|] [s|] nx], b as [k o z]; simpl;
    split; try (intros [= -> -> ->]; auto); try discriminate;
    intros (H1 & H2 & H3); congruence.
Qed.

Lemma path_app_cons h p l1 q b l2 e :
  path h p (l1 ++ (q, b) :: l2) e <->
  path h p l1 (Some q) /\ dat h q = Some b /\ path h q l2 e.
Proof.
  revert p. induction l1 as [|[q1 b1] l1 IH]; simpl; intros p.
  - tauto.
  - rewrite IH. tauto.
Qed.

Lemma path_ext h h' p l e :
  nxt h' p = nxt h p ->
  (forall q, q ∈ l.*1 -> h' !! q = h !! q) ->
  path h p l e -> path h' p l e.
Proof.
  revert p. induction l as [|[q b] l IH]; simpl; intros p Hp Hl.
  - congruence.
  - intros (H1 & H2 & H3).
    assert (Hq : h' !! q = h !! q) by (apply Hl; left).
    split; [congruence|]. split.
    + unfold dat in *. rewrite Hq. exact H2.
    + apply IH; [unfold nxt; rewrite Hq; reflexivity | | exact H3].
      intros q' Hq'. apply Hl. right. exact Hq'.
Qed.

Lemma path_frame h p l e x n :
  x ∉ (p :: l.*1) -> path h p l e -> path (<[x := n]> h) p l e.
Proof.
  intros Hx. apply path_ext.
  - unfold nxt. rewrite list_lookup_insert_ne; [reflexivity|].
    intros ->. apply Hx. left.
  - intros q Hq. apply list_lookup_insert_ne. intros ->. apply Hx. right. exact Hq.
Qed.

(** Writing the data of the first node of a path, its [next] kept. *)
Lemma path_set_head h p l e n n' :
  h !! p = Some n -> next n' = next n -> p ∉ l.*1 ->
  path h p l e -> path (<[p := n']> h) p l e.
Proof.
  intros Hn Hnx Hp. apply path_ext.
  - unfold nxt. rewrite list_lookup_insert_eq by (eapply lookup_lt_Some; eauto).
    rewrite Hn. simpl. congruence.
  - intros q Hq. apply list_lookup_insert_ne. intros ->. contradiction.
Qed.

(** Redirecting the [next] of the last node of a path. *)
Lemma path_relink h p l e e' r n n' :
  path h p l e -> last (p :: l.*1) = Some r -> NoDup (p :: l.*1) ->
  h !! r = Some n -> block_of n' = block_of n -> next n' = e' ->
  path (<[r := n']> h) p l e'.
Proof.
  intros Hpath Hlast Hnd Hr Hb Hn. revert p Hpath Hlast Hnd.
  induction l as [|[q b] l IH]; intros p Hpath Hlast Hnd.
  - assert (p = r) as -> by (cbn in Hlast; congruence).
    apply nxt_Some. exists n'. split; [|exact Hn].
    apply list_lookup_insert_eq. eapply lookup_lt_Some; eauto.
  - rewrite fmap_cons in Hlast, Hnd. cbn [fst] in Hlast, Hnd.
    rewrite last_cons_cons in Hlast.
    destruct Hpath as (H1 & H2 & H3). cbn [fst snd] in H1, H2, H3.
    apply NoDup_cons in Hnd as [Hp Hnd].
    assert (Hrp : r ≠ p).
    { intros ->. apply Hp. apply last_Some_elem_of in Hlast. exact Hlast. }
    split; [|split]; cbn [fst snd].
    + unfold nxt. rewrite list_lookup_insert_ne by exact Hrp. exact H1.
    + destruct (decide (r = q)) as [->|Hrq].
      * apply dat_Some. exists n'. split.
        -- apply list_lookup_insert_eq. eapply lookup_lt_Some; eauto.
        -- rewrite Hb. apply dat_Some in H2 as (n0 & Hn0 & Hb0). congruence.
      * unfold dat. rewrite list_lookup_insert_ne by exact Hrq. exact H2.
    + apply IH; [exact H3 | exact Hlast | exact Hnd].
Qed.

Lemma path_lookup h p l e q :
  path h p l e -> q ∈ p :: l.*1 -> is_Some (h !! q).
Proof.
  revert p. induction l as [|[q1 b1] l IH]; simpl; intros p.
  - intros H Hq. apply list_elem_of_singleton in Hq as ->.
    apply nxt_Some in H as (n & Hn & _). eauto.
  - intros (H1 & H2 & H3) Hq. apply elem_of_cons in Hq as [->|Hq].
    + apply nxt_Some in H1 as (n & Hn & _). eauto.
    + eapply IH; eauto.
Qed.

Lemma path_walk h p l fuel :
  path h p l None -> (length l < fuel)%nat -> walk fuel h (Some p) = p :: l.*1.
Proof.
  revert p fuel. induction l as [|[q b] l IH]; simpl; intros p fuel H Hf.
  - destruct fuel as [|fuel]; [lia|]. simpl.
    apply nxt_Some in H as (n & -> & ->). destruct fuel; reflexivity.
  - destruct H as (H1 & H2 & H3). destruct fuel as [|fuel]; [lia|]. simpl.
    apply nxt_Some in H1 as (n & -> & ->). f_equal. apply IH; [exact H3 | lia].
Qed.

Lemma path_blocks h p l e :
  path h p l e -> omap (fun i => dat h i) l.*1 = l.*2.
Proof.
  revert p. induction l as [|[q b] l IH]; simpl; intros p.
  - reflexivity.
  - intros (H1 & H2 & H3). rewrite H2. f_equal. eapply IH; eauto.
Qed.

Lemma NoDup_bounded (l : list nat) (n : nat) :
  NoDup l -> (forall x, x ∈ l -> (x < n)%nat) -> (length l <= n)%nat.
Proof.
  intros Hnd Hb.
  assert (H : l ⊆+ seq 0 n).
  { apply NoDup_submseteq; [exact Hnd|]. intros x Hx.
    apply elem_of_seq. specialize (Hb x Hx). lia. }
  apply submseteq_length in H. rewrite length_seq in H. exact H.
Qed.

Lemma Struct_length st hp l sp :
  Struct st hp l sp -> (S (length l) <= length (node_stack st))%nat.
Proof.
  intros HS. pose proof (s_nodup _ _ _ _ HS) as Hnd.
  apply NoDup_app in Hnd as (Hnd & _ & _).
  apply NoDup_bounded with (n := length (node_stack st)) in Hnd.
  - simpl in Hnd. rewrite length_fmap in Hnd. exact Hnd.
  - intros x Hx. eapply path_lookup in Hx; [|apply (s_path _ _ _ _ HS)].
    apply lookup_lt_is_Some_1. exact Hx.
Qed.

Lemma Struct_live st hp l sp : Struct st hp l sp -> live st = hp :: l.*1.
Proof.
  intros HS. unfold live. rewrite (s_head _ _ _ _ HS).
  apply path_walk; [apply (s_path _ _ _ _ HS)|].
  pose proof (Struct_length _ _ _ _ HS). lia.
Qed.

Lemma Struct_blocks st hp l sp : Struct st hp l sp -> blocks st = l.*2.
Proof.
  intros HS. unfold blocks. rewrite (Struct_live _ _ _ _ HS). simpl.
  eapply path_blocks. apply (s_path _ _ _ _ HS).
Qed.

Lemma path_move h h' p p' l e :
  nxt h' p' = nxt h p ->
  (forall q, q ∈ l.*1 -> h' !! q = h !! q) ->
  path h p l e -> path h' p' l e.
Proof.
  destruct l as [|[q b] l]; cbn [path fst snd]; intros Hp Hl.
  - congruence.
  - intros (H1 & H2 & H3).
    assert (Hq : h' !! q = h !! q) by (apply Hl; left).
    split; [congruence|]. split.
    + unfold dat in *. rewrite Hq. exact H2.
    + eapply path_ext; [unfold nxt; rewrite Hq; reflexivity | | exact H3].
      intros q' Hq'. apply Hl. right. exact Hq'.
Qed.

(** ** Forward rules for node accesses *)

Lemma rd_next_eq st p n :
  node_stack st !! p = Some n -> rd_next st p = Done (next n).
Proof. unfold rd_next, load. intros ->. reflexivity. Qed.

Lemma rd_type_eq st p n t :
  node_stack st !! p = Some n -> type n = Some t -> rd_type st p = Done t.
Proof. unfold rd_type, load. intros -> H. simpl. rewrite H. reflexivity. Qed.

Lemma rd_address_eq st p n a :
  node_stack st !! p = Some n -> address n = Some a -> rd_address st p = Done a.
Proof. unfold rd_address, load. intros -> H. simpl. rewrite H. reflexivity. Qed.

Lemma rd_size_eq st p n s :
  node_stack st !! p = Some n -> size n = Some s -> rd_size st p = Done s.
Proof. unfold rd_size, load. intros -> H. simpl. rewrite H. reflexivity. Qed.

Lemma wr_eq st p f n :
  node_stack st !! p = Some n ->
  wr st p f = Done (with_nodes st (<[p := f n]> (node_stack st))).
Proof. unfold wr, load. intros ->. reflexivity. Qed.

(** ** size_t arithmetic *)

Lemma SIZE_MOD_4 : SIZE_MOD = 4 * 2 ^ 62.
Proof. reflexivity. Qed.

Lemma mod_SIZE_MOD_4 a : (a mod SIZE_MOD) mod 4 = a mod 4.
Proof. apply Z.mod_mod_divide. exists (2 ^ 62). reflexivity. Qed.

Lemma wadd_aligned a b : a mod 4 = 0 -> b mod 4 = 0 -> wadd a b mod 4 = 0.
Proof.
  intros Ha Hb. unfold wadd. rewrite mod_SIZE_MOD_4.
  rewrite Z.add_mod, Ha, Hb by lia. reflexivity.
Qed.

Lemma wsub_aligned a b : a mod 4 = 0 -> b mod 4 = 0 -> wsub a b mod 4 = 0.
Proof.
  intros Ha Hb. unfold wsub. rewrite mod_SIZE_MOD_4.
  rewrite Zminus_mod, Ha, Hb by lia. reflexivity.
Qed.

Lemma wadd_small a b : 0 <= a + b < SIZE_MOD -> wadd a b = a + b.
Proof. intros H. unfold wadd. apply Z.mod_small. exact H. Qed.

Lemma wsub_small a b : 0 <= a - b < SIZE_MOD -> wsub a b = a - b.
Proof. intros H. unfold wsub. apply Z.mod_small. exact H. Qed.

Lemma ALIGN4_aligned s : ALIGN4 s mod 4 = 0.
Proof.
  unfold ALIGN4. rewrite mod_SIZE_MOD_4.
  rewrite Z.mul_comm. apply Z.mod_mul. lia.
Qed.

Lemma ALIGN4_range s : 0 <= ALIGN4 s < SIZE_MOD.
Proof. unfold ALIGN4. apply Z.mod_pos_bound. reflexivity. Qed.

(** ** Every node stays well formed *)

Lemma ok_insert h p n :
  Forall node_ok h -> node_ok n -> Forall node_ok (<[p := n]> h).
Proof.
  intros H Hn.
  destruct (decide (p < length h)%nat) as [Hlt|Hge].
  - apply Forall_insert; assumption.
  - rewrite list_insert_ge by lia. exact H.
Qed.

Lemma ok_lookup h p n : Forall node_ok h -> h !! p = Some n -> node_ok n.
Proof. intros H Hp. eapply Forall_lookup_1; eauto. Qed.

(** ** The stack of spare nodes *)

Lemma seg_app h o S1 S2 e :
  seg h o (S1 ++ S2) e <-> exists m, seg h o S1 m /\ seg h m S2 e.
Proof.
  revert o. induction S1 as [|t S1 IH]; intros o; cbn [app seg].
  - split.
    + intros H. exists o. split; [reflexivity|exact H].
    + intros (m & -> & H). exact H.
  - split.
    + intros (-> & n & Hn & H). apply IH in H as (m & H1 & H2).
      exists m. split; [|exact H2]. split; [reflexivity|]. eauto.
    + intros (m & (-> & n & Hn & H1) & H2). split; [reflexivity|].
      exists n. split; [exact Hn|]. apply IH. eauto.
Qed.

Lemma seg_ext h h' o S e :
  (forall q, q ∈ S -> nxt h' q = nxt h q) -> seg h o S e -> seg h' o S e.
Proof.
  revert o. induction S as [|t S IH]; intros o Hext; cbn [seg].
  - auto.
  - intros (-> & n & Hn & H). split; [reflexivity|].
    assert (Ht : nxt h' t = nxt h t) by (apply Hext; left).
    unfold nxt in Ht. rewrite Hn in Ht. cbn in Ht.
    destruct (h' !! t) as [n'|] eqn:E; [|discriminate].
    cbn in Ht. exists n'. split; [reflexivity|].
    assert (next n' = next n) as -> by congruence.
    apply IH; [|exact H]. intros q Hq. apply Hext. right. exact Hq.
Qed.

Lemma seg_lookup h o S e q : seg h o S e -> q ∈ S -> is_Some (h !! q).
Proof.
  revert o. induction S as [|t S IH]; intros o; cbn [seg].
  - intros _ Hq. inversion Hq.
  - intros (-> & n & Hn & H) Hq. apply elem_of_cons in Hq as [->|Hq]; eauto.
Qed.

(** ** Unlinking the successor of a list node ([absorb_next]) *)

Ltac lookups :=
  repeat first
    [ rewrite list_lookup_insert_eq
        by (rewrite ?length_insert; eauto using lookup_lt_Some)
    | rewrite list_lookup_insert_ne by congruence ].

Lemma NoDup_mid (a : list nat) x b :
  NoDup (a ++ x :: b) -> x ∉ a ++ b.
Proof.
  intros H. apply NoDup_app in H as (Ha & Hab & Hb).
  apply NoDup_cons in Hb as (Hxb & Hb).
  intros Hin. apply elem_of_app in Hin as [Hin|Hin].
  - apply (Hab x Hin). left.
  - contradiction.
Qed.

Lemma NoDup_app_l (a b : list nat) : NoDup (a ++ b) -> NoDup a.
Proof. intros H. apply NoDup_app in H as (Ha & _ & _). exact Ha. Qed.

Ltac split_at x L :=
  lazymatch L with
  | x :: ?b => constr:((@nil nat, b))
  | ?y :: ?r =>
      let p := split_at x r in
      lazymatch p with (?a, ?b) => constr:((y :: a, b)) end
  | ?l ++ ?r =>
      let p := split_at x r in
      lazymatch p with (?a, ?b) => constr:((l ++ a, b)) end
  end.

(** [nd_at x H as Hx]: from [H : NoDup L], with [x] an element of [L], the
    fact that [x] occurs nowhere else in [L]. *)
Ltac right_assoc H :=
  repeat (progress (cbn [app] in H; rewrite <- ?app_assoc in H)).

Tactic Notation "nd_at" constr(x) hyp(H) "as" ident(Hx) :=
  let H' := fresh in
  pose proof H as H'; right_assoc H';
  lazymatch type of H' with
  | NoDup ?L =>
      let p := split_at x L in
      lazymatch p with
      | (?a, ?b) =>
          assert (Hx : x ∉ a ++ b)
            by (apply NoDup_mid;
                repeat (progress (cbn [app]; rewrite <- ?app_assoc));
                exact H')
      end
  end;
  clear H'.

Ltac mem :=
  repeat match goal with
         | H : ?T |- _ =>
             lazymatch T with
             | _ ∈ _ => fail
             | _ ∉ _ => fail
             | @eq nat _ _ => fail
             | not (@eq nat _ _) => fail
             | _ => clear H
             end
         end;
  repeat match goal with
         | H : context [fmap fst ?l] |- _ =>
             let k := fresh "k" in set (k := fmap fst l) in *; clearbody k
         | |- context [fmap fst ?l] =>
             let k := fresh "k" in set (k := fmap fst l) in *; clearbody k
         end;
  repeat (rewrite ?elem_of_app, ?elem_of_cons, ?elem_of_nil in * );
  intuition (subst; try congruence; tauto).


Lemma NoDup_live_prefix hp (l1 l2 : list (nat * Block)) (sp : list nat) :
  NoDup ((hp :: (l1 ++ l2).*1) ++ sp) -> NoDup (hp :: l1.*1).
Proof.
  intros H. apply NoDup_app_l in H. rewrite fmap_app, app_comm_cons in H.
  apply NoDup_app_l in H. exact H.
Qed.

Lemma absorb_next_Struct st hp l1 r br x bx l2 sp :
  Struct st hp (l1 ++ (r, br) :: (x, bx) :: l2) sp ->
  exists st',
    absorb_next st r = Done st' /\
    Struct st' hp (l1 ++ (r, grow br (len bx)) :: l2) (x :: sp) /\
    same_arena st st' /\ previous_node st' = previous_node st.
Proof.
  intros [Hhead (n0 & Hn0 & Ht0) Hpath Hpool Hnd (c & Hc & Hcin) Hok].
  set (h := node_stack st) in *.
  apply path_app_cons in Hpath as (Hp1 & Hdr & Hp2).
  cbn [path fst snd] in Hp2. destruct Hp2 as (Hnr & Hdx & Hp2).
  apply dat_Some in Hdr as (nr & Hr & Hbr).
  apply dat_Some in Hdx as (nx & Hx & Hbx).
  apply nxt_Some in Hnr as (nr' & Hr' & Hnxr).
  assert (nr' = nr) as -> by congruence. clear Hr'.
  apply block_of_Some in Hbr as (Htr & Har & Hsr).
  apply block_of_Some in Hbx as (Htx & Hax & Hsx).
  rewrite fmap_app, !fmap_cons in Hnd, Hcin. cbn [fst] in *.
  assert (Hperm : (hp :: l1.*1 ++ r :: l2.*1) ++ x :: sp
                  ≡ₚ (hp :: l1.*1 ++ r :: x :: l2.*1) ++ sp).
  { cbn [app]. constructor. rewrite <- !app_assoc. cbn [app].
    apply Permutation_app_head. constructor.
    rewrite (Permutation_middle l2.*1 sp x). reflexivity. }
  assert (Hnd' : NoDup ((hp :: l1.*1 ++ r :: l2.*1) ++ x :: sp))
    by (rewrite Hperm; exact Hnd).
  nd_at x Hnd as Hx0. nd_at r Hnd as Hr0. nd_at hp Hnd as Hhp0.
  assert (Hxr : x ≠ r) by mem.
  assert (Hrhp : r ≠ hp) by mem.
  assert (Hxhp : x ≠ hp) by mem.
  set (nr1 := set_size nr (wadd (len br) (len bx))).
  set (nr2 := set_next nr1 (next nx)).
  set (nx1 := set_next nx (stack_head st)).
  set (h' := <[x := nx1]> (<[r := nr2]> (<[r := nr1]> h))).
  exists (with_stack_head (with_nodes st h') (Some x)).
  assert (Hother : forall q, q ≠ r -> q ≠ x -> h' !! q = h !! q).
  { intros q Hq1 Hq2. unfold h'. lookups. reflexivity. }
  assert (Hr' : h' !! r = Some nr2) by (unfold h'; lookups; reflexivity).
  assert (Hx' : h' !! x = Some nx1) by (unfold h'; lookups; reflexivity).
  split; [|split; [|split; [repeat split|reflexivity]]].
  - unfold absorb_next.
    rewrite (rd_next_eq _ _ _ Hr), Hnxr. cbn [bind defined].
    rewrite (rd_size_eq _ _ _ _ Hr Hsr), (rd_size_eq _ _ _ _ Hx Hsx).
    cbn [bind]. unfold wr_size. rewrite (wr_eq _ _ _ _ Hr). cbn [bind].
    erewrite rd_next_eq
      by (cbn [node_stack with_nodes]; fold h; lookups; exact Hx).
    cbn [bind]. unfold node_free, wr_next.
    erewrite wr_eq by (cbn [node_stack with_nodes]; fold h; lookups; reflexivity).
    cbn [bind].
    erewrite wr_eq by (cbn [node_stack with_nodes]; fold h; lookups; exact Hx).
    cbn [bind]. reflexivity.
  - constructor;
      cbn [head_pointer node_stack stack_head previous_node
           with_stack_head with_nodes].
    + exact Hhead.
    + exists n0. split; [|exact Ht0]. rewrite Hother by congruence. exact Hn0.
    + apply path_app_cons. split; [|split].
      * eapply path_ext; [| |exact Hp1].
        -- unfold nxt. rewrite Hother by congruence. reflexivity.
        -- intros q Hq. apply Hother; intros ->; mem.
      * apply dat_Some. exists nr2. split; [exact Hr'|].
        apply block_of_Some. cbn. auto.
      * eapply path_move; [| |exact Hp2].
        -- unfold nxt. rewrite Hr', Hx. reflexivity.
        -- intros q Hq. apply Hother; intros ->; mem.
    + split; [reflexivity|]. exists nx1. split; [exact Hx'|]. cbn [nx1 set_next next].
      eapply seg_ext; [|exact Hpool].
      intros q Hq. unfold nxt. rewrite Hother; [reflexivity| |]; intros ->; mem.
    + rewrite fmap_app, fmap_cons. cbn [fst]. exact Hnd'.
    + exists c. split; [exact Hc|]. rewrite fmap_app, fmap_cons. cbn [fst].
      rewrite Hperm. exact Hcin.
    + pose proof (ok_lookup _ _ _ Hok Hr) as (Hr_a & Hr_s).
      pose proof (ok_lookup _ _ _ Hok Hx) as (Hx_a & Hx_s).
      assert (Hok1 : node_ok nr1).
      { split; cbn; [exact Hr_a |].
        intros s [= <-]. apply wadd_aligned; [apply Hr_s | apply Hx_s]; assumption. }
      unfold h'. apply ok_insert; [apply ok_insert; [apply ok_insert|]|];
        try assumption.
      split; cbn; auto.
Qed.

(** ** Freeing in place, and the search of [mavalloc_free] *)

Lemma endp_nil p : endp p [] = p.
Proof. reflexivity. Qed.

Lemma endp_cons p q b l : endp p ((q, b) :: l) = endp q l.
Proof.
  unfold endp. rewrite fmap_cons. cbn [fst].
  destruct (l.*1) as [|z k] eqn:E; [reflexivity|].
  rewrite last_cons_cons. destruct (last (z :: k)) eqn:E2; [reflexivity|].
  rewrite last_cons in E2. destruct (last k); discriminate.
Qed.

Lemma endp_snoc p l q b : endp p (l ++ [(q, b)]) = q.
Proof. unfold endp. rewrite fmap_app. cbn [fmap list_fmap fst]. rewrite last_snoc. reflexivity. Qed.

Lemma endp_last p l : last (p :: l.*1) = Some (endp p l).
Proof.
  revert p. induction l as [|[q b] l IH]; intros p; [reflexivity|].
  rewrite fmap_cons, last_cons_cons, endp_cons. cbn [fst]. apply IH.
Qed.

Lemma endp_elem p l : endp p l ∈ p :: l.*1.
Proof. apply last_Some_elem_of. apply endp_last. Qed.

Lemma with_nodes_id st : with_nodes st (node_stack st) = st.
Proof. destruct st; reflexivity. Qed.

Lemma retype_Struct st hp l1 x bx l2 sp :
  Struct st hp (l1 ++ (x, bx) :: l2) sp ->
  exists st',
    wr_type st x HOLE = Done st' /\
    Struct st' hp (l1 ++ (x, mkBlock HOLE (offset bx) (len bx)) :: l2) sp /\
    same_arena st st' /\ previous_node st' = previous_node st /\
    (kind bx = HOLE -> st' = st).
Proof.
  intros [Hhead (n0 & Hn0 & Ht0) Hpath Hpool Hnd (c & Hc & Hcin) Hok].
  set (h := node_stack st) in *.
  apply path_app_cons in Hpath as (Hp1 & Hdx & Hp2).
  apply dat_Some in Hdx as (nx & Hx & Hbx).
  apply block_of_Some in Hbx as (Htx & Hax & Hsx).
  rewrite fmap_app, !fmap_cons in Hnd, Hcin. cbn [fst] in *.
  pose proof Hnd as Hnd0. nd_at x Hnd as Hx0.
  set (h' := <[x := set_type nx HOLE]> h).
  exists (with_nodes st h').
  assert (Hother : forall q, q ≠ x -> h' !! q = h !! q).
  { intros q Hq. unfold h'. lookups. reflexivity. }
  assert (Hx' : h' !! x = Some (set_type nx HOLE)) by (unfold h'; lookups; reflexivity).
  split; [|split; [|split; [repeat split|split; [reflexivity|]]]].
  - unfold wr_type. rewrite (wr_eq _ _ _ _ Hx). reflexivity.
  - constructor;
      cbn [head_pointer node_stack stack_head previous_node with_nodes].
    + exact Hhead.
    + destruct (decide (hp = x)) as [->|Hne].
      * exists (set_type nx HOLE). split; [exact Hx'|reflexivity].
      * exists n0. split; [|exact Ht0]. rewrite Hother by congruence. exact Hn0.
    + apply path_app_cons. split; [|split].
      * apply path_frame; [mem | exact Hp1].
      * apply dat_Some. exists (set_type nx HOLE). split; [exact Hx'|].
        apply block_of_Some. cbn. auto.
      * eapply path_set_head; eauto. mem.
    + eapply seg_ext; [|exact Hpool].
      intros q Hq. unfold nxt. rewrite Hother; [reflexivity|]. intros ->. mem.
    + rewrite fmap_app, fmap_cons. cbn [fst]. exact Hnd0.
    + exists c. split; [exact Hc|]. rewrite fmap_app, fmap_cons. cbn [fst]. exact Hcin.
    + pose proof (ok_lookup _ _ _ Hok Hx) as (Hx_a & Hx_s).
      unfold h'. apply ok_insert; [exact Hok|]. split; cbn; auto.
  - intros Hk. unfold h'.
    assert (set_type nx HOLE = nx) as ->.
    { destruct nx as [t a s nx']. cbn in *. unfold set_type. cbn. congruence. }
    rewrite list_insert_id by exact Hx. apply with_nodes_id.
Qed.

Lemma free_loop_found st r la x bx lb e ptr fuel :
  path (node_stack st) r (la ++ (x, bx) :: lb) e ->
  Forall (fun qb => offset qb.2 ≠ ptr) la -> offset bx = ptr ->
  (length la < fuel)%nat ->
  free_loop fuel st r ptr = Done (Some (endp r la)).
Proof.
  revert r fuel. induction la as [|[y b] la IH]; intros r fuel Hpath Hla Hx Hf.
  - destruct fuel as [|fuel]; [simpl in Hf; lia|].
    cbn [app path fst snd] in Hpath. destruct Hpath as (H1 & H2 & _).
    apply nxt_Some in H1 as (nr & Hr & Hnr).
    apply dat_Some in H2 as (nx & Hnx & Hbx).
    apply block_of_Some in Hbx as (_ & Hax & _).
    cbn [free_loop]. rewrite (rd_next_eq _ _ _ Hr), Hnr. cbn [bind defined].
    rewrite (rd_address_eq _ _ _ _ Hnx Hax). cbn [bind].
    destruct (decide (offset bx ≠ ptr)); [contradiction|]. reflexivity.
  - destruct fuel as [|fuel]; [simpl in Hf; lia|].
    rewrite <- app_comm_cons in Hpath.
    cbn [path fst snd] in Hpath. destruct Hpath as (H1 & H2 & H3).
    apply nxt_Some in H1 as (nr & Hr & Hnr).
    apply dat_Some in H2 as (ny & Hny & Hby).
    apply block_of_Some in Hby as (_ & Hay & _).
    apply Forall_cons in Hla as [Hb Hla]. cbn [snd] in Hb.
    cbn [free_loop]. rewrite (rd_next_eq _ _ _ Hr), Hnr. cbn [bind defined].
    rewrite (rd_address_eq _ _ _ _ Hny Hay). cbn [bind].
    destruct (decide (offset b ≠ ptr)); [|contradiction].
    rewrite (rd_next_eq _ _ _ Hny). cbn [bind].
    assert (Hnn : exists z, next ny = Some z).
    { destruct la as [|[z bz] la]; cbn [app path fst] in H3.
      - destruct H3 as (H3 & _). apply nxt_Some in H3 as (n' & Hn' & Hz).
        exists x. congruence.
      - destruct H3 as (H3 & _). apply nxt_Some in H3 as (n' & Hn' & Hz).
        exists z. congruence. }
    destruct Hnn as (z & ->). rewrite endp_cons.
    apply IH; [exact H3 | exact Hla | exact Hx | simpl in Hf; lia].
Qed.

Lemma free_loop_none st r y b l ptr fuel :
  path (node_stack st) r ((y, b) :: l) None ->
  Forall (fun qb => offset qb.2 ≠ ptr) ((y, b) :: l) ->
  (length l < fuel)%nat ->
  free_loop fuel st r ptr = Done None.
Proof.
  revert r y b fuel. induction l as [|[z bz] l IH]; intros r y b fuel Hpath Hl Hf;
    (destruct fuel as [|fuel]; [simpl in Hf; lia|]);
    cbn [path fst snd] in Hpath; destruct Hpath as (H1 & H2 & H3);
    apply nxt_Some in H1 as (nr & Hr & Hnr);
    apply dat_Some in H2 as (ny & Hny & Hby);
    apply block_of_Some in Hby as (_ & Hay & _);
    apply Forall_cons in Hl as [Hb Hl]; cbn [snd] in Hb;
    cbn [free_loop]; rewrite (rd_next_eq _ _ _ Hr), Hnr; cbn [bind defined];
    rewrite (rd_address_eq _ _ _ _ Hny Hay); cbn [bind];
    (destruct (decide (offset b ≠ ptr)); [|contradiction]);
    rewrite (rd_next_eq _ _ _ Hny); cbn [bind].
  - apply nxt_Some in H3 as (n' & Hn' & Hz).
    assert (n' = ny) as -> by congruence. rewrite Hz. reflexivity.
  - pose proof H3 as H3'. destruct H3' as (H4 & _).
    apply nxt_Some in H4 as (n' & Hn' & Hz).
    assert (n' = ny) as -> by congruence. cbn [fst] in Hz. rewrite Hz.
    eapply IH; [exact H3 | exact Hl | simpl in Hf; lia].
Qed.

(** ** The release on lists and on the node array *)

Lemma free_search_found acc la x lb ptr :
  Forall (fun b => offset b ≠ ptr) la -> offset x = ptr ->
  free_search acc (la ++ x :: lb) ptr = Some (coalesce (acc ++ la) x lb).
Proof.
  revert acc. induction la as [|b la IH]; intros acc Hla Hx; cbn [app free_search].
  - destruct (decide (offset x = ptr)); [|contradiction].
    rewrite app_nil_r. reflexivity.
  - apply Forall_cons in Hla as [Hb Hla].
    destruct (decide (offset b = ptr)); [contradiction|].
    rewrite IH by assumption. rewrite <- app_assoc. reflexivity.
Qed.

Lemma free_search_none acc l ptr :
  Forall (fun b => offset b ≠ ptr) l -> free_search acc l ptr = None.
Proof.
  revert acc. induction l as [|b l IH]; intros acc Hl; cbn [free_search].
  - reflexivity.
  - apply Forall_cons in Hl as [Hb Hl].
    destruct (decide (offset b = ptr)); [contradiction|]. apply IH. exact Hl.
Qed.

Lemma first_at (l : list (nat * Block)) ptr :
  Forall (fun qb => offset qb.2 ≠ ptr) l \/
  exists la x bx lb, l = la ++ (x, bx) :: lb /\
    Forall (fun qb => offset qb.2 ≠ ptr) la /\ offset bx = ptr.
Proof.
  induction l as [|[q b] l IH].
  - left. constructor.
  - destruct (decide (offset b = ptr)) as [Hb|Hb].
    + right. exists [], q, b, l. split; [reflexivity|]. split; [constructor|exact Hb].
    + destruct IH as [IH|(la & x & bx & lb & -> & Hla & Hx)].
      * left. constructor; assumption.
      * right. exists ((q, b) :: la), x, bx, lb.
        split; [reflexivity|]. split; [constructor; assumption|exact Hx].
Qed.

Lemma Forall_snd (P : Block -> Prop) (l : list (nat * Block)) :
  Forall (fun qb => P qb.2) l -> Forall P l.*2.
Proof. intros H. apply Forall_fmap. exact H. Qed.

Lemma absorb_free_next_Struct st hp l1 w bw lb sp :
  Struct st hp (l1 ++ (w, bw) :: lb) sp ->
  exists st' l' sp',
    absorb_free_next st w = Done st' /\
    Struct st' hp l' sp' /\
    l'.*2 = l1.*2 ++ merge_next bw lb.*2 /\
    same_arena st st' /\ previous_node st' = previous_node st /\
    (st' = st /\ l' = l1 ++ (w, bw) :: lb \/
     (length l' < length (l1 ++ (w, bw) :: lb))%nat).
Proof.
  intros S. pose proof (s_path _ _ _ _ S) as Hpath.
  apply path_app_cons in Hpath as (_ & Hdw & Hp2).
  destruct lb as [|[z bz] lb].
  - cbn [path] in Hp2. apply nxt_Some in Hp2 as (nw & Hw & Hnw).
    exists st, (l1 ++ [(w, bw)]), sp. unfold absorb_free_next.
    rewrite (rd_next_eq _ _ _ Hw), Hnw. cbn [bind].
    split; [reflexivity|]. split; [exact S|]. split.
    { rewrite fmap_app. reflexivity. }
    split; [repeat split|]. split; [reflexivity|]. left. split; reflexivity.
  - cbn [path fst snd] in Hp2. destruct Hp2 as (H1 & H2 & _).
    apply nxt_Some in H1 as (nw & Hw & Hnw).
    apply dat_Some in H2 as (nz & Hz & Hbz).
    apply block_of_Some in Hbz as (Htz & _ & _).
    unfold absorb_free_next.
    rewrite (rd_next_eq _ _ _ Hw), Hnw. cbn [bind].
    rewrite (rd_type_eq _ _ _ _ Hz Htz). cbn [bind].
    destruct (decide (kind bz = HOLE)) as [Hk|Hk].
    + destruct (absorb_next_Struct _ _ _ _ _ _ _ _ _ S) as (st' & Hrun & S' & Hsame & Hprev).
      exists st', (l1 ++ (w, grow bw (len bz)) :: lb), (z :: sp).
      split; [exact Hrun|]. split; [exact S'|]. split.
      { rewrite !fmap_app, !fmap_cons. cbn [snd merge_next].
        destruct (decide (kind bz = HOLE)); [reflexivity|contradiction]. }
      split; [exact Hsame|]. split; [exact Hprev|]. right.
      rewrite !length_app. simpl. lia.
    + exists st, (l1 ++ (w, bw) :: (z, bz) :: lb), sp.
      split; [reflexivity|]. split; [exact S|]. split.
      { rewrite !fmap_app, !fmap_cons. cbn [snd merge_next].
        destruct (decide (kind bz = HOLE)); [contradiction|reflexivity]. }
      split; [repeat split|]. split; [reflexivity|]. left. split; reflexivity.
Qed.

Lemma same_arena_trans a b c : same_arena a b -> same_arena b c -> same_arena a c.
Proof. unfold same_arena. intros (?&?&?&?) (?&?&?&?). repeat split; congruence. Qed.

Lemma same_arena_refl a : same_arena a a.
Proof. repeat split. Qed.

Lemma free_unchanged (st st1 st' : state) (l1 : list (nat * Block)) x bx lb l' :
  (kind bx = HOLE -> st1 = st) ->
  (st' = st1 /\ l' = l1 ++ (x, mkBlock HOLE (offset bx) (len bx)) :: lb \/
   (length l' < length (l1 ++ (x, mkBlock HOLE (offset bx) (len bx)) :: lb))%nat) ->
  st' = st \/ l'.*2 ≠ (l1 ++ (x, bx) :: lb).*2.
Proof.
  intros Hid1 [[-> ->]|Hlt].
  - destruct (decide (kind bx = HOLE)) as [Hk|Hk].
    + left. apply Hid1. exact Hk.
    + right. rewrite !fmap_app, !fmap_cons. cbn [snd]. intros Heq.
      apply app_inv_head in Heq. injection Heq as Heq.
      destruct bx as [k o z]. cbn in *. congruence.
  - right. intros Heq. apply (f_equal length) in Heq.
    rewrite !length_fmap in Heq. rewrite !length_app in *. simpl in *. lia.
Qed.

Lemma mavalloc_free_Struct st hp l sp ptr fuel :
  Struct st hp l sp -> l ≠ [] -> (length l <= fuel)%nat ->
  exists st' l' sp',
    mavalloc_free fuel st ptr = Done st' /\
    Struct st' hp l' sp' /\
    l'.*2 = free_blocks l.*2 ptr /\
    same_arena st st' /\ previous_node st' = previous_node st /\
    (st' = st \/ l'.*2 ≠ l.*2).
Proof.
  intros S Hne Hfuel. unfold mavalloc_free. rewrite (s_head _ _ _ _ S).
  destruct (first_at l ptr) as [Hall|(la & x & bx & lb & -> & Hla & Hx)].
  - (* no block starts at [ptr] *)
    destruct l as [|[y b] l]; [contradiction|].
    rewrite (free_loop_none _ _ _ _ _ _ _ (s_path _ _ _ _ S) Hall)
      by (simpl in Hfuel; lia).
    cbn [bind]. exists st, ((y, b) :: l), sp.
    split; [reflexivity|]. split; [exact S|]. split.
    { unfold free_blocks. rewrite free_search_none; [reflexivity|].
      apply Forall_snd with (P := fun b => offset b ≠ ptr). exact Hall. }
    split; [apply same_arena_refl|]. split; [reflexivity|]. left. split; reflexivity.
  - rewrite (free_loop_found _ _ _ _ _ _ _ _ _ (s_path _ _ _ _ S) Hla Hx)
      by (rewrite length_app in Hfuel; simpl in Hfuel; lia).
    cbn [bind].
    assert (Hfree : free_blocks (la ++ (x, bx) :: lb).*2 ptr
                    = coalesce la.*2 bx lb.*2).
    { unfold free_blocks. rewrite fmap_app, fmap_cons. cbn [snd].
      rewrite free_search_found; [reflexivity| |exact Hx].
      apply Forall_snd with (P := fun b => offset b ≠ ptr). exact Hla. }
    rewrite Hfree. clear Hfree.
    pose proof (s_path _ _ _ _ S) as Hpath.
    apply path_app_cons in Hpath as (Hp1 & Hdx & Hp2).
    destruct (s_sentinel _ _ _ _ S) as (n0 & Hn0 & Ht0).
    destruct la as [|[r br] la _] using rev_ind.
    + (* the first block of the list: the runner is the sentinel *)
      rewrite endp_nil. rewrite (rd_type_eq _ _ _ _ Hn0 Ht0). cbn [bind].
      rewrite bool_decide_eq_true_2 by reflexivity.
      rewrite (bool_decide_eq_true_2 (hp = hp)) by reflexivity.
      cbn [andb negb]. cbn [path] in Hp1.
      apply nxt_Some in Hp1 as (n0' & Hn0' & Hnx0).
      rewrite (rd_next_eq _ _ _ Hn0'), Hnx0. cbn [bind defined].
      destruct (retype_Struct _ _ _ _ _ _ _ S) as (st1 & Hrun & S1 & Hsame1 & Hprev1 & Hid1).
      rewrite Hrun. cbn [bind].
      destruct (absorb_free_next_Struct _ _ _ _ _ _ _ S1)
        as (st' & l' & sp' & Hrun2 & S' & Hl' & Hsame2 & Hprev2 & Hid2).
      exists st', l', sp'. split; [exact Hrun2|]. split; [exact S'|]. split.
      { rewrite Hl'. reflexivity. }
      split; [eapply same_arena_trans; eauto|]. split; [congruence|].
      eapply free_unchanged; eauto.
    + (* the runner is a block of the list *)
      rewrite endp_snoc.
      apply path_app_cons in Hp1 as (_ & Hdr & Hp1).
      cbn [path] in Hp1. apply nxt_Some in Hp1 as (nr & Hr & Hnxr).
      apply dat_Some in Hdr as (nr' & Hr' & Hbr).
      assert (nr' = nr) as -> by congruence. clear Hr'.
      apply block_of_Some in Hbr as (Htr & _ & _).
      rewrite (rd_type_eq _ _ _ _ Hr Htr). cbn [bind].
      assert (Hrhp : r ≠ hp).
      { pose proof (s_nodup _ _ _ _ S) as Hnd.
        rewrite !fmap_app, !fmap_cons in Hnd. cbn [fst] in Hnd.
        nd_at r Hnd as Hr0. mem. }
      rewrite (bool_decide_eq_false_2 (r = hp)) by exact Hrhp.
      cbn [negb]. rewrite andb_true_r.
      assert (Hlast : last (la ++ [(r, br)]).*2 = Some br).
      { rewrite fmap_app. cbn [fmap list_fmap snd]. apply last_snoc. }
      assert (Hrem : removelast (la ++ [(r, br)]).*2 = la.*2).
      { rewrite fmap_app. cbn [fmap list_fmap snd]. apply removelast_last. }
      unfold coalesce. rewrite Hlast, Hrem.
      rewrite <- app_assoc in S. cbn [app] in S.
      destruct (decide (kind br = HOLE)) as [Hk|Hk].
      * rewrite bool_decide_eq_true_2 by exact Hk.
        destruct (absorb_next_Struct _ _ _ _ _ _ _ _ _ S)
          as (st1 & Hrun & S1 & Hsame1 & Hprev1).
        rewrite Hrun. cbn [bind].
        destruct (absorb_free_next_Struct _ _ _ _ _ _ _ S1)
          as (st' & l' & sp' & Hrun2 & S' & Hl' & Hsame2 & Hprev2 & Hid2).
        exists st', l', sp'. split; [exact Hrun2|]. split; [exact S'|].
        split; [exact Hl'|].
        split; [eapply same_arena_trans; eauto|]. split; [congruence|].
        right. intros Heq. apply (f_equal length) in Heq.
        rewrite !length_fmap in Heq.
        assert (length l' <= length (la ++ (r, grow br (len bx)) :: lb))%nat.
        { destruct Hid2 as [[_ ->]|Hlt]; lia. }
        rewrite !length_app in *. simpl in *. lia.
      * rewrite bool_decide_eq_false_2 by exact Hk.
        rewrite (rd_next_eq _ _ _ Hr), Hnxr. cbn [bind defined].
        replace (la ++ (r, br) :: (x, bx) :: lb)
          with ((la ++ [(r, br)]) ++ (x, bx) :: lb) in S
          by (rewrite <- app_assoc; reflexivity).
        destruct (retype_Struct _ _ _ _ _ _ _ S)
          as (st1 & Hrun & S1 & Hsame1 & Hprev1 & Hid1).
        rewrite Hrun. cbn [bind].
        destruct (absorb_free_next_Struct _ _ _ _ _ _ _ S1)
          as (st' & l' & sp' & Hrun2 & S' & Hl' & Hsame2 & Hprev2 & Hid2).
        exists st', l', sp'. split; [exact Hrun2|]. split; [exact S'|]. split.
        { rewrite Hl'. reflexivity. }
        split; [eapply same_arena_trans; eauto|]. split; [congruence|].
        eapply free_unchanged; eauto.
Qed.

(** ** Splitting a hole of the list *)

Lemma NoDup_app_disj (a b : list nat) q : NoDup (a ++ b) -> q ∈ a -> q ∉ b.
Proof. intros H Hq. apply NoDup_app in H as (_ & H & _). apply H. exact Hq. Qed.


Lemma path_relink_ext h h' p l e e' n :
  path h p l e -> NoDup (p :: l.*1) ->
  h !! endp p l = Some n ->
  h' !! endp p l = Some (set_next n e') ->
  (forall q, q ∈ p :: l.*1 -> q ≠ endp p l -> h' !! q = h !! q) ->
  path h' p l e'.
Proof.
  intros Hpath Hnd Hn Hn' Hother.
  assert (H1 : path (<[endp p l := set_next n e']> h) p l e').
  { eapply path_relink; eauto using endp_last. }
  assert (Hsame : forall q, q ∈ p :: l.*1 ->
                            h' !! q = <[endp p l := set_next n e']> h !! q).
  { intros q Hq. destruct (decide (q = endp p l)) as [->|Hne].
    - rewrite Hn'. symmetry. apply list_lookup_insert_eq.
      eapply lookup_lt_Some; eauto.
    - rewrite list_lookup_insert_ne by congruence. apply Hother; assumption. }
  eapply path_ext; [| |exact H1].
  - unfold nxt. rewrite Hsame by left. reflexivity.
  - intros q Hq. apply Hsame. right. exact Hq.
Qed.

Lemma Struct_sentinel_kept st st' hp l sp n :
  Struct st hp l sp ->
  node_stack st' !! hp = Some n ->
  (exists n0, node_stack st !! hp = Some n0 /\ type n = type n0) ->
  exists n1, node_stack st' !! hp = Some n1 /\ type n1 = Some HOLE.
Proof.
  intros HS Hn (n0 & Hn0 & Ht). destruct (s_sentinel _ _ _ _ HS) as (m & Hm & Htm).
  exists n. split; [exact Hn|]. congruence.
Qed.

(** The hole [y] leaves the list for the stack; the new node [t] takes its
    place. *)
Lemma Struct_consume st st' hp l1 y by0 l2 t sp0 bt nR nY nt :
  Struct st hp (l1 ++ (y, by0) :: l2) (t :: sp0) ->
  node_stack st !! endp hp l1 = Some nR ->
  node_stack st !! y = Some nY ->
  node_stack st !! t = Some nt ->
  head_pointer st' = head_pointer st ->
  previous_node st' = previous_node st ->
  stack_head st' = Some y ->
  (forall q, q ≠ t -> q ≠ y -> q ≠ endp hp l1 ->
             node_stack st' !! q = node_stack st !! q) ->
  node_stack st' !! endp hp l1 = Some (set_next nR (Some t)) ->
  (exists n, node_stack st' !! t = Some n /\ block_of n = Some bt /\
             next n = next nY) ->
  (exists n, node_stack st' !! y = Some n /\ next n = next nt) ->
  Forall node_ok (node_stack st') ->
  Struct st' hp (l1 ++ (t, bt) :: l2) (y :: sp0).
Proof.
  intros HS HR HY HT Hhead Hprev Hstack Hother HR' (nt' & HT' & Hbt & Hnt')
         (ny' & HY' & Hny') Hok.
  pose proof HS as [Hhead0 Hsent Hpath Hpool Hnd (c & Hc & Hcin) _].
  set (h := node_stack st) in *. set (h' := node_stack st') in *.
  pose proof (NoDup_live_prefix _ _ _ _ Hnd) as Hnd1.
  pose proof (endp_elem hp l1) as HRin.
  remember (endp hp l1) as R eqn:ER.
  apply path_app_cons in Hpath as (Hp1 & Hdy & Hp2).
  rewrite fmap_app, !fmap_cons in Hnd, Hcin. cbn [fst] in *.
  assert (Hperm : (hp :: l1.*1 ++ t :: l2.*1) ++ y :: sp0
                  ≡ₚ (hp :: l1.*1 ++ y :: l2.*1) ++ t :: sp0).
  { cbn [app]. constructor. rewrite <- !app_assoc. cbn [app].
    apply Permutation_app_head.
    rewrite <- (Permutation_middle l2.*1 sp0 y).
    rewrite <- (Permutation_middle l2.*1 sp0 t). apply perm_swap. }
  assert (Hnd' : NoDup ((hp :: l1.*1 ++ t :: l2.*1) ++ y :: sp0))
    by (rewrite Hperm; exact Hnd).
  nd_at t Hnd as Htn. nd_at y Hnd as Hyn. nd_at hp Hnd as Hhpn.
  assert (HRout : R ∉ y :: l2.*1 ++ t :: sp0).
  { apply (NoDup_app_disj (hp :: l1.*1)); [|exact HRin].
    right_assoc Hnd. exact Hnd. }
  assert (HtR : t ≠ R) by mem.
  assert (HyR : y ≠ R) by mem.
  assert (Hty : t ≠ y) by mem.
  cbn [seg] in Hpool. destruct Hpool as (Hsh & nt0 & HT0 & Hpool).
  assert (nt0 = nt) as -> by congruence.
  constructor.
  - congruence.
  - destruct (decide (hp = R)) as [HhR|HhR].
    + eapply Struct_sentinel_kept; [exact HS | rewrite HhR; exact HR' |].
      exists nR. split; [rewrite HhR; exact HR | reflexivity].
    + destruct Hsent as (n0 & Hn0 & Ht0). exists n0. split; [|exact Ht0].
      fold h'. rewrite Hother; [exact Hn0 | | | exact HhR]; intros ->; mem.
  - apply path_app_cons. split; [|split].
    + subst R. eapply path_relink_ext; [exact Hp1 | exact Hnd1 | exact HR | exact HR' |].
      intros q Hq Hne. apply Hother; [| |exact Hne]; intros ->; mem.
    + apply dat_Some. eauto.
    + eapply path_move; [| |exact Hp2].
      * unfold nxt. fold h'. rewrite HT', HY. cbn. congruence.
      * intros q Hq. apply Hother; intros ->; mem.
  - rewrite Hstack. split; [reflexivity|]. exists ny'. split; [exact HY'|].
    rewrite Hny'. eapply seg_ext; [|exact Hpool].
    intros q Hq. unfold nxt. fold h'. rewrite Hother; [reflexivity| | |]; intros ->; mem.
  - rewrite fmap_app, fmap_cons. cbn [fst]. exact Hnd'.
  - exists c. split; [congruence|]. rewrite fmap_app, fmap_cons. cbn [fst].
    rewrite Hperm. exact Hcin.
  - exact Hok.
Qed.

(** The new node [t] enters the list before the hole [y], which stays. *)
Lemma Struct_insert st st' hp l1 y by0 by1 l2 t sp0 bt nR nY nt :
  Struct st hp (l1 ++ (y, by0) :: l2) (t :: sp0) ->
  node_stack st !! endp hp l1 = Some nR ->
  node_stack st !! y = Some nY ->
  node_stack st !! t = Some nt ->
  head_pointer st' = head_pointer st ->
  previous_node st' = previous_node st ->
  stack_head st' = next nt ->
  (forall q, q ≠ t -> q ≠ y -> q ≠ endp hp l1 ->
             node_stack st' !! q = node_stack st !! q) ->
  node_stack st' !! endp hp l1 = Some (set_next nR (Some t)) ->
  (exists n, node_stack st' !! t = Some n /\ block_of n = Some bt /\
             next n = Some y) ->
  (exists n, node_stack st' !! y = Some n /\ block_of n = Some by1 /\
             next n = next nY) ->
  Forall node_ok (node_stack st') ->
  Struct st' hp (l1 ++ (t, bt) :: (y, by1) :: l2) sp0.
Proof.
  intros HS HR HY HT Hhead Hprev Hstack Hother HR' (nt' & HT' & Hbt & Hnt')
         (ny' & HY' & Hby' & Hny') Hok.
  pose proof HS as [Hhead0 Hsent Hpath Hpool Hnd (c & Hc & Hcin) _].
  set (h := node_stack st) in *. set (h' := node_stack st') in *.
  pose proof (NoDup_live_prefix _ _ _ _ Hnd) as Hnd1.
  pose proof (endp_elem hp l1) as HRin.
  remember (endp hp l1) as R eqn:ER.
  apply path_app_cons in Hpath as (Hp1 & Hdy & Hp2).
  rewrite fmap_app, !fmap_cons in Hnd, Hcin. cbn [fst] in *.
  assert (Hperm : (hp :: l1.*1 ++ t :: y :: l2.*1) ++ sp0
                  ≡ₚ (hp :: l1.*1 ++ y :: l2.*1) ++ t :: sp0).
  { cbn [app]. constructor. rewrite <- !app_assoc. cbn [app].
    apply Permutation_app_head.
    rewrite <- (Permutation_middle l2.*1 sp0 t).
    apply perm_swap. }
  assert (Hnd' : NoDup ((hp :: l1.*1 ++ t :: y :: l2.*1) ++ sp0))
    by (rewrite Hperm; exact Hnd).
  nd_at t Hnd as Htn. nd_at y Hnd as Hyn. nd_at hp Hnd as Hhpn.
  assert (HRout : R ∉ y :: l2.*1 ++ t :: sp0).
  { apply (NoDup_app_disj (hp :: l1.*1)); [|exact HRin].
    right_assoc Hnd. exact Hnd. }
  assert (HtR : t ≠ R) by mem.
  assert (HyR : y ≠ R) by mem.
  assert (Hty : t ≠ y) by mem.
  cbn [seg] in Hpool. destruct Hpool as (Hsh & nt0 & HT0 & Hpool).
  assert (nt0 = nt) as -> by congruence.
  constructor.
  - congruence.
  - destruct (decide (hp = R)) as [HhR|HhR].
    + eapply Struct_sentinel_kept; [exact HS | rewrite HhR; exact HR' |].
      exists nR. split; [rewrite HhR; exact HR | reflexivity].
    + destruct Hsent as (n0 & Hn0 & Ht0). exists n0. split; [|exact Ht0].
      fold h'. rewrite Hother; [exact Hn0 | | | exact HhR]; intros ->; mem.
  - apply path_app_cons. split; [|split].
    + subst R. eapply path_relink_ext; [exact Hp1 | exact Hnd1 | exact HR | exact HR' |].
      intros q Hq Hne. apply Hother; [| |exact Hne]; intros ->; mem.
    + apply dat_Some. eauto.
    + cbn [path fst snd]. split; [|split].
      * apply nxt_Some. eauto.
      * apply dat_Some. eauto.
      * eapply path_ext; [| |exact Hp2].
        -- unfold nxt. fold h'. rewrite HY', HY. cbn. congruence.
        -- intros q Hq. apply Hother; intros ->; mem.
  - rewrite Hstack. eapply seg_ext; [|exact Hpool].
    intros q Hq. unfold nxt. fold h'. rewrite Hother; [reflexivity| | |]; intros ->; mem.
  - rewrite fmap_app, !fmap_cons. cbn [fst]. exact Hnd'.
  - exists c. split; [congruence|]. rewrite fmap_app, !fmap_cons. cbn [fst].
    rewrite Hperm. exact Hcin.
  - exact Hok.
Qed.

(** ** Taking a node from the stack *)

Lemma new_node_empty st ty a s :
  stack_head st = None -> new_node st ty a s = Done (st, None).
Proof. intros H. unfold new_node, node_malloc. rewrite H. reflexivity. Qed.

Lemma new_node_run st t nt ty a s :
  stack_head st = Some t -> node_stack st !! t = Some nt ->
  new_node st ty a s =
  Done (with_stack_head
          (with_nodes st (<[t := mkNode (Some ty) (Some a) (Some s) None]>
                            (node_stack st)))
          (next nt), Some t).
Proof.
  intros Hs Ht. unfold new_node, node_malloc. rewrite Hs.
  rewrite (rd_next_eq _ _ _ Ht). cbn [bind].
  unfold wr_next, wr_type, wr_address, wr_size.
  erewrite wr_eq by (cbn; exact Ht). cbn [bind].
  erewrite wr_eq by (cbn; lookups; reflexivity). cbn [bind].
  erewrite wr_eq by (cbn; lookups; reflexivity). cbn [bind].
  erewrite wr_eq by (cbn; lookups; reflexivity). cbn [bind].
  cbn. rewrite !list_insert_insert_eq. reflexivity.
Qed.

Ltac hsolve :=
  cbn [node_stack stack_head with_nodes with_stack_head with_previous_node
       with_head_pointer];
  lookups; first [eassumption | reflexivity].

Ltac fsolve := first [hsolve | cbn; first [eassumption | reflexivity]].

Ltac run :=
  repeat first
    [ progress cbn [bind defined node_stack stack_head head_pointer
                    previous_node memory_arena memory_arena_size heap_algo
                    with_nodes with_stack_head with_previous_node
                    with_head_pointer]
    | erewrite rd_next_eq by hsolve
    | erewrite rd_address_eq by fsolve
    | erewrite rd_size_eq by fsolve
    | erewrite rd_type_eq by fsolve
    | erewrite wr_eq by hsolve ].

Lemma allocate_node_list st hp l1 y by0 l2 sp s :
  Struct st hp (l1 ++ (y, by0) :: l2) sp ->
  s mod 4 = 0 ->
  ((wadd (offset by0) s >=? memory_arena_size st) = true -> l2 = []) ->
  match sp with
  | [] => allocate_node st (Some (endp hp l1)) s = Done (st, None)
  | t :: sp0 =>
      exists st',
        allocate_node st (Some (endp hp l1)) s = Done (st', Some (offset by0)) /\
        same_arena st st' /\ previous_node st' = previous_node st /\
        if (wadd (offset by0) s >=? memory_arena_size st)
           || (wsub (len by0) s <=? 0)
        then Struct st' hp (l1 ++ (t, mkBlock PROCESS (offset by0) s) :: l2)
                    (y :: sp0)
        else Struct st' hp
                    (l1 ++ (t, mkBlock PROCESS (offset by0) s)
                        :: (y, mkBlock (kind by0) (wadd (offset by0) s)
                                       (wsub (len by0) s)) :: l2) sp0
  end.
Proof.
  intros HS Hs4 Hend.
  pose proof HS as [Hhead Hsent Hpath Hpool Hnd (c & Hc & Hcin) Hok].
  pose proof (NoDup_live_prefix _ _ _ _ Hnd) as Hnd1.
  pose proof (endp_elem hp l1) as HRin.
  apply path_app_cons in Hpath as (Hp1 & Hdy & Hp2).
  assert (HR : exists nR, node_stack st !! endp hp l1 = Some nR /\ next nR = Some y).
  { clear -Hp1. revert hp Hp1. induction l1 as [|[q b] l1 IH]; intros hp Hp1.
    - cbn [path] in Hp1. apply nxt_Some in Hp1. exact Hp1.
    - cbn [path fst snd] in Hp1. destruct Hp1 as (_ & _ & Hp1).
      rewrite endp_cons. apply IH. exact Hp1. }
  destruct HR as (nR & HR & HnR).
  apply dat_Some in Hdy as (nY & HY & HbY).
  apply block_of_Some in HbY as (HtY & HaY & HsY).
  remember (endp hp l1) as R eqn:ER.
  rewrite fmap_app, !fmap_cons in Hnd, Hcin. cbn [fst] in *.
  destruct sp as [|t sp0].
  - cbn [seg] in Hpool. unfold allocate_node. run.
    rewrite HnR. run. rewrite new_node_empty by exact Hpool. reflexivity.
  - cbn [seg] in Hpool. destruct Hpool as (Hsh & nt & HT & Hpool).
    nd_at t Hnd as Htn. nd_at y Hnd as Hyn.
    assert (HRout : R ∉ y :: l2.*1 ++ t :: sp0).
    { apply (NoDup_app_disj (hp :: l1.*1)); [|exact HRin].
      right_assoc Hnd. exact Hnd. }
    assert (HtR : t ≠ R) by mem.
    assert (HyR : y ≠ R) by mem.
    assert (Hty : t ≠ y) by mem.
    pose proof (ok_lookup _ _ _ Hok HY) as (HY_a & HY_s).
    assert (HokN : node_ok (mkNode (Some PROCESS) (Some (offset by0)) (Some s) None)).
    { split; cbn; intros ? [= <-]; auto. }
    unfold allocate_node. run. rewrite HnR. run.
    rewrite (new_node_run _ _ _ _ _ _ Hsh HT). run. rewrite HnR. run.
    cbn [memory_arena_size with_stack_head with_nodes].
    destruct (wadd (offset by0) s >=? memory_arena_size st) eqn:Eend.
    + (* the hole ends the arena and is used up *)
      specialize (Hend eq_refl). subst l2.
      cbn [path] in Hp2. apply nxt_Some in Hp2 as (nY' & HY' & HnY).
      assert (nY' = nY) as -> by congruence. clear HY'.
      cbn [orb]. unfold node_free, wr_next. run.
      eexists. split; [reflexivity|]. split; [repeat split|]. split; [reflexivity|].
      eapply Struct_consume with (nR := nR) (nY := nY) (nt := nt);
        try exact HS; rewrite <- ?ER; cbn; try reflexivity; try assumption.
      * intros q H1 H2 H3. lookups. reflexivity.
      * lookups. reflexivity.
      * eexists. split; [lookups; reflexivity|]. split; [reflexivity|].
        cbn. congruence.
      * eexists. split; [lookups; reflexivity|]. reflexivity.
      * repeat apply ok_insert; try assumption.
        -- split; cbn; auto.
        -- pose proof (ok_lookup _ _ _ Hok HR) as (? & ?). split; cbn; auto.
    + unfold wr_address, wr_size, wr_next. run. rewrite HnR. run. rewrite HnR. run.
      cbn [orb].
      destruct (wsub (len by0) s <=? 0) eqn:Ezero.
      * (* nothing is left of the hole *)
        run. rewrite HnR. run. unfold node_free, wr_next. run.
        eexists. split; [reflexivity|]. split; [repeat split|]. split; [reflexivity|].
        eapply Struct_consume with (nR := nR) (nY := nY) (nt := nt);
          try exact HS; rewrite <- ?ER; cbn; try reflexivity; try assumption.
        -- intros q H1 H2 H3. lookups. reflexivity.
        -- lookups. reflexivity.
        -- eexists. split; [lookups; reflexivity|]. split; reflexivity.
        -- eexists. split; [lookups; reflexivity|]. reflexivity.
        -- pose proof (ok_lookup _ _ _ Hok HR) as (? & ?).
           repeat apply ok_insert; try assumption; split; cbn; auto;
             intros ? [= <-]; auto using wadd_aligned, wsub_aligned.
      * (* the hole shrinks *)
        run. rewrite ?HnR.
        eexists. split; [reflexivity|]. split; [repeat split|]. split; [reflexivity|].
        eapply Struct_insert with (nR := nR) (nY := nY) (nt := nt);
          try exact HS; rewrite <- ?ER; cbn; try reflexivity; try assumption.
        -- intros q H1 H2 H3. lookups. reflexivity.
        -- lookups. reflexivity.
        -- eexists. split; [lookups; reflexivity|]. split; reflexivity.
        -- eexists. split; [lookups; reflexivity|]. split; [|reflexivity].
           apply block_of_Some. cbn. auto.
        -- pose proof (ok_lookup _ _ _ Hok HR) as (? & ?).
           repeat apply ok_insert; try assumption; split; cbn; auto;
             intros ? [= <-]; auto using wadd_aligned, wsub_aligned.
Qed.

(** ** Splitting at a spare node

    When the cursor of next fit designates a spare node, [allocate_node]
    works on the stack of spare nodes and leaves the list alone. *)

Lemma NoDup_submseteq_inv (l k : list nat) : l ⊆+ k -> NoDup k -> NoDup l.
Proof.
  intros H Hk. apply submseteq_Permutation in H as (k' & Hk').
  rewrite Hk' in Hk. apply NoDup_app_l in Hk. exact Hk.
Qed.

Lemma rd_address_none st p n :
  node_stack st !! p = Some n -> address n = None -> rd_address st p = Fault.
Proof. unfold rd_address, load. intros -> H. simpl. rewrite H. reflexivity. Qed.

Lemma rd_size_none st p n :
  node_stack st !! p = Some n -> size n = None -> rd_size st p = Fault.
Proof. unfold rd_size, load. intros -> H. simpl. rewrite H. reflexivity. Qed.

Lemma rd_type_none st p n :
  node_stack st !! p = Some n -> type n = None -> rd_type st p = Fault.
Proof. unfold rd_type, load. intros -> H. simpl. rewrite H. reflexivity. Qed.

(** The list is untouched when the array changes outside of it. *)
Lemma Struct_spare st st' hp l sp sp' :
  Struct st hp l sp ->
  head_pointer st' = head_pointer st ->
  (forall q, q ∈ hp :: l.*1 -> node_stack st' !! q = node_stack st !! q) ->
  seg (node_stack st') (stack_head st') sp' None ->
  sp' ⊆+ sp ->
  (exists c, previous_node st' = Some c /\ c ∈ (hp :: l.*1) ++ sp') ->
  Forall node_ok (node_stack st') ->
  Struct st' hp l sp'.
Proof.
  intros [Hhead (n0 & Hn0 & Ht0) Hpath Hpool Hnd _ _] Hh Hsame Hseg Hsub Hprev Hok.
  constructor.
  - congruence.
  - exists n0. split; [|exact Ht0]. rewrite Hsame by left. exact Hn0.
  - eapply path_ext; [| |exact Hpath].
    + unfold nxt. rewrite Hsame by left. reflexivity.
    + intros q Hq. apply Hsame. right. exact Hq.
  - exact Hseg.
  - eapply NoDup_submseteq_inv; [|exact Hnd].
    apply submseteq_app; [reflexivity|exact Hsub].
  - exact Hprev.
  - exact Hok.
Qed.

Lemma allocate_node_spare st hp l sp R s st' r :
  Struct st hp l sp -> R ∈ sp -> previous_node st = Some R ->
  s mod 4 = 0 ->
  allocate_node st (Some R) s = Done (st', r) ->
  exists sp',
    Struct st' hp l sp' /\ same_arena st st' /\
    previous_node st' = previous_node st /\
    (forall a, r = Some a -> a mod 4 = 0).
Proof.
  intros HS HRin Hprev Hs4 Hrun.
  pose proof HS as [Hhead Hsent Hpath Hpool Hnd _ Hok].
  destruct sp as [|t sp0]; [inversion HRin|].
  cbn [seg] in Hpool. destruct Hpool as (Hsh & nt & HT & Hpool).
  destruct (decide (R = t)) as [->|HRt].
  { (* the cursor is the node handed out: its [next] is cleared, then followed *)
    exfalso. revert Hrun. unfold allocate_node.
    rewrite (rd_next_eq _ _ _ HT). cbn [bind].
    destruct (next nt) as [y|] eqn:Ey; [|discriminate]. cbn [bind defined].
    destruct (rd_address st y) as [a| |]; cbn [bind]; try discriminate.
    rewrite (new_node_run _ _ _ _ _ _ Hsh HT). run. discriminate. }
  apply elem_of_cons in HRin as [?|HRin]; [contradiction|].
  apply list_elem_of_split in HRin as (A & rest & ->).
  apply seg_app in Hpool as (m & HsA & Hrest).
  cbn [seg] in Hrest. destruct Hrest as (-> & nR & HR & Hrest).
  destruct rest as [|y B].
  { exfalso. cbn [seg] in Hrest. revert Hrun. unfold allocate_node.
    rewrite (rd_next_eq _ _ _ HR), Hrest. discriminate. }
  cbn [seg] in Hrest. destruct Hrest as (HnR & nY & HY & HsB).
  nd_at t Hnd as Htn. nd_at y Hnd as Hyn. nd_at R Hnd as HRn.
  assert (Hty : t ≠ y) by mem.
  assert (HyR : y ≠ R) by mem.
  assert (Hlive : forall q, q ∈ hp :: l.*1 -> q ≠ t /\ q ≠ y /\ q ≠ R).
  { intros q Hq. repeat split; intros ->; mem. }
  assert (HA : forall q, q ∈ A -> q ≠ t /\ q ≠ y /\ q ≠ R).
  { intros q Hq. repeat split; intros ->; mem. }
  assert (HB : forall q, q ∈ B -> q ≠ t /\ q ≠ y /\ q ≠ R).
  { intros q Hq. repeat split; intros ->; mem. }
  pose proof (ok_lookup _ _ _ Hok HY) as HokY.
  pose proof (ok_lookup _ _ _ Hok HR) as HokR.
  revert Hrun. unfold allocate_node. run. rewrite HnR. run.
  destruct (address nY) as [a|] eqn:HaY;
    [|rewrite (rd_address_none _ _ _ HY HaY); discriminate].
  pose proof (proj1 HokY _ HaY) as Ha4.
  run. rewrite (new_node_run _ _ _ _ _ _ Hsh HT). run. rewrite HnR. run.
  assert (HokN : node_ok (mkNode (Some PROCESS) (Some a) (Some s) None)).
  { split; cbn; intros ? [= <-]; auto. }
  destruct (wadd a s >=? memory_arena_size st) eqn:Eend.
  - unfold node_free, wr_next. run. intros [= <- <-].
    exists (y :: A ++ [R; t]). split; [|split; [repeat split|split; [reflexivity|]]].
    + eapply Struct_spare; [exact HS|reflexivity| | | | |]; cbn.
      * intros q Hq. destruct (Hlive q Hq) as (?&?&?). lookups. reflexivity.
      * split; [reflexivity|]. eexists. split; [lookups; reflexivity|]. cbn.
        apply seg_app. exists (Some R). split.
        -- eapply seg_ext; [|exact HsA]. intros q Hq.
           destruct (HA q Hq) as (?&?&?). unfold nxt. lookups. reflexivity.
        -- cbn [seg]. split; [reflexivity|]. eexists.
           split; [lookups; reflexivity|]. cbn. split; [reflexivity|].
           eexists. split; [lookups; reflexivity|]. reflexivity.
      * solve_submseteq.
      * exists R. split; [exact Hprev|]. mem.
      * destruct HokY as (HY_a & HY_s), HokR as (HR_a & HR_s).
        repeat apply ok_insert; try assumption; split; cbn; auto.
    + intros a' [= <-]. exact Ha4.
  - unfold wr_address, wr_size, wr_next. run. rewrite HnR. run.
    destruct (size nY) as [z|] eqn:HsY;
      [|erewrite rd_size_none by (hsolve || (cbn; exact HsY)); discriminate].
    pose proof (proj2 HokY _ HsY) as Hz4.
    run. rewrite HnR. run.
    destruct (wsub z s <=? 0) eqn:Ezero.
    + run. rewrite HnR. run. unfold node_free, wr_next. run. intros [= <- <-].
      exists (y :: A ++ R :: t :: B).
      split; [|split; [repeat split|split; [reflexivity|]]].
      * eapply Struct_spare; [exact HS|reflexivity| | | | |]; cbn.
        -- intros q Hq. destruct (Hlive q Hq) as (?&?&?). lookups. reflexivity.
        -- split; [reflexivity|]. eexists. split; [lookups; reflexivity|]. cbn.
           apply seg_app. exists (Some R). split.
           ++ eapply seg_ext; [|exact HsA]. intros q Hq.
              destruct (HA q Hq) as (?&?&?). unfold nxt. lookups. reflexivity.
           ++ cbn [seg]. split; [reflexivity|]. eexists.
              split; [lookups; reflexivity|]. cbn. split; [reflexivity|].
              eexists. split; [lookups; reflexivity|]. cbn.
              eapply seg_ext; [|exact HsB]. intros q Hq.
              destruct (HB q Hq) as (?&?&?). unfold nxt. lookups. reflexivity.
        -- solve_submseteq.
        -- exists R. split; [exact Hprev|]. mem.
        -- destruct HokY as (HY_a & HY_s), HokR as (HR_a & HR_s).
           repeat apply ok_insert; try assumption; split; cbn; auto;
             intros ? [= <-]; auto using wadd_aligned, wsub_aligned.
      * intros a' [= <-]. exact Ha4.
    + run. rewrite ?HnR. run. intros [= <- <-].
      exists (A ++ R :: t :: y :: B).
      split; [|split; [repeat split|split; [reflexivity|]]].
      * eapply Struct_spare; [exact HS|reflexivity| | | | |]; cbn.
        -- intros q Hq. destruct (Hlive q Hq) as (?&?&?). lookups. reflexivity.
        -- apply seg_app. exists (Some R). split.
           ++ eapply seg_ext; [|exact HsA]. intros q Hq.
              destruct (HA q Hq) as (?&?&?). unfold nxt. lookups. reflexivity.
           ++ cbn [seg]. split; [reflexivity|]. eexists.
              split; [lookups; reflexivity|]. cbn. split; [reflexivity|].
              eexists. split; [lookups; reflexivity|]. cbn. split; [reflexivity|].
              eexists. split; [lookups; reflexivity|]. cbn.
              eapply seg_ext; [|exact HsB]. intros q Hq.
              destruct (HB q Hq) as (?&?&?). unfold nxt. lookups. reflexivity.
        -- solve_submseteq.
        -- exists R. split; [exact Hprev|]. mem.
        -- destruct HokY as (HY_a & HY_s), HokR as (HR_a & HR_s).
           repeat apply ok_insert; try assumption; split; cbn; auto;
             intros ? [= <-]; auto using wadd_aligned, wsub_aligned.
      * intros a' [= <-]. exact Ha4.
Qed.

(** ** What the scans select *)

Lemma skip_cond_false st R s : skip_cond st R s = Done false -> fits st R s.
Proof.
  unfold skip_cond. intros H.
  apply bind_Done in H as (o & B1 & H).
  apply rd_next_Done in B1 as (nR & HR & <-).
  apply bind_Done in H as (y & B2 & H). apply defined_Done in B2.
  apply bind_Done in H as (t & B3 & H).
  apply rd_type_Done in B3 as (nY & HY & Ht).
  destruct (decide (t = PROCESS)) as [->|Hne]; [discriminate|].
  apply bind_Done in H as (L & B4 & H).
  apply rd_size_Done in B4 as (nY' & HY' & HL).
  assert (nY' = nY) as -> by congruence.
  exists nR, y, nY, L. repeat split; try assumption.
  - destruct t; congruence.
  - assert (E : (L <? s) = false) by congruence. apply Z.ltb_ge in E. exact E.
Qed.

Lemma path_next_in h p l e q n q' :
  path h p l e -> q ∈ p :: l.*1 -> h !! q = Some n -> next n = Some q' ->
  q' ∈ l.*1 \/ e = Some q'.
Proof.
  revert p. induction l as [|[y b] l IH]; intros p Hpath Hq Hn Hq'.
  - cbn [path] in Hpath. apply nxt_Some in Hpath as (n' & Hn' & He).
    apply list_elem_of_singleton in Hq as ->. right. congruence.
  - cbn [path fst snd] in Hpath. destruct Hpath as (H1 & _ & H3).
    rewrite fmap_cons. cbn [fst].
    apply elem_of_cons in Hq as [->|Hq].
    + apply nxt_Some in H1 as (n' & Hn' & He). left. apply elem_of_cons. left. congruence.
    + destruct (IH _ H3 Hq Hn Hq') as [Hin|He]; [left; right; exact Hin|right; exact He].
Qed.

Lemma seg_next_in h o sp e q n q' :
  seg h o sp e -> q ∈ sp -> h !! q = Some n -> next n = Some q' ->
  q' ∈ sp \/ e = Some q'.
Proof.
  revert o. induction sp as [|t sp IH]; intros o Hseg Hq Hn Hq'.
  - inversion Hq.
  - cbn [seg] in Hseg. destruct Hseg as (-> & nt & Ht & Hseg).
    apply elem_of_cons in Hq as [->|Hq].
    + assert (nt = n) as -> by congruence.
      destruct sp as [|t' sp]; cbn [seg] in Hseg.
      * right. congruence.
      * destruct Hseg as (E & _). left. right. apply elem_of_cons. left. congruence.
    + destruct (IH _ Hseg Hq Hn Hq') as [Hin|He]; [left; right; exact Hin|right; exact He].
Qed.

Lemma Struct_closed st hp l sp q n q' :
  Struct st hp l sp -> q ∈ (hp :: l.*1) ++ sp ->
  node_stack st !! q = Some n -> next n = Some q' ->
  q' ∈ (hp :: l.*1) ++ sp.
Proof.
  intros HS Hq Hn Hq'. apply elem_of_app in Hq as [Hq|Hq].
  - destruct (path_next_in _ _ _ _ _ _ _ (s_path _ _ _ _ HS) Hq Hn Hq') as [H|H];
      [|discriminate].
    apply elem_of_app. left. right. exact H.
  - destruct (seg_next_in _ _ _ _ _ _ _ (s_pool _ _ _ _ HS) Hq Hn Hq') as [H|H];
      [|discriminate].
    apply elem_of_app. right. exact H.
Qed.

Lemma Struct_live_closed st hp l sp q n q' :
  Struct st hp l sp -> q ∈ hp :: l.*1 ->
  node_stack st !! q = Some n -> next n = Some q' ->
  q' ∈ hp :: l.*1.
Proof.
  intros HS Hq Hn Hq'.
  destruct (path_next_in _ _ _ _ _ _ _ (s_path _ _ _ _ HS) Hq Hn Hq') as [H|H];
    [|discriminate].
  right. exact H.
Qed.

Lemma first_fit_loop_sound fuel st hp l sp runner s R :
  Struct st hp l sp -> runner ∈ hp :: l.*1 ->
  first_fit_loop fuel st runner s = Done (Some R) ->
  R ∈ hp :: l.*1 /\ fits st R s.
Proof.
  intros HS. revert runner. induction fuel as [|fuel IH]; intros runner Hin H.
  - discriminate.
  - cbn [first_fit_loop] in H. apply bind_Done in H as (c & Hc & H).
    destruct c.
    + apply bind_Done in H as (o & B1 & H).
      apply rd_next_Done in B1 as (n & Hn & <-).
      apply bind_Done in H as (y & B2 & H). apply defined_Done in B2.
      apply bind_Done in H as (o & B3 & H).
      destruct o as [z|]; [|discriminate].
      apply IH in H; [exact H|].
      eapply Struct_live_closed; eauto.
    + assert (R = runner) as -> by congruence.
      split; [exact Hin|]. apply skip_cond_false. exact Hc.
Qed.

Lemma next_fit_loop_sound fuel st hp l sp runner s R :
  Struct st hp l sp -> runner ∈ (hp :: l.*1) ++ sp ->
  next_fit_loop fuel st runner s = Done (Some R) ->
  R ∈ (hp :: l.*1) ++ sp /\ fits st R s.
Proof.
  intros HS. revert runner. induction fuel as [|fuel IH]; intros runner Hin H.
  - discriminate.
  - cbn [next_fit_loop] in H. apply bind_Done in H as (c & Hc & H).
    destruct c.
    + apply bind_Done in H as (o & B1 & H).
      apply rd_next_Done in B1 as (n & Hn & <-).
      apply bind_Done in H as (y & B2 & H). apply defined_Done in B2.
      apply bind_Done in H as (o & B3 & H).
      apply bind_Done in H as (runner' & B4 & H).
      destruct (decide (Some runner' = previous_node st)); [discriminate|].
      apply IH in H; [exact H|].
      destruct o as [z|].
      * assert (runner' = y) as -> by (cbn in B4; congruence).
        eapply Struct_closed; eauto.
      * apply defined_Done in B4. rewrite (s_head _ _ _ _ HS) in B4.
        assert (runner' = hp) as -> by congruence.
        apply elem_of_app. left. left.
    + assert (R = runner) as -> by congruence.
      split; [exact Hin|]. apply skip_cond_false. exact Hc.
Qed.

(** What best fit and worst fit hold in [best] and [worst]: nothing, or a
    node of the list followed by a hole large enough. *)
Lemma best_fit_loop_sound fuel st hp l sp runner s best min r :
  Struct st hp l sp -> runner ∈ hp :: l.*1 ->
  (forall R, best = Some R -> R ∈ hp :: l.*1 /\ fits st R s) ->
  best_fit_loop fuel st runner s best min = Done r ->
  forall R, r = Some R -> R ∈ hp :: l.*1 /\ fits st R s.
Proof.
  intros HS. revert runner best min.
  induction fuel as [|fuel IH]; intros runner best min Hin Hbest H.
  - discriminate.
  - cbn [best_fit_loop] in H. apply bind_Done in H as (o & B1 & H).
    apply rd_next_Done in B1 as (n & Hn & <-).
    destruct (next n) as [y|] eqn:Ey.
    + assert (Hy : y ∈ hp :: l.*1) by (eapply Struct_live_closed; eauto).
      apply bind_Done in H as (t & B2 & H).
      apply rd_type_Done in B2 as (nY & HY & Ht).
      apply bind_Done in H as (hit & B3 & H).
      destruct hit.
      * apply bind_Done in H as (L & B4 & H).
        apply rd_size_Done in B4 as (nY' & HY' & HL).
        assert (nY' = nY) as -> by congruence.
        eapply IH; [exact Hy | | exact H].
        intros R [= <-]. split; [exact Hin|].
        destruct (decide (t = HOLE)) as [->|]; [|discriminate].
        apply bind_Done in B3 as (L' & B5 & B3).
        apply rd_size_Done in B5 as (nY' & HY'' & HL').
        assert (nY' = nY) as -> by congruence.
        assert (L' = L) as -> by congruence.
        destruct (L >=? s) eqn:E; [|discriminate].
        exists n, y, nY, L. repeat split; try assumption.
        apply Z.geb_le in E. exact E.
      * eapply IH; [exact Hy | exact Hbest | exact H].
    + assert (r = best) as -> by congruence. exact Hbest.
Qed.

Lemma worst_fit_loop_sound fuel st hp l sp runner s worst max r :
  Struct st hp l sp -> runner ∈ hp :: l.*1 ->
  (forall R, worst = Some R -> R ∈ hp :: l.*1 /\ fits st R s) ->
  worst_fit_loop fuel st runner s worst max = Done r ->
  forall R, r = Some R -> R ∈ hp :: l.*1 /\ fits st R s.
Proof.
  intros HS. revert runner worst max.
  induction fuel as [|fuel IH]; intros runner worst max Hin Hbest H.
  - discriminate.
  - cbn [worst_fit_loop] in H. apply bind_Done in H as (o & B1 & H).
    apply rd_next_Done in B1 as (n & Hn & <-).
    destruct (next n) as [y|] eqn:Ey.
    + assert (Hy : y ∈ hp :: l.*1) by (eapply Struct_live_closed; eauto).
      apply bind_Done in H as (t & B2 & H).
      apply rd_type_Done in B2 as (nY & HY & Ht).
      apply bind_Done in H as (hit & B3 & H).
      destruct hit.
      * apply bind_Done in H as (L & B4 & H).
        apply rd_size_Done in B4 as (nY' & HY' & HL).
        assert (nY' = nY) as -> by congruence.
        eapply IH; [exact Hy | | exact H].
        intros R [= <-]. split; [exact Hin|].
        destruct (decide (t = HOLE)) as [->|]; [|discriminate].
        apply bind_Done in B3 as (L' & B5 & B3).
        apply rd_size_Done in B5 as (nY' & HY'' & HL').
        assert (nY' = nY) as -> by congruence.
        assert (L' = L) as -> by congruence.
        destruct (L >=? s) eqn:E; [|discriminate].
        exists n, y, nY, L. repeat split; try assumption.
        apply Z.geb_le in E. exact E.
      * eapply IH; [exact Hy | exact Hbest | exact H].
    + assert (r = worst) as -> by congruence. exact Hbest.
Qed.

(** A node of the list that has a successor splits the list there. *)
Lemma live_split h p l R nR y :
  path h p l None -> R ∈ p :: l.*1 -> h !! R = Some nR -> next nR = Some y ->
  exists l1 b l2, l = l1 ++ (y, b) :: l2 /\ R = endp p l1.
Proof.
  revert p. induction l as [|[q b] l IH]; intros p Hpath HR Hn Hy.
  - cbn [path] in Hpath. apply nxt_Some in Hpath as (n' & Hn' & He).
    apply list_elem_of_singleton in HR as ->. congruence.
  - cbn [path fst snd] in Hpath. destruct Hpath as (H1 & H2 & H3).
    destruct (decide (R = p)) as [->|Hne].
    + apply nxt_Some in H1 as (n' & Hn' & He).
      assert (q = y) as -> by congruence.
      exists [], b, l. split; reflexivity.
    + rewrite fmap_cons in HR. cbn [fst] in HR.
      apply elem_of_cons in HR as [?|HR]; [contradiction|].
      destruct (IH _ H3 HR Hn Hy) as (l1 & b' & l2 & -> & ->).
      exists ((q, b) :: l1), b', l2. split; [reflexivity|].
      rewrite endp_cons. reflexivity.
Qed.

(** ** Block lists: tiling *)

Lemma tiles_app a l1 l2 c :
  tiles a (l1 ++ l2) c <-> exists b, tiles a l1 b /\ tiles b l2 c.
Proof.
  revert a. induction l1 as [|x l1 IH]; intros a; cbn [app tiles].
  - split.
    + intros H. exists a. split; [reflexivity|exact H].
    + intros (b & -> & H). exact H.
  - rewrite IH. split.
    + intros (H1 & H2 & b & H3 & H4). exists b. tauto.
    + intros (b & (H1 & H2 & H3) & H4). split; [exact H1|]. split; [exact H2|].
      exists b. tauto.
Qed.

Lemma tiles_le a l c : tiles a l c -> a <= c.
Proof.
  revert a. induction l as [|x l IH]; intros a; cbn [tiles].
  - lia.
  - intros (_ & H & H'). apply IH in H'. lia.
Qed.

(** Where a block of a tiling lies. *)
Lemma tiles_mid a l1 x l2 c :
  tiles a (l1 ++ x :: l2) c ->
  tiles a l1 (offset x) /\ 0 <= len x /\ tiles (offset x + len x) l2 c /\
  a <= offset x /\ offset x + len x <= c.
Proof.
  intros H. apply tiles_app in H as (b & H1 & H2).
  cbn [tiles] in H2. destruct H2 as (Hb & Hx & H2). subst b.
  pose proof (tiles_le _ _ _ H1). pose proof (tiles_le _ _ _ H2). tauto.
Qed.

Lemma tiles_mid_inv a l1 x l2 c :
  tiles a l1 (offset x) -> 0 <= len x -> tiles (offset x + len x) l2 c ->
  tiles a (l1 ++ x :: l2) c.
Proof.
  intros H1 Hx H2. apply tiles_app. exists (offset x). split; [exact H1|].
  cbn [tiles]. tauto.
Qed.

(** ** Block lists: adjacent holes *)

Lemma naf_cons x l :
  no_adjacent_free (x :: l) <->
  ~ (kind x = HOLE /\ hole_head l) /\ no_adjacent_free l.
Proof.
  cbn [no_adjacent_free]. destruct l as [|z l].
  - split; [|tauto]. intros (_ & H). split; [|exact H].
    intros (_ & z & Hz & _). discriminate.
  - split.
    + intros (H1 & H2). split; [|exact H2]. intros (Hx & z' & [= <-] & Hz). tauto.
    + intros (H1 & H2). split; [|exact H2]. intros (Hx & Hz). apply H1.
      split; [exact Hx|]. exists z. split; [reflexivity|exact Hz].
Qed.

Lemma hole_last_cons x l : hole_last (x :: l) <-> (l = [] /\ kind x = HOLE) \/ hole_last l.
Proof.
  unfold hole_last. destruct l as [|z l].
  - cbn. split.
    + intros (r & [= <-] & H). left. tauto.
    + intros [(_ & H)|(r & [=] & _)]. exists x. tauto.
  - rewrite last_cons_cons. split.
    + intros H. right. exact H.
    + intros [([=] & _)|H]. exact H.
Qed.

Lemma hole_head_cons x l : hole_head (x :: l) <-> kind x = HOLE.
Proof.
  unfold hole_head. cbn. split.
  - intros (r & [= <-] & H). exact H.
  - intros H. exists x. tauto.
Qed.

Lemma hole_head_nil : ~ hole_head [].
Proof. intros (z & [=] & _). Qed.

Lemma hole_last_nil : ~ hole_last [].
Proof. intros (z & [=] & _). Qed.

Lemma naf_app l1 l2 :
  no_adjacent_free (l1 ++ l2) <->
  no_adjacent_free l1 /\ no_adjacent_free l2 /\ ~ (hole_last l1 /\ hole_head l2).
Proof.
  pose proof hole_head_nil as Hhn. pose proof hole_last_nil as Hln.
  induction l1 as [|x l1 IH].
  - cbn [app no_adjacent_free]. tauto.
  - cbn [app]. rewrite !naf_cons, IH, hole_last_cons.
    destruct l1 as [|z l1].
    + cbn [app no_adjacent_free]. intuition congruence.
    + cbn [app]. rewrite !hole_head_cons.
      assert (z :: l1 <> []) by discriminate. tauto.
Qed.

Lemma hole_last_snoc l x : hole_last (l ++ [x]) <-> kind x = HOLE.
Proof.
  unfold hole_last. rewrite last_snoc. split.
  - intros (r & [= <-] & H). exact H.
  - intros H. exists x. tauto.
Qed.

(** ** The split keeps the list well formed *)

Lemma Forall_tail_mid (P : Block -> Prop) l1 x l2 :
  Forall P (tail (l1 ++ x :: l2)) <->
  Forall P (tail l1) /\ (l1 <> [] -> P x) /\ Forall P l2.
Proof.
  destruct l1 as [|a l1]; cbn [app tail].
  - split.
    + intros H. split; [constructor|]. split; [congruence|exact H].
    + tauto.
  - rewrite Forall_app, Forall_cons. split.
    + intros (H1 & H2 & H3). tauto.
    + intros (H1 & H2 & H3). split; [exact H1|]. split; [|exact H3].
      apply H2. discriminate.
Qed.

Lemma split_good cap l1 y l2 s :
  good cap (l1 ++ y :: l2) -> kind y = HOLE -> 0 <= s <= len y -> s mod 4 = 0 ->
  ((wadd (offset y) s >=? cap) = true -> l2 = []) /\
  ((wadd (offset y) s >=? cap) || (wsub (len y) s <=? 0)) = (len y - s =? 0) /\
  split_blocks cap l1 y l2 s = split_spec l1 y l2 s /\
  good cap (split_spec l1 y l2 s).
Proof.
  intros [Hcap Hcap4 Hne Htiles Hint Hfree Hal] Hk Hs Hs4.
  pose proof (tiles_mid _ _ _ _ _ Htiles) as (Ht1 & Hy0 & Ht2 & Hlo & Hhi).
  apply Forall_tail_mid in Hint as (Hint1 & Hinty & Hint2).
  assert (Hadd : wadd (offset y) s = offset y + s) by (apply wadd_small; lia).
  assert (Hsub : wsub (len y) s = len y - s) by (apply wsub_small; lia).
  assert (Hend : (wadd (offset y) s >=? cap) = true -> l2 = []).
  { rewrite Hadd. intros E. apply Z.geb_le in E.
    destruct l2 as [|z l2]; [reflexivity|]. exfalso.
    apply Forall_cons in Hint2 as [Hz _].
    cbn [tiles] in Ht2. destruct Ht2 as (Hz1 & _). lia. }
  assert (Hbool : ((wadd (offset y) s >=? cap) || (wsub (len y) s <=? 0))
                  = (len y - s =? 0)).
  { rewrite Hadd, Hsub.
    destruct (offset y + s >=? cap) eqn:E1; cbn [orb].
    - apply Z.geb_le in E1. symmetry. apply Z.eqb_eq. lia.
    - destruct (len y - s <=? 0) eqn:E2.
      + apply Z.leb_le in E2. symmetry. apply Z.eqb_eq. lia.
      + apply Z.leb_gt in E2. symmetry. apply Z.eqb_neq. lia. }
  split; [exact Hend|]. split; [exact Hbool|].
  apply Forall_app in Hal as (Hal1 & Hal2).
  apply Forall_cons in Hal2 as ((Hya & Hyl) & Hal2).
  apply naf_app in Hfree as (Hf1 & Hf2 & Hf3).
  apply naf_cons in Hf2 as (Hf2 & Hf4).
  rewrite hole_head_cons in Hf3.
  split.
  - unfold split_blocks, split_spec. rewrite Hadd, Hsub.
    destruct (offset y + s >=? cap) eqn:E1.
    + rewrite Hend by (rewrite Hadd; exact E1).
      apply Z.geb_le in E1.
      assert (E : (len y - s =? 0) = true) by (apply Z.eqb_eq; lia).
      rewrite E. reflexivity.
    + destruct (len y - s <=? 0) eqn:E2.
      * apply Z.leb_le in E2.
        assert (E : (len y - s =? 0) = true) by (apply Z.eqb_eq; lia).
        rewrite E. reflexivity.
      * apply Z.leb_gt in E2.
        assert (E : (len y - s =? 0) = false) by (apply Z.eqb_neq; lia).
        rewrite E, Hk. reflexivity.
  - unfold split_spec. destruct (len y - s =? 0) eqn:E.
    + apply Z.eqb_eq in E. constructor.
      * exact Hcap.
      * exact Hcap4.
      * destruct l1; discriminate.
      * apply (tiles_mid_inv _ _ (mkBlock PROCESS (offset y) s)); cbn; try tauto; try lia.
        replace (offset y + s) with (offset y + len y) by lia. exact Ht2.
      * apply Forall_tail_mid. cbn. tauto.
      * apply naf_app. split; [exact Hf1|]. split.
        -- apply naf_cons. split; [cbn [kind]; intros ([=] & _)|exact Hf4].
        -- rewrite hole_head_cons. cbn [kind]. intros (_ & [=]).
      * apply Forall_app. split; [exact Hal1|]. constructor; [|exact Hal2].
        split; cbn; assumption.
    + apply Z.eqb_neq in E. constructor.
      * exact Hcap.
      * exact Hcap4.
      * destruct l1; discriminate.
      * apply (tiles_mid_inv _ _ (mkBlock PROCESS (offset y) s)); cbn; try tauto; try lia.
        split; [reflexivity|]. split; [lia|].
        replace (offset y + s + (len y - s)) with (offset y + len y) by lia.
        exact Ht2.
      * apply Forall_tail_mid. cbn. split; [exact Hint1|]. split; [exact Hinty|].
        constructor; [cbn; lia|exact Hint2].
      * apply naf_app. split; [exact Hf1|]. split.
        -- apply naf_cons. split; [cbn [kind]; intros ([=] & _)|].
           apply naf_cons. cbn [kind]. split; [|exact Hf4]. tauto.
        -- rewrite hole_head_cons. cbn [kind]. intros (_ & [=]).
      * apply Forall_app. split; [exact Hal1|]. constructor; [split; cbn; assumption|].
        constructor; [|exact Hal2]. split; cbn.
        -- rewrite Z.add_mod, Hya, Hs4 by lia. reflexivity.
        -- rewrite Zminus_mod, Hyl, Hs4 by lia. reflexivity.
Qed.

(** ** The release keeps the list well formed *)

Lemma good_tiled cap l : good cap l <-> tiled cap l /\ no_adjacent_free l.
Proof.
  split.
  - intros [H1 H2 H3 H4 H5 H6 H7]. unfold tiled. tauto.
  - intros ((H1 & H2 & H3 & H4 & H5 & H7) & H6). constructor; assumption.
Qed.

Lemma tiled_retype cap l1 x l2 k :
  tiled cap (l1 ++ x :: l2) ->
  tiled cap (l1 ++ mkBlock k (offset x) (len x) :: l2).
Proof.
  intros (H1 & H2 & H3 & H4 & H5 & H6). unfold tiled.
  split; [exact H1|]. split; [exact H2|]. split; [destruct l1; discriminate|].
  pose proof (tiles_mid _ _ _ _ _ H4) as (Ht1 & Hx0 & Ht2 & _).
  apply Forall_tail_mid in H5 as (H5a & H5b & H5c).
  apply Forall_app in H6 as (H6a & H6b). apply Forall_cons in H6b as (H6b & H6c).
  split; [|split].
  - apply (tiles_mid_inv _ _ (mkBlock k (offset x) (len x))); cbn; assumption.
  - apply Forall_tail_mid. cbn. tauto.
  - apply Forall_app. split; [exact H6a|]. constructor; [exact H6b|exact H6c].
Qed.

Lemma tiled_merge cap l1 r x l2 :
  tiled cap (l1 ++ r :: x :: l2) ->
  tiled cap (l1 ++ grow r (len x) :: l2) /\
  wadd (len r) (len x) = len r + len x.
Proof.
  intros (H1 & H2 & H3 & H4 & H5 & H6). unfold tiled.
  pose proof (tiles_mid _ _ _ _ _ H4) as (Ht1 & Hr0 & Ht2 & Hlo & Hhi).
  cbn [tiles] in Ht2. destruct Ht2 as (Hxo & Hx0 & Ht2).
  pose proof (tiles_le _ _ _ Ht2) as Hle.
  assert (Hadd : wadd (len r) (len x) = len r + len x) by (apply wadd_small; lia).
  apply Forall_tail_mid in H5 as (H5a & H5b & H5c).
  apply Forall_cons in H5c as (_ & H5c).
  apply Forall_app in H6 as (H6a & H6b).
  apply Forall_cons in H6b as ((Hra & Hrl) & H6b).
  apply Forall_cons in H6b as ((Hxa & Hxl) & H6c).
  split; [|exact Hadd].
  split; [exact H1|]. split; [exact H2|]. split; [destruct l1; discriminate|].
  split; [|split].
  - apply (tiles_mid_inv _ _ (grow r (len x))); cbn [grow offset len].
    + exact Ht1.
    + lia.
    + rewrite Hadd. replace (offset r + (len r + len x)) with (offset r + len r + len x) by lia.
      exact Ht2.
  - apply Forall_tail_mid. cbn [grow offset]. tauto.
  - apply Forall_app. split; [exact H6a|]. constructor; [|exact H6c].
    split; cbn [grow offset len]; [exact Hra|]. apply wadd_aligned; assumption.
Qed.

Lemma merge_next_good cap pre w l2 :
  tiled cap (pre ++ w :: l2) ->
  no_adjacent_free pre -> no_adjacent_free l2 ->
  kind w = HOLE -> ~ hole_last pre ->
  good cap (pre ++ merge_next w l2).
Proof.
  intros Ht Hf1 Hf2 Hk Hl. apply good_tiled.
  destruct l2 as [|z l2]; cbn [merge_next].
  - split; [exact Ht|]. apply naf_app. split; [exact Hf1|]. split.
    + cbn. tauto.
    + tauto.
  - apply naf_cons in Hf2 as (Hf2 & Hf3).
    destruct (decide (kind z = HOLE)) as [Hz|Hz].
    + split; [apply tiled_merge; exact Ht|].
      apply naf_app. split; [exact Hf1|]. split; [|tauto].
      apply naf_cons. split; [tauto|exact Hf3].
    + split; [exact Ht|]. apply naf_app. split; [exact Hf1|]. split; [|tauto].
      apply naf_cons. rewrite hole_head_cons. split; [tauto|].
      apply naf_cons. tauto.
Qed.

Lemma coalesce_good cap l1 x l2 :
  good cap (l1 ++ x :: l2) -> good cap (coalesce l1 x l2).
Proof.
  intros Hg. apply good_tiled in Hg as (Ht & Hf).
  apply naf_app in Hf as (Hf1 & Hf2 & Hf3).
  apply naf_cons in Hf2 as (_ & Hf2).
  unfold coalesce.
  destruct l1 as [|r l1 _] using rev_ind.
  - cbn [last]. apply merge_next_good; try assumption.
    + apply (tiled_retype _ [] _ _ HOLE) in Ht. exact Ht.
    + reflexivity.
    + apply hole_last_nil.
  - rewrite last_snoc.
    destruct (decide (kind r = HOLE)) as [Hr|Hr].
    + rewrite removelast_last.
      apply naf_app in Hf1 as (Hf1 & _ & Hf4). rewrite hole_head_cons in Hf4.
      rewrite <- app_assoc in Ht. cbn [app] in Ht.
      apply merge_next_good; try assumption.
      * apply tiled_merge. exact Ht.
      * tauto.
    + apply merge_next_good; try assumption.
      * apply (tiled_retype _ _ _ _ HOLE) in Ht. exact Ht.
      * reflexivity.
      * rewrite hole_last_snoc. exact Hr.
Qed.

Lemma first_at_blocks (l : list Block) ptr :
  Forall (fun b => offset b ≠ ptr) l \/
  exists la x lb, l = la ++ x :: lb /\
    Forall (fun b => offset b ≠ ptr) la /\ offset x = ptr.
Proof.
  induction l as [|b l IH].
  - left. constructor.
  - destruct (decide (offset b = ptr)) as [Hb|Hb].
    + right. exists [], b, l. split; [reflexivity|]. split; [constructor|exact Hb].
    + destruct IH as [IH|(la & x & lb & -> & Hla & Hx)].
      * left. constructor; assumption.
      * right. exists (b :: la), x, lb.
        split; [reflexivity|]. split; [constructor; assumption|exact Hx].
Qed.

Lemma free_blocks_cases l ptr :
  (Forall (fun b => offset b ≠ ptr) l /\ free_blocks l ptr = l) \/
  exists la x lb, l = la ++ x :: lb /\
    Forall (fun b => offset b ≠ ptr) la /\ offset x = ptr /\
    free_blocks l ptr = coalesce la x lb.
Proof.
  destruct (first_at_blocks l ptr) as [H|(la & x & lb & -> & Hla & Hx)].
  - left. split; [exact H|]. unfold free_blocks.
    rewrite free_search_none by exact H. reflexivity.
  - right. exists la, x, lb. split; [reflexivity|]. split; [exact Hla|].
    split; [exact Hx|]. unfold free_blocks.
    rewrite free_search_found by assumption. reflexivity.
Qed.

Lemma free_blocks_good cap l ptr : good cap l -> good cap (free_blocks l ptr).
Proof.
  intros Hg. destruct (free_blocks_cases l ptr) as [(_ & ->)|(la & x & lb & -> & _ & _ & ->)].
  - exact Hg.
  - apply coalesce_good. exact Hg.
Qed.

(** ** Initialisation *)

Ltac proj :=
  cbn [node_stack stack_head head_pointer previous_node memory_arena
       memory_arena_size heap_algo with_nodes with_stack_head
       with_previous_node with_head_pointer].

Lemma node_stack_init_lookup n st i :
  (i < n)%nat ->
  node_stack (node_stack_init n st) !! i =
  Some (mkNode None None None (if decide (S i < n)%nat then Some (S i) else None)).
Proof.
  intros Hi. unfold node_stack_init. cbn [node_stack with_stack_head with_nodes].
  change (map ?f ?l) with (f <$> l).
  rewrite list_lookup_fmap, lookup_seq_lt by exact Hi. reflexivity.
Qed.

Lemma node_stack_init_seg n st k i :
  (i + k = n)%nat ->
  seg (node_stack (node_stack_init n st))
      (if decide (i < n)%nat then Some i else None) (seq i k) None.
Proof.
  revert i. induction k as [|k IH]; intros i Hik; cbn [seq seg].
  - destruct (decide (i < n)%nat); [lia|reflexivity].
  - destruct (decide (i < n)%nat); [|lia]. split; [reflexivity|].
    eexists. split; [apply node_stack_init_lookup; lia|]. cbn [next].
    apply IH. lia.
Qed.

Lemma node_stack_init_ok n st : Forall node_ok (node_stack (node_stack_init n st)).
Proof.
  unfold node_stack_init. cbn [node_stack with_stack_head with_nodes].
  apply Forall_forall. intros x Hx. apply list_elem_of_In in Hx.
  apply in_map_iff in Hx as (i & <- & _). split; cbn; discriminate.
Qed.

Lemma node_stack_init_length n st : length (node_stack (node_stack_init n st)) = n.
Proof.
  unfold node_stack_init. cbn [node_stack with_stack_head with_nodes].
  rewrite length_map, length_seq. reflexivity.
Qed.

Lemma mavalloc_init_Struct size0 algorithm malloc_ok st0 st :
  mavalloc_init size0 algorithm malloc_ok st0 = Done (st, 0) ->
  Struct st 0%nat [(1%nat, mkBlock HOLE 0 (ALIGN4 size0))] (seq 2 198) /\
  memory_arena_size st = ALIGN4 size0 /\ heap_algo st = algorithm /\
  previous_node st = Some 0%nat /\ memory_arena st = true.
Proof.
  unfold mavalloc_init.
  destruct (size0 <? 0); [intros [=]|].
  destruct malloc_ok; cbn [negb]; [|intros [=]].
  generalize (ALIGN4_aligned size0). generalize (ALIGN4 size0). intros cap Hcap4.
  cbn [memory_arena memory_arena_size heap_algo head_pointer previous_node
       node_stack stack_head].
  set (st1 := node_stack_init NODE_AMOUNT _).
  assert (H0 : node_stack st1 !! 0%nat
               = Some (mkNode None None None (Some 1%nat)))
    by (apply (node_stack_init_lookup NODE_AMOUNT); unfold NODE_AMOUNT; lia).
  assert (H1 : node_stack st1 !! 1%nat
               = Some (mkNode None None None (Some 2%nat)))
    by (apply (node_stack_init_lookup NODE_AMOUNT); unfold NODE_AMOUNT; lia).
  assert (Hseg : seg (node_stack st1) (Some 2%nat) (seq 2 198) None)
    by (apply (node_stack_init_seg NODE_AMOUNT _ 198 2); reflexivity).
  assert (Hok : Forall node_ok (node_stack st1)) by apply node_stack_init_ok.
  assert (Hlen : length (node_stack st1) = NODE_AMOUNT) by apply node_stack_init_length.
  assert (Hsh : stack_head st1 = Some 0%nat) by reflexivity.
  assert (Hma : memory_arena st1 = true) by reflexivity.
  assert (Hms : memory_arena_size st1 = cap) by reflexivity.
  clearbody st1.
  erewrite new_node_run; [|cbn; exact Hsh|cbn; exact H0].
  run. cbn [next].
  erewrite new_node_run; [|cbn; reflexivity|cbn; lookups; exact H1].
  run. unfold wr_next. run. cbn [next].
  intros [= <-].
  proj. split; [|repeat split; assumption].
  constructor; proj.
  - reflexivity.
  - eexists. split; [lookups; reflexivity|]. reflexivity.
  - cbn [path fst snd]. split; [|split].
    + apply nxt_Some. eexists. split; [lookups; reflexivity|]. reflexivity.
    + apply dat_Some. eexists. split; [lookups; reflexivity|]. reflexivity.
    + apply nxt_Some. eexists. split; [lookups; reflexivity|]. reflexivity.
  - eapply seg_ext; [|exact Hseg]. intros q Hq.
    apply elem_of_seq in Hq. unfold nxt.
    rewrite !list_lookup_insert_ne by lia. reflexivity.
  - apply (NoDup_seq 0 200).
  - exists 0%nat. split; [reflexivity|]. left.
  - repeat apply ok_insert; try assumption; split; cbn; intros ? [= <-];
      try reflexivity; assumption.
Qed.

(** ** One allocation *)

Lemma Struct_with_prev st hp l sp R :
  Struct st hp l sp -> R ∈ (hp :: l.*1) ++ sp ->
  Struct (with_previous_node st (Some R)) hp l sp.
Proof.
  intros [H1 H2 H3 H4 H5 _ H7] HR. constructor; proj; try assumption.
  exists R. split; [reflexivity|exact HR].
Qed.

Lemma fits_with_prev st R s p : fits st R s -> fits (with_previous_node st p) R s.
Proof. intros H. exact H. Qed.

(** [allocate_node] at a node of the list that is followed by a large enough
    hole. *)
Lemma allocate_node_live st hp l sp R s st' r :
  Struct st hp l sp -> good (memory_arena_size st) l.*2 ->
  R ∈ hp :: l.*1 -> fits st R s -> 0 <= s -> s mod 4 = 0 ->
  allocate_node st (Some R) s = Done (st', r) ->
  same_arena st st' /\ previous_node st' = previous_node st /\
  match r with
  | None => st' = st
  | Some a =>
      a mod 4 = 0 /\
      exists l' sp', Struct st' hp l' sp' /\
                     good (memory_arena_size st) l'.*2 /\
                     carved l.*2 s a l'.*2
  end.
Proof.
  intros HS Hg HR (nR & y & nY & L & HnR & Hy & HnY & HtY & HsY & HsL) Hs0 Hs4 Hrun.
  destruct (live_split _ _ _ _ _ _ (s_path _ _ _ _ HS) HR HnR Hy)
    as (l1 & by0 & l2 & -> & ->).
  pose proof (s_path _ _ _ _ HS) as Hpath.
  apply path_app_cons in Hpath as (_ & Hdy & _).
  apply dat_Some in Hdy as (nY' & HnY' & HbY).
  assert (nY' = nY) as -> by congruence. clear HnY'.
  apply block_of_Some in HbY as (HtY' & HaY & HsY').
  assert (Hk : kind by0 = HOLE) by congruence.
  assert (HL : len by0 = L) by congruence. subst L.
  rewrite fmap_app, fmap_cons in Hg. cbn [snd] in Hg.
  destruct (split_good _ _ _ _ _ Hg Hk (conj Hs0 HsL) Hs4)
    as (Hend & Hbool & Hsplit & Hg').
  assert (Hend' : (wadd (offset by0) s >=? memory_arena_size st) = true -> l2 = []).
  { intros E. apply Hend in E. apply fmap_nil_inv in E. exact E. }
  pose proof (allocate_node_list _ _ _ _ _ _ _ _ HS Hs4 Hend') as Hlist.
  destruct sp as [|t sp0].
  - rewrite Hlist in Hrun. injection Hrun as <- <-.
    split; [apply same_arena_refl|]. split; reflexivity.
  - destruct Hlist as (st1 & Hrun1 & Hsame & Hprev & HS1).
    rewrite Hrun1 in Hrun. injection Hrun as <- <-.
    split; [exact Hsame|]. split; [exact Hprev|]. split.
    { pose proof (good_aligned _ _ Hg) as Hal. apply Forall_app in Hal as (_ & Hal).
      apply Forall_cons in Hal as ((Ha & _) & _). exact Ha. }
    rewrite Hbool in HS1.
    assert (Hadd : wadd (offset by0) s = offset by0 + s).
    { apply wadd_small. pose proof (good_cap _ _ Hg).
      pose proof (tiles_mid _ _ _ _ _ (good_tiles _ _ Hg)). lia. }
    assert (Hsub : wsub (len by0) s = len by0 - s).
    { apply wsub_small. pose proof (good_cap _ _ Hg).
      pose proof (tiles_mid _ _ _ _ _ (good_tiles _ _ Hg)). lia. }
    destruct (len by0 - s =? 0) eqn:E.
    + eexists _, _. split; [exact HS1|].
      assert (Heq : (l1 ++ (t, mkBlock PROCESS (offset by0) s) :: l2).*2
                    = split_spec l1.*2 by0 l2.*2 s).
      { unfold split_spec. rewrite E, fmap_app, fmap_cons. reflexivity. }
      rewrite Heq. split; [exact Hg'|].
      exists l1.*2, by0, l2.*2. repeat split; try assumption.
      rewrite fmap_app, fmap_cons. reflexivity.
    + eexists _, _. split; [exact HS1|].
      assert (Heq : (l1 ++ (t, mkBlock PROCESS (offset by0) s)
                        :: (y, mkBlock (kind by0) (wadd (offset by0) s)
                                       (wsub (len by0) s)) :: l2).*2
                    = split_spec l1.*2 by0 l2.*2 s).
      { unfold split_spec. rewrite E, fmap_app, !fmap_cons. cbn [snd].
        rewrite Hadd, Hsub, Hk. reflexivity. }
      rewrite Heq. split; [exact Hg'|].
      exists l1.*2, by0, l2.*2. repeat split; try assumption.
      rewrite fmap_app, fmap_cons. reflexivity.
Qed.

Lemma ALIGN4_nonneg s : 0 <= ALIGN4 s.
Proof. apply ALIGN4_range. Qed.

Lemma mavalloc_alloc_Inv fuel st size0 st' r :
  Inv st -> mavalloc_alloc fuel st size0 = Done (st', r) ->
  Inv st' /\ same_arena st st' /\
  match r with
  | None =>
      blocks st' = blocks st /\ (heap_algo st <> NEXT_FIT -> st' = st)
  | Some a =>
      a mod 4 = 0 /\
      (carved (blocks st) (ALIGN4 size0) a (blocks st') \/
       (heap_algo st = NEXT_FIT /\ blocks st' = blocks st))
  end.
Proof.
  intros (hp & l & sp & HS & Hg) Hrun.
  pose proof (ALIGN4_nonneg size0) as Hs0.
  pose proof (ALIGN4_aligned size0) as Hs4.
  assert (Hnone : Inv st /\ same_arena st st /\ blocks st = blocks st /\
                  (heap_algo st <> NEXT_FIT -> st = st)).
  { split; [exists hp, l, sp; tauto|]. split; [apply same_arena_refl|]. tauto. }
  assert (Hlive : forall R st1,
    st1 = st \/ st1 = with_previous_node st (Some R) /\ heap_algo st = NEXT_FIT ->
    R ∈ hp :: l.*1 -> fits st R (ALIGN4 size0) ->
    allocate_node st1 (Some R) (ALIGN4 size0) = Done (st', r) ->
    Inv st' /\ same_arena st st' /\
    match r with
    | None =>
        blocks st' = blocks st /\ (heap_algo st <> NEXT_FIT -> st' = st)
    | Some a =>
        a mod 4 = 0 /\
        (carved (blocks st) (ALIGN4 size0) a (blocks st') \/
         (heap_algo st = NEXT_FIT /\ blocks st' = blocks st))
    end).
  { intros R st1 Hst1 HR Hfits Halloc.
    assert (HS1 : Struct st1 hp l sp).
    { destruct Hst1 as [->|[-> _]]; [exact HS|].
      apply Struct_with_prev; [exact HS|]. apply elem_of_app. left. exact HR. }
    assert (Hsame1 : same_arena st st1).
    { destruct Hst1 as [->|[-> _]]; repeat split. }
    assert (Hg1 : good (memory_arena_size st1) l.*2).
    { destruct Hsame1 as (_ & -> & _). exact Hg. }
    assert (Hfits1 : fits st1 R (ALIGN4 size0)).
    { destruct Hst1 as [->|[-> _]]; exact Hfits. }
    destruct (allocate_node_live _ _ _ _ _ _ _ _ HS1 Hg1 HR Hfits1 Hs0 Hs4 Halloc)
      as (Hsame & Hprev & Hres).
    assert (Hsame' : same_arena st st') by (eapply same_arena_trans; eauto).
    destruct r as [a|].
    - destruct Hres as (Ha & l' & sp' & HS' & Hg' & Hc).
      split.
      { exists hp, l', sp'. split; [exact HS'|].
        destruct Hsame as (_ & -> & _). exact Hg'. }
      split; [exact Hsame'|]. split; [exact Ha|]. left.
      rewrite (Struct_blocks _ _ _ _ HS), (Struct_blocks _ _ _ _ HS'). exact Hc.
    - subst st'. split.
      { exists hp, l, sp. split; [exact HS1|]. exact Hg1. }
      split; [exact Hsame1|]. split.
      + rewrite (Struct_blocks _ _ _ _ HS), (Struct_blocks _ _ _ _ HS1). reflexivity.
      + intros Hnf. destruct Hst1 as [->|[_ ?]]; [reflexivity|contradiction]. }
  unfold mavalloc_alloc in Hrun.
  assert (Hhp : hp ∈ hp :: l.*1) by left.
  destruct (heap_algo st) eqn:Ealgo.
  - (* first fit *)
    unfold alloc_first_fit in Hrun. rewrite (s_head _ _ _ _ HS) in Hrun.
    apply bind_Done in Hrun as (o & Hloop & Hrun).
    destruct o as [R|].
    + destruct (first_fit_loop_sound _ _ _ _ _ _ _ _ HS Hhp Hloop) as (HR & Hfits).
      eapply Hlive; eauto.
    + injection Hrun as <- <-. exact Hnone.
  - (* next fit *)
    unfold alloc_next_fit in Hrun. rewrite (s_head _ _ _ _ HS) in Hrun.
    apply bind_Done in Hrun as (start & Hstart & Hrun).
    apply defined_Done in Hstart.
    apply bind_Done in Hrun as (o & Hloop & Hrun).
    destruct o as [R|].
    + destruct (s_prev _ _ _ _ HS) as (c & Hc & Hcin).
      assert (c = start) as -> by congruence.
      destruct (next_fit_loop_sound _ _ _ _ _ _ _ _ HS Hcin Hloop) as (HR & Hfits).
      apply elem_of_app in HR as [HR|HR].
      * eapply Hlive; [right; split; reflexivity|exact HR|exact Hfits|exact Hrun].
      * assert (HS1 : Struct (with_previous_node st (Some R)) hp l sp).
        { apply Struct_with_prev; [exact HS|]. apply elem_of_app. right. exact HR. }
        destruct (allocate_node_spare _ _ _ _ _ _ _ _ HS1 HR eq_refl Hs4 Hrun)
          as (sp' & HS' & Hsame & Hprev & Ha).
        assert (Hblocks : blocks st' = blocks st).
        { rewrite (Struct_blocks _ _ _ _ HS), (Struct_blocks _ _ _ _ HS'). reflexivity. }
        split.
        { exists hp, l, sp'. split; [exact HS'|].
          destruct Hsame as (_ & -> & _). exact Hg. }
        split; [exact Hsame|].
        destruct r as [a|].
        -- split; [apply Ha; reflexivity|]. right. split; [reflexivity|exact Hblocks].
        -- split; [exact Hblocks|]. intros Hnf. contradiction.
    + injection Hrun as <- <-.
      split; [exists hp, l, sp; tauto|]. split; [apply same_arena_refl|].
      split; [reflexivity|]. intros Hnf. contradiction.
  - (* best fit *)
    unfold alloc_best_fit in Hrun. rewrite (s_head _ _ _ _ HS) in Hrun.
    apply bind_Done in Hrun as (o & Hloop & Hrun).
    destruct o as [R|].
    + destruct (best_fit_loop_sound _ _ _ _ _ _ _ None _ _ HS Hhp
                  ltac:(intros ? HN; discriminate HN) Hloop R eq_refl) as (HR & Hfits).
      eapply Hlive; eauto.
    + cbn [allocate_node] in Hrun. injection Hrun as <- <-. exact Hnone.
  - (* worst fit *)
    unfold alloc_worst_fit in Hrun. rewrite (s_head _ _ _ _ HS) in Hrun.
    apply bind_Done in Hrun as (o & Hloop & Hrun).
    destruct o as [R|].
    + destruct (worst_fit_loop_sound _ _ _ _ _ _ _ None _ _ HS Hhp
                  ltac:(intros ? HN; discriminate HN) Hloop R eq_refl) as (HR & Hfits).
      eapply Hlive; eauto.
    + cbn [allocate_node] in Hrun. injection Hrun as <- <-. exact Hnone.
Qed.

(** ** One release, and all reachable states *)

Lemma free_loop_mono fuel fuel' st r ptr x :
  free_loop fuel st r ptr = Done x -> (fuel <= fuel')%nat ->
  free_loop fuel' st r ptr = Done x.
Proof.
  revert fuel' r. induction fuel as [|fuel IH]; intros fuel' r H Hle.
  - discriminate.
  - destruct fuel' as [|fuel']; [lia|]. cbn [free_loop] in *.
    destruct (rd_next st r) as [o| |]; cbn [bind] in *; try discriminate.
    destruct (defined o) as [y| |]; cbn [bind] in *; try discriminate.
    destruct (rd_address st y) as [a| |]; cbn [bind] in *; try discriminate.
    destruct (decide (a ≠ ptr)); [|exact H].
    destruct (rd_next st y) as [o'| |]; cbn [bind] in *; try discriminate.
    destruct o' as [z|]; [|exact H]. apply IH; [exact H|lia].
Qed.

Lemma mavalloc_free_mono fuel fuel' st ptr st' :
  mavalloc_free fuel st ptr = Done st' -> (fuel <= fuel')%nat ->
  mavalloc_free fuel' st ptr = Done st'.
Proof.
  unfold mavalloc_free. intros H Hle.
  destruct (head_pointer st) as [hp|]; [|exact H].
  apply bind_Done in H as (r & Hr & H).
  rewrite (free_loop_mono _ _ _ _ _ _ Hr Hle). exact H.
Qed.

Lemma mavalloc_free_Inv fuel st ptr :
  Inv st -> (length (node_stack st) <= fuel)%nat ->
  exists st',
    mavalloc_free fuel st ptr = Done st' /\ Inv st' /\ same_arena st st' /\
    previous_node st' = previous_node st /\
    blocks st' = free_blocks (blocks st) ptr /\
    (blocks st' = blocks st -> st' = st).
Proof.
  intros (hp & l & sp & HS & Hg) Hfuel.
  assert (Hne : l <> []).
  { intros ->. apply (good_nonempty _ _ Hg). reflexivity. }
  pose proof (Struct_length _ _ _ _ HS) as Hlen.
  destruct (mavalloc_free_Struct _ _ _ _ ptr fuel HS Hne ltac:(lia))
    as (st' & l' & sp' & Hrun & HS' & Hl' & Hsame & Hprev & Hid).
  exists st'. split; [exact Hrun|].
  rewrite (Struct_blocks _ _ _ _ HS), (Struct_blocks _ _ _ _ HS').
  split; [|split; [exact Hsame|split; [exact Hprev|split; [exact Hl'|]]]].
  - exists hp, l', sp'. split; [exact HS'|]. rewrite Hl'.
    destruct Hsame as (_ & -> & _). apply free_blocks_good. exact Hg.
  - intros E. destruct Hid as [Hid|Hid]; [exact Hid|contradiction].
Qed.

Lemma mavalloc_free_Done fuel st ptr st' :
  Inv st -> mavalloc_free fuel st ptr = Done st' ->
  Inv st' /\ same_arena st st' /\ previous_node st' = previous_node st /\
  blocks st' = free_blocks (blocks st) ptr.
Proof.
  intros HI H.
  destruct (mavalloc_free_Inv (Nat.max fuel (length (node_stack st))) st ptr HI
              ltac:(lia)) as (st1 & Hrun & H1 & H2 & H3 & H4 & _).
  apply (mavalloc_free_mono _ (Nat.max fuel (length (node_stack st)))) in H; [|lia].
  assert (st1 = st') as -> by congruence. tauto.
Qed.

Lemma mavalloc_init_Inv size0 algorithm malloc_ok st0 st :
  mavalloc_init size0 algorithm malloc_ok st0 = Done (st, 0) ->
  Inv st /\ blocks st = [mkBlock HOLE 0 (ALIGN4 size0)] /\
  memory_arena_size st = ALIGN4 size0 /\ heap_algo st = algorithm.
Proof.
  intros H. apply mavalloc_init_Struct in H as (HS & Hcap & Halgo & _).
  split; [|split; [apply (Struct_blocks _ _ _ _ HS)|tauto]].
  eexists 0%nat, _, _. split; [exact HS|]. rewrite Hcap. cbn [fmap list_fmap snd].
  pose proof (ALIGN4_range size0). pose proof (ALIGN4_aligned size0).
  constructor.
  - assumption.
  - assumption.
  - discriminate.
  - cbn [tiles offset len]. repeat split; lia.
  - constructor.
  - cbn. tauto.
  - repeat constructor; cbn [offset len]; try assumption; reflexivity.
Qed.

Lemma reachable_Inv st : reachable st -> Inv st.
Proof.
  induction 1 as [size0 algo ok st0 st H|st fuel size0 st' r _ IH H
                  |st fuel ptr st' _ IH H].
  - apply mavalloc_init_Inv in H. tauto.
  - apply (mavalloc_alloc_Inv _ _ _ _ _ IH) in H. tauto.
  - apply (mavalloc_free_Done _ _ _ _ IH) in H. tauto.
Qed.

(** The capacity is the size given to [mavalloc_init], rounded. *)
Lemma reachable_capacity st :
  reachable st -> exists size0, memory_arena_size st = ALIGN4 size0.
Proof.
  induction 1 as [size0 algo ok st0 st H|st fuel size0 st' r Hr IH H
                  |st fuel ptr st' Hr IH H].
  - apply mavalloc_init_Inv in H. exists size0. tauto.
  - apply (mavalloc_alloc_Inv _ _ _ _ _ (reachable_Inv _ Hr)) in H.
    destruct H as (_ & (_ & -> & _) & _). exact IH.
  - apply (mavalloc_free_Done _ _ _ _ (reachable_Inv _ Hr)) in H.
    destruct H as (_ & (_ & -> & _) & _). exact IH.
Qed.

Lemma reachable_good st : reachable st -> good (memory_arena_size st) (blocks st).
Proof.
  intros H. apply reachable_Inv in H as (hp & l & sp & HS & Hg).
  rewrite (Struct_blocks _ _ _ _ HS). exact Hg.
Qed.

(** ** Consequences for block lists *)

Lemma tiles_ascending a l c : tiles a l c -> ascending (offset <$> l).
Proof.
  revert a. induction l as [|x l IH]; intros a; cbn [tiles fmap list_fmap ascending].
  - tauto.
  - intros (Hx & Hlen & H). split; [|eapply IH; exact H].
    destruct l as [|z l]; [exact I|]. cbn [tiles] in H. cbn. lia.
Qed.

Lemma tiles_strictly_ascending a l c :
  tiles a l c -> Forall positive l -> strictly_ascending (offset <$> l).
Proof.
  revert a. induction l as [|x l IH]; intros a;
    cbn [tiles fmap list_fmap strictly_ascending].
  - tauto.
  - intros (Hx & Hlen & H) Hpos. apply Forall_cons in Hpos as (Hp & Hpos).
    split; [|eapply IH; eassumption].
    destruct l as [|z l]; [exact I|]. cbn [tiles] in H. unfold positive in Hp.
    cbn. lia.
Qed.

(** In a tiling by blocks of positive length, the blocks before a block
    start before it. *)
Lemma tiles_before a l1 x l2 c :
  tiles a (l1 ++ x :: l2) c -> Forall positive l1 ->
  Forall (fun b => offset b < offset x) l1.
Proof.
  revert a. induction l1 as [|z l1 IH]; intros a H Hpos.
  - constructor.
  - apply Forall_cons in Hpos as (Hz & Hpos).
    cbn [app tiles] in H. destruct H as (Hzo & Hz0 & H).
    constructor; [|eapply IH; eassumption].
    pose proof (tiles_mid _ _ _ _ _ H) as (_ & _ & _ & Hlo & _).
    unfold positive in Hz. lia.
Qed.

Lemma kind_not_PROCESS k : k <> PROCESS -> k = HOLE.
Proof. destruct k; congruence. Qed.

Lemma block_eta x : mkBlock (kind x) (offset x) (len x) = x.
Proof. destruct x; reflexivity. Qed.

(** Releasing an address at which no ALLOCATED block starts changes
    nothing. *)
Lemma free_blocks_noop cap l ptr :
  good cap l ->
  (forall b, b ∈ l -> kind b = PROCESS -> offset b <> ptr) ->
  free_blocks l ptr = l.
Proof.
  intros Hg Hno.
  destruct (free_blocks_cases l ptr) as [(_ & ->)|(la & x & lb & -> & Hla & Hx & ->)];
    [reflexivity|].
  assert (Hk : kind x = HOLE).
  { apply kind_not_PROCESS. intros Hk. apply (Hno x); [|exact Hk|exact Hx].
    apply elem_of_app. right. left. }
  pose proof (good_free _ _ Hg) as Hf.
  apply naf_app in Hf as (_ & Hf2 & Hf3).
  apply naf_cons in Hf2 as (Hf2 & _).
  rewrite hole_head_cons in Hf3.
  assert (Hm : merge_next (mkBlock HOLE (offset x) (len x)) lb = x :: lb).
  { rewrite <- Hk, block_eta. destruct lb as [|z lb]; [reflexivity|].
    cbn [merge_next]. destruct (decide (kind z = HOLE)) as [Hz|Hz]; [|reflexivity].
    exfalso. apply Hf2. split; [exact Hk|]. apply hole_head_cons. exact Hz. }
  unfold coalesce. destruct (last la) as [r|] eqn:El.
  - destruct (decide (kind r = HOLE)) as [Hr|Hr].
    + exfalso. apply Hf3. split; [|exact Hk]. exists r. tauto.
    + rewrite Hm. reflexivity.
  - rewrite Hm. reflexivity.
Qed.

(** Allocation then release of the address obtained. *)
Lemma carved_roundtrip cap l s a l' :
  good cap l -> Forall positive l -> 0 <= s -> carved l s a l' ->
  free_blocks l' a = l.
Proof.
  intros Hg Hpos Hs0 (l1 & y & l2 & -> & Hk & Hs & -> & ->).
  pose proof (good_tiles _ _ Hg) as Ht.
  pose proof (tiles_mid _ _ _ _ _ Ht) as (_ & Hy0 & _ & Hlo & Hhi).
  pose proof (good_cap _ _ Hg) as Hcap.
  apply Forall_app in Hpos as (Hpos1 & _).
  pose proof (tiles_before _ _ _ _ _ Ht Hpos1) as Hbefore.
  pose proof (good_free _ _ Hg) as Hf.
  apply naf_app in Hf as (_ & Hf2 & Hf3).
  apply naf_cons in Hf2 as (Hf2 & _).
  rewrite hole_head_cons in Hf3.
  unfold split_spec, free_blocks.
  rewrite free_search_found; cbn [app offset]; [| |reflexivity].
  2:{ eapply Forall_impl; [exact Hbefore|]. cbn. intros b Hb. lia. }
  assert (Hlast : coalesce l1 (mkBlock PROCESS (offset y) s)
                    (if len y - s =? 0 then l2
                     else mkBlock HOLE (offset y + s) (len y - s) :: l2)
                  = l1 ++ merge_next (mkBlock HOLE (offset y) s)
                       (if len y - s =? 0 then l2
                        else mkBlock HOLE (offset y + s) (len y - s) :: l2)).
  { unfold coalesce. cbn [offset len]. destruct (last l1) as [r|] eqn:El; [|reflexivity].
    destruct (decide (kind r = HOLE)) as [Hr|Hr]; [|reflexivity].
    exfalso. apply Hf3. split; [|exact Hk]. exists r. tauto. }
  rewrite Hlast. f_equal.
  destruct (len y - s =? 0) eqn:E.
  - apply Z.eqb_eq in E. assert (s = len y) as -> by lia.
    rewrite <- Hk, block_eta. destruct l2 as [|z l2]; [reflexivity|].
    cbn [merge_next]. destruct (decide (kind z = HOLE)) as [Hz|Hz]; [|reflexivity].
    exfalso. apply Hf2. split; [exact Hk|]. apply hole_head_cons. exact Hz.
  - cbn [merge_next kind]. destruct (decide (HOLE = HOLE)); [|congruence].
    unfold grow. cbn [kind offset len].
    rewrite wadd_small by lia.
    replace (s + (len y - s)) with (len y) by lia.
    rewrite <- Hk, block_eta. reflexivity.
Qed.


(** *** Positive lengths *)

Lemma carved_positive l s a l' :
  Forall positive l -> 0 < s -> carved l s a l' -> Forall positive l'.
Proof.
  intros Hpos Hs (l1 & y & l2 & -> & _ & Hle & -> & ->).
  apply Forall_app in Hpos as (H1 & H2). apply Forall_cons in H2 as (Hy & H2).
  unfold split_spec. apply Forall_app. split; [exact H1|].
  constructor; [exact Hs|].
  destruct (len y - s =? 0) eqn:E; [exact H2|].
  apply Z.eqb_neq in E. constructor; [|exact H2]. unfold positive. cbn. lia.
Qed.

Lemma merge_next_positive cap pre w l2 :
  tiled cap (pre ++ w :: l2) -> Forall positive (pre ++ w :: l2) ->
  Forall positive (pre ++ merge_next w l2).
Proof.
  intros Ht Hpos. destruct l2 as [|z l2]; cbn [merge_next]; [exact Hpos|].
  destruct (decide (kind z = HOLE)); [|exact Hpos].
  destruct (tiled_merge _ _ _ _ _ Ht) as (_ & Hadd).
  apply Forall_app in Hpos as (H1 & H2). apply Forall_cons in H2 as (Hw & H2).
  apply Forall_cons in H2 as (Hz & H2).
  apply Forall_app. split; [exact H1|]. constructor; [|exact H2].
  unfold positive in *. cbn [grow len]. rewrite Hadd. lia.
Qed.

Lemma coalesce_positive cap l1 x l2 :
  good cap (l1 ++ x :: l2) -> Forall positive (l1 ++ x :: l2) ->
  Forall positive (coalesce l1 x l2).
Proof.
  intros Hg Hpos. apply good_tiled in Hg as (Ht & _).
  unfold coalesce.
  destruct l1 as [|r l1 _] using rev_ind.
  - cbn [last]. apply (merge_next_positive cap []).
    + apply (tiled_retype _ [] _ _ HOLE) in Ht. exact Ht.
    + cbn [app] in *. apply Forall_cons in Hpos as (Hx & Hpos).
      constructor; [exact Hx|exact Hpos].
  - rewrite last_snoc.
    destruct (decide (kind r = HOLE)) as [Hr|Hr].
    + rewrite removelast_last.
      rewrite <- app_assoc in Ht, Hpos. cbn [app] in Ht, Hpos.
      destruct (tiled_merge _ _ _ _ _ Ht) as (Ht' & Hadd).
      apply (merge_next_positive cap); [exact Ht'|].
      apply Forall_app in Hpos as (H1 & H2). apply Forall_cons in H2 as (Hrp & H2).
      apply Forall_cons in H2 as (Hx & H2).
      apply Forall_app. split; [exact H1|]. constructor; [|exact H2].
      unfold positive in *. cbn [grow len]. rewrite Hadd. lia.
    + apply (merge_next_positive cap).
      * apply (tiled_retype _ _ _ _ HOLE) in Ht. exact Ht.
      * apply Forall_app in Hpos as (H1 & H2). apply Forall_cons in H2 as (Hx & H2).
        apply Forall_app. split; [exact H1|]. constructor; [exact Hx|exact H2].
Qed.

Lemma free_blocks_positive cap l ptr :
  good cap l -> Forall positive l -> Forall positive (free_blocks l ptr).
Proof.
  intros Hg Hpos.
  destruct (free_blocks_cases l ptr) as [(_ & ->)|(la & x & lb & -> & _ & _ & ->)].
  - exact Hpos.
  - eapply coalesce_positive; eassumption.
Qed.

(* ================================================================= *)
(** * The scans from the head return *)

Lemma first_fit_loop_returns st r y b l s fuel :
  path (node_stack st) r ((y, b) :: l) None -> (length l < fuel)%nat ->
  exists res, first_fit_loop fuel st r s = Done res.
Proof.
  revert r y b fuel. induction l as [|[z bz] l IH]; intros r y b fuel Hpath Hf;
    (destruct fuel as [|fuel]; [simpl in Hf; lia|]);
    cbn [path fst snd] in Hpath; destruct Hpath as (H1 & H2 & H3);
    apply nxt_Some in H1 as (nr & Hr & Hnr);
    apply dat_Some in H2 as (ny & Hny & Hby);
    apply block_of_Some in Hby as (Hty & _ & Hsy);
    cbn [first_fit_loop]; unfold skip_cond;
    rewrite (rd_next_eq _ _ _ Hr), Hnr; cbn [bind defined];
    rewrite (rd_type_eq _ _ _ _ Hny Hty); cbn [bind].
  - apply nxt_Some in H3 as (n' & Hn' & Hz).
    assert (n' = ny) as -> by congruence.
    destruct (decide (kind b = PROCESS)); cbn [bind defined].
    + rewrite (rd_next_eq _ _ _ Hny), Hz. cbn [bind]. eauto.
    + rewrite (rd_size_eq _ _ _ _ Hny Hsy). cbn [bind].
      destruct (len b <? s); cbn [bind defined]; [|eauto].
      rewrite (rd_next_eq _ _ _ Hny), Hz. cbn [bind]. eauto.
  - pose proof H3 as H3'. destruct H3' as (H4 & _).
    apply nxt_Some in H4 as (n' & Hn' & Hz).
    assert (n' = ny) as -> by congruence. cbn [fst] in Hz.
    assert (Hrec : exists res, first_fit_loop fuel st y s = Done res).
    { eapply IH; [exact H3 | simpl in Hf; lia]. }
    destruct (decide (kind b = PROCESS)); cbn [bind defined].
    + rewrite (rd_next_eq _ _ _ Hny), Hz. cbn [bind]. exact Hrec.
    + rewrite (rd_size_eq _ _ _ _ Hny Hsy). cbn [bind].
      destruct (len b <? s); cbn [bind defined]; [|eauto].
      rewrite (rd_next_eq _ _ _ Hny), Hz. cbn [bind]. exact Hrec.
Qed.

Lemma best_fit_loop_returns st r l s fuel best min :
  path (node_stack st) r l None -> (length l < fuel)%nat ->
  exists res, best_fit_loop fuel st r s best min = Done res.
Proof.
  revert r fuel best min.
  induction l as [|[y b] l IH]; intros r fuel best min Hpath Hf;
    (destruct fuel as [|fuel]; [simpl in Hf; lia|]); cbn [best_fit_loop].
  - cbn [path] in Hpath. apply nxt_Some in Hpath as (nr & Hr & Hnr).
    rewrite (rd_next_eq _ _ _ Hr), Hnr. cbn [bind]. eauto.
  - cbn [path fst snd] in Hpath. destruct Hpath as (H1 & H2 & H3).
    apply nxt_Some in H1 as (nr & Hr & Hnr).
    apply dat_Some in H2 as (ny & Hny & Hby).
    apply block_of_Some in Hby as (Hty & _ & Hsy).
    rewrite (rd_next_eq _ _ _ Hr), Hnr. cbn [bind].
    rewrite (rd_type_eq _ _ _ _ Hny Hty). cbn [bind].
    assert (Hrec : forall best min,
               exists res, best_fit_loop fuel st y s best min = Done res).
    { intros best' min'. eapply IH; [exact H3 | simpl in Hf; lia]. }
    rewrite (rd_size_eq _ _ _ _ Hny Hsy).
    destruct (decide (kind b = HOLE)); cbn [bind]; [|apply Hrec].
    destruct (len b >=? s); cbn [bind]; [|apply Hrec].
    destruct (len b <? min); apply Hrec.
Qed.

Lemma worst_fit_loop_returns st r l s fuel worst max :
  path (node_stack st) r l None -> (length l < fuel)%nat ->
  exists res, worst_fit_loop fuel st r s worst max = Done res.
Proof.
  revert r fuel worst max.
  induction l as [|[y b] l IH]; intros r fuel worst max Hpath Hf;
    (destruct fuel as [|fuel]; [simpl in Hf; lia|]); cbn [worst_fit_loop].
  - cbn [path] in Hpath. apply nxt_Some in Hpath as (nr & Hr & Hnr).
    rewrite (rd_next_eq _ _ _ Hr), Hnr. cbn [bind]. eauto.
  - cbn [path fst snd] in Hpath. destruct Hpath as (H1 & H2 & H3).
    apply nxt_Some in H1 as (nr & Hr & Hnr).
    apply dat_Some in H2 as (ny & Hny & Hby).
    apply block_of_Some in Hby as (Hty & _ & Hsy).
    rewrite (rd_next_eq _ _ _ Hr), Hnr. cbn [bind].
    rewrite (rd_type_eq _ _ _ _ Hny Hty). cbn [bind].
    assert (Hrec : forall worst max,
               exists res, worst_fit_loop fuel st y s worst max = Done res).
    { intros worst' max'. eapply IH; [exact H3 | simpl in Hf; lia]. }
    rewrite (rd_size_eq _ _ _ _ Hny Hsy).
    destruct (decide (kind b = HOLE)); cbn [bind]; [|apply Hrec].
    destruct (len b >=? s); cbn [bind]; [|apply Hrec].
    destruct (len b >? max); apply Hrec.
Qed.

(** [allocate_node] returns when it is given what the scans select. *)
Lemma allocate_node_returns st hp l sp R s :
  Struct st hp l sp -> good (memory_arena_size st) l.*2 ->
  R ∈ hp :: l.*1 -> fits st R s -> 0 <= s -> s mod 4 = 0 ->
  exists st' r, allocate_node st (Some R) s = Done (st', r).
Proof.
  intros HS Hg HR (nR & y & nY & L & HnR & Hy & HnY & HtY & HsY & HsL) Hs0 Hs4.
  destruct (live_split _ _ _ _ _ _ (s_path _ _ _ _ HS) HR HnR Hy)
    as (l1 & by0 & l2 & -> & ->).
  pose proof (s_path _ _ _ _ HS) as Hpath.
  apply path_app_cons in Hpath as (_ & Hdy & _).
  apply dat_Some in Hdy as (nY' & HnY' & HbY).
  assert (nY' = nY) as -> by congruence. clear HnY'.
  apply block_of_Some in HbY as (HtY' & HaY & HsY').
  assert (Hk : kind by0 = HOLE) by congruence.
  assert (HL : len by0 = L) by congruence. subst L.
  rewrite fmap_app, fmap_cons in Hg. cbn [snd] in Hg.
  destruct (split_good _ _ _ _ _ Hg Hk (conj Hs0 HsL) Hs4) as (Hend & _).
  assert (Hend' : (wadd (offset by0) s >=? memory_arena_size st) = true -> l2 = []).
  { intros E. apply Hend in E. apply fmap_nil_inv in E. exact E. }
  pose proof (allocate_node_list _ _ _ _ _ _ _ _ HS Hs4 Hend') as Hlist.
  destruct sp as [|t sp0].
  - eauto.
  - destruct Hlist as (st1 & Hrun1 & _). eauto.
Qed.

(** Under first, best and worst fit an allocation from a reachable state
    returns, once the loop is given as many iterations as the array has
    nodes. *)
Lemma alloc_from_head_returns fuel st size0 :
  reachable st -> heap_algo st <> NEXT_FIT ->
  (length (node_stack st) <= fuel)%nat ->
  exists st' r, mavalloc_alloc fuel st size0 = Done (st', r).
Proof.
  intros Hr Halgo Hf.
  destruct (reachable_Inv _ Hr) as (hp & l & sp & HS & Hg).
  pose proof (Struct_length _ _ _ _ HS) as Hlen.
  pose proof (s_path _ _ _ _ HS) as Hpath.
  pose proof (ALIGN4_nonneg size0) as Hs0.
  pose proof (ALIGN4_aligned size0) as Hs4.
  assert (Hhp : hp ∈ hp :: l.*1) by (apply elem_of_cons; left; reflexivity).
  unfold mavalloc_alloc.
  destruct (heap_algo st); [| contradiction | |].
  - unfold alloc_first_fit. rewrite (s_head _ _ _ _ HS).
    destruct l as [|[y b] l].
    { exfalso. exact (good_nonempty _ _ Hg eq_refl). }
    destruct (first_fit_loop_returns st hp y b l (ALIGN4 size0) fuel Hpath)
      as (res & Hres); [simpl in Hlen; lia|].
    rewrite Hres. cbn [bind]. destruct res as [R|]; [|eauto].
    destruct (first_fit_loop_sound _ _ _ _ _ _ _ _ HS Hhp Hres) as (HR & Hfit).
    eapply allocate_node_returns; eassumption.
  - unfold alloc_best_fit. rewrite (s_head _ _ _ _ HS).
    destruct (best_fit_loop_returns st hp l (ALIGN4 size0) fuel None
                (wadd (memory_arena_size st) 1) Hpath)
      as (res & Hres); [lia|].
    rewrite Hres. cbn [bind]. destruct res as [R|]; [|cbn; eauto].
    destruct (best_fit_loop_sound _ _ _ _ _ _ _ None _ _ HS Hhp
                ltac:(intros ? [=]) Hres R eq_refl) as (HR & Hfit).
    eapply allocate_node_returns; eassumption.
  - unfold alloc_worst_fit. rewrite (s_head _ _ _ _ HS).
    destruct (worst_fit_loop_returns st hp l (ALIGN4 size0) fuel None 0 Hpath)
      as (res & Hres); [lia|].
    rewrite Hres. cbn [bind]. destruct res as [R|]; [|cbn; eauto].
    destruct (worst_fit_loop_sound _ _ _ _ _ _ _ None _ _ HS Hhp
                ltac:(intros ? [=]) Hres R eq_refl) as (HR & Hfit).
    eapply allocate_node_returns; eassumption.
Qed.

(* ================================================================= *)
(** * The example runs are reachable *)

Ltac by_run := vm_compute; reflexivity.

Lemma after_init_reachable size0 algorithm :
  mavalloc_init size0 algorithm true boot = Done (after_init size0 algorithm, 0) ->
  reachable (after_init size0 algorithm).
Proof. intros H. eapply reach_init. exact H. Qed.

Lemma after_alloc_reachable st size0 r :
  reachable st ->
  mavalloc_alloc 300 st size0 = Done (after_alloc st size0, r) ->
  reachable (after_alloc st size0).
Proof. intros Hr H. eapply reach_alloc; eassumption. Qed.

Lemma after_free_reachable st ptr :
  reachable st ->
  mavalloc_free 300 st ptr = Done (after_free st ptr) ->
  reachable (after_free st ptr).
Proof. intros Hr H. eapply reach_free; eassumption. Qed.

Lemma run_zero_reachable : reachable run_zero.
Proof.
  apply (after_alloc_reachable _ _ (Some 0)); [|by_run].
  apply after_init_reachable. by_run.
Qed.

Lemma run_plain_reachable : reachable run_plain.
Proof.
  apply (after_alloc_reachable _ _ (Some 0)); [|by_run].
  apply after_init_reachable. by_run.
Qed.

Lemma run_last_reachable : reachable run_last.
Proof.
  apply after_free_reachable; [|by_run].
  apply after_free_reachable; [|by_run].
  apply (after_alloc_reachable _ _ (Some 4)); [|by_run].
  apply (after_alloc_reachable _ _ (Some 0)); [|by_run].
  apply after_init_reachable. by_run.
Qed.

Lemma run_stale_reachable : reachable run_stale.
Proof.
  apply after_free_reachable; [|by_run].
  apply after_free_reachable; [|by_run].
  apply (after_alloc_reachable _ _ (Some 12)); [|by_run].
  apply (after_alloc_reachable _ _ (Some 8)); [|by_run].
  apply after_free_reachable; [|by_run].
  apply (after_alloc_reachable _ _ (Some 4)); [|by_run].
  apply (after_alloc_reachable _ _ (Some 0)); [|by_run].
  apply after_init_reachable. by_run.
Qed.

Lemma run_loop_reachable : reachable run_loop.
Proof.
  apply (after_alloc_reachable _ _ (Some 12)); [|by_run].
  apply after_free_reachable; [|by_run].
  apply after_free_reachable; [|by_run].
  apply (after_alloc_reachable _ _ (Some 8)); [|by_run].
  apply after_free_reachable; [|by_run].
  apply (after_alloc_reachable _ _ (Some 4)); [|by_run].
  apply (after_alloc_reachable _ _ (Some 0)); [|by_run].
  apply after_init_reachable. by_run.
Qed.

Lemma run_zero_blocks :
  blocks run_zero = [mkBlock PROCESS 0 0; mkBlock HOLE 0 8].
Proof. by_run. Qed.

Lemma run_plain_blocks :
  blocks run_plain = [mkBlock PROCESS 0 8; mkBlock HOLE 8 8].
Proof. by_run. Qed.

(* ================================================================= *)
(** * The claims of the specification *)

(** ** C1: the blocks tile the arena *)

(** Claim C1, refuted as stated.  After [mavalloc_init( 8, FIRST_FIT )] and
    [mavalloc_alloc( 0 )] the list holds an ALLOCATED block of no bytes at
    offset 0 and, behind it, the FREE block at offset 0 again: the offsets
    do not strictly ascend. *)
Lemma C1_offsets_not_strict :
  reachable run_zero /\ ~ strictly_ascending (offset <$> blocks run_zero).
Proof.
  split; [exact run_zero_reachable|].
  rewrite run_zero_blocks. cbn. lia.
Qed.

(** Claim C1, as amended.  In every reachable state the list is not empty
    and its blocks, in list order, tile [0, capacity): the first starts at
    0, each starts where the one before ends, and the last ends at the
    capacity, which is the initial size rounded to a multiple of 4.  Every
    length is at least 0, so the offsets ascend; they ascend strictly as
    soon as no block is empty. *)
Theorem C1_blocks_tile_arena st :
  reachable st ->
  blocks st <> [] /\
  tiles 0 (blocks st) (memory_arena_size st) /\
  (exists size0, memory_arena_size st = ALIGN4 size0) /\
  ascending (offset <$> blocks st) /\
  (Forall positive (blocks st) -> strictly_ascending (offset <$> blocks st)).
Proof.
  intros Hr. pose proof (reachable_good _ Hr) as Hg.
  split; [exact (good_nonempty _ _ Hg)|].
  split; [exact (good_tiles _ _ Hg)|].
  split; [exact (reachable_capacity _ Hr)|].
  split.
  - eapply tiles_ascending, good_tiles, Hg.
  - intros Hp. eapply tiles_strictly_ascending; [exact (good_tiles _ _ Hg)|exact Hp].
Qed.

Lemma C1_blocks_tile_arena_witness :
  tiles 0 (blocks run_plain) (memory_arena_size run_plain) /\
  strictly_ascending (offset <$> blocks run_plain).
Proof.
  destruct (C1_blocks_tile_arena run_plain run_plain_reachable)
    as (_ & Ht & _ & _ & Hs).
  split; [exact Ht|].
  apply Hs. rewrite run_plain_blocks.
  repeat constructor.
Defined.

(** ** C2: no two neighbouring blocks are both FREE *)

(** Claim C2.  In every reachable state no two consecutive blocks are both
    FREE.  A release always returns; what it does to the list is
    [free_blocks]: the released block merges with a FREE predecessor and
    with a FREE successor, and the list that results has again no two
    consecutive FREE blocks. *)
Theorem C2_no_adjacent_free st :
  reachable st ->
  no_adjacent_free (blocks st) /\
  forall fuel ptr, (length (node_stack st) <= fuel)%nat ->
    exists st', mavalloc_free fuel st ptr = Done st' /\
      blocks st' = free_blocks (blocks st) ptr /\
      no_adjacent_free (blocks st').
Proof.
  intros Hr. split.
  - exact (good_free _ _ (reachable_good _ Hr)).
  - intros fuel ptr Hf.
    destruct (mavalloc_free_Inv fuel st ptr (reachable_Inv _ Hr) Hf)
      as (st' & Hrun & _ & _ & _ & Hb & _).
    exists st'. split; [exact Hrun|]. split; [exact Hb|].
    exact (good_free _ _ (reachable_good _ (reach_free _ _ _ _ Hr Hrun))).
Qed.

Lemma C2_no_adjacent_free_witness :
  no_adjacent_free (blocks run_plain) /\
  exists st', mavalloc_free 200 run_plain 0 = Done st' /\
    blocks st' = free_blocks (blocks run_plain) 0 /\
    no_adjacent_free (blocks st').
Proof.
  destruct (C2_no_adjacent_free run_plain run_plain_reachable) as [Hn Hf].
  split; [exact Hn|].
  apply Hf. vm_compute. lia.
Defined.

(** ** C4: the release of an address that is not allocated *)

(** Claim C4.  In a reachable state, the release of an address at which no
    ALLOCATED block starts returns and leaves the whole state, and so the
    list of blocks, as it was. *)
Theorem C4_invalid_release st ptr fuel :
  reachable st ->
  (forall b, b ∈ blocks st -> kind b = PROCESS -> offset b <> ptr) ->
  (length (node_stack st) <= fuel)%nat ->
  mavalloc_free fuel st ptr = Done st.
Proof.
  intros Hr Hno Hf.
  destruct (mavalloc_free_Inv fuel st ptr (reachable_Inv _ Hr) Hf)
    as (st' & Hrun & _ & _ & _ & Hb & Hsame).
  rewrite Hrun. f_equal. apply Hsame. rewrite Hb.
  eapply free_blocks_noop; [exact (reachable_good _ Hr)|exact Hno].
Qed.

Lemma C4_invalid_release_witness :
  mavalloc_free 200 run_plain 8 = Done run_plain /\
  mavalloc_free 200 run_plain 6 = Done run_plain.
Proof.
  assert (Hlen : (length (node_stack run_plain) <= 200)%nat).
  { vm_compute. lia. }
  split.
  - apply (C4_invalid_release run_plain 8 200 run_plain_reachable); [|exact Hlen].
    intros b Hb Hk. rewrite run_plain_blocks in Hb.
    apply elem_of_cons in Hb as [->|Hb]; [cbn; lia|].
    apply elem_of_cons in Hb as [->|Hb]; [discriminate Hk|].
    apply elem_of_nil in Hb as [].
  - apply (C4_invalid_release run_plain 6 200 run_plain_reachable); [|exact Hlen].
    intros b Hb Hk. rewrite run_plain_blocks in Hb.
    apply elem_of_cons in Hb as [->|Hb]; [cbn; lia|].
    apply elem_of_cons in Hb as [->|Hb]; [discriminate Hk|].
    apply elem_of_nil in Hb as [].
Defined.

(** ** C3: the split *)

Lemma endp_take hp (l : list (nat * Block)) i x :
  l !! i = Some x -> (hp :: l.*1) !! i = Some (endp hp (take i l)).
Proof.
  revert hp i. induction l as [|[q b] l IH]; intros hp [|i] H;
    try discriminate H; cbn [firstn].
  - rewrite endp_nil. reflexivity.
  - rewrite endp_cons, fmap_cons. cbn [fst lookup list_lookup].
    apply (IH q i H).
Qed.



(** ** C5: a request that no FREE block can hold *)

(** A request larger than every FREE block, under the three strategies that
    scan from the head: the call returns failure and the state is the one
    before the call. *)
Lemma exhausted_from_head fuel st size0 :
  reachable st -> heap_algo st <> NEXT_FIT ->
  (forall b, b ∈ blocks st -> kind b = HOLE -> len b < ALIGN4 size0) ->
  (length (node_stack st) <= fuel)%nat ->
  mavalloc_alloc fuel st size0 = Done (st, None).
Proof.
  intros Hr Halgo Hsmall Hf.
  destruct (alloc_from_head_returns fuel st size0 Hr Halgo Hf) as (st' & r & Hrun).
  destruct (mavalloc_alloc_Inv _ _ _ _ _ (reachable_Inv _ Hr) Hrun)
    as (_ & _ & Hres).
  destruct r as [a|].
  - destruct Hres as (_ & [(l1 & y & l2 & Hl & Hk & Hle & _)|(Hnf & _)]).
    + exfalso. assert (Hy : y ∈ blocks st).
      { rewrite Hl. apply elem_of_app. right. apply elem_of_cons. left. reflexivity. }
      specialize (Hsmall y Hy Hk). lia.
    + contradiction.
  - destruct Hres as (_ & Hsame). rewrite Hrun, (Hsame Halgo). reflexivity.
Qed.

(** Claim C5, at the input where the code departs from it.  The state
    [run_stale] is reachable under next fit; its list is a FREE block of 12
    bytes at offset 0 and an ALLOCATED block of 20 bytes at offset 12, so a
    request of 16 bytes exceeds every FREE block.  The call nevertheless
    returns the offset 12, where the ALLOCATED block lies, and leaves the
    list as it was: the cursor [previous_node] points at a descriptor that
    the releases before have sent back to the pool, and the scan runs over
    the pool, where it finds the stale data of an old hole. *)
Theorem C5_next_fit_stale_cursor :
  reachable run_stale /\ heap_algo run_stale = NEXT_FIT /\
  blocks run_stale = [mkBlock HOLE 0 12; mkBlock PROCESS 12 20] /\
  (forall b, b ∈ blocks run_stale -> kind b = HOLE -> len b < ALIGN4 16) /\
  mavalloc_alloc 300 run_stale 16 = Done (after_alloc run_stale 16, Some 12) /\
  blocks (after_alloc run_stale 16) = blocks run_stale.
Proof.
  assert (Hb : blocks run_stale = [mkBlock HOLE 0 12; mkBlock PROCESS 12 20])
    by by_run.
  split; [exact run_stale_reachable|].
  split; [by_run|].
  split; [exact Hb|].
  split.
  - intros b Hin Hk. rewrite Hb in Hin.
    apply elem_of_cons in Hin as [->|Hin]; [reflexivity|].
    apply elem_of_cons in Hin as [->|Hin]; [discriminate Hk|].
    apply elem_of_nil in Hin as [].
  - split; by_run.
Qed.

(** ** C7: the scan of next fit *)

(** Claim C7, at the input where the code departs from it.  The state
    [run_last] is reachable under next fit and its list is one FREE block
    of 8 bytes.  The cursor [previous_node] still points at the descriptor
    that the last release merged away, whose [next] is [NULL]: the scan of a
    request of 4 bytes reads [runner->next->type] through that [NULL], with
    however many iterations the loop is given, and neither selects the FREE
    block nor reports failure. *)
Theorem C7_next_fit_null_next :
  reachable run_last /\ heap_algo run_last = NEXT_FIT /\
  blocks run_last = [mkBlock HOLE 0 8] /\
  forall fuel, mavalloc_alloc (S fuel) run_last 4 = Fault.
Proof.
  split; [exact run_last_reachable|].
  split; [by_run|].
  split; [by_run|].
  intros fuel. by_run.
Qed.

(** The scan of next fit never comes back to a cursor that is not on its
    way: from the head [hp], whose only successor [y] is the last node of
    the list and does not fit, the loop goes back to [hp] for ever. *)
Lemma next_fit_loop_spins st hp y s :
  head_pointer st = Some hp -> previous_node st <> Some hp ->
  skip_cond st hp s = Done true ->
  rd_next st hp = Done (Some y) -> rd_next st y = Done None ->
  forall fuel, next_fit_loop fuel st hp s = Timeout.
Proof.
  intros Hhp Hprev Hskip Hn Hy fuel. induction fuel as [|fuel IH]; [reflexivity|].
  cbn [next_fit_loop]. rewrite Hskip. cbn [bind].
  rewrite Hn. cbn [bind defined]. rewrite Hy. cbn [bind].
  rewrite Hhp. cbn [bind defined].
  destruct (decide (Some hp = previous_node st)) as [E|_]; [|exact IH].
  exfalso. apply Hprev. symmetry. exact E.
Qed.

(** An allocation of next fit that does not return.  The state [run_loop]
    is reachable and its list is one FREE block of 16 bytes; the cursor
    points into the pool.  For a request of 24 bytes the scan leaves the
    pool at its end, goes to the head, and then round the list without
    ever meeting the cursor again: whatever number of iterations the loop
    is given, it uses them all. *)
Lemma next_fit_never_returns :
  reachable run_loop /\ heap_algo run_loop = NEXT_FIT /\
  blocks run_loop = [mkBlock HOLE 0 16] /\
  forall fuel, mavalloc_alloc fuel run_loop 24 = Timeout.
Proof.
  split; [exact run_loop_reachable|]. split; [by_run|]. split; [by_run|].
  intros fuel. unfold mavalloc_alloc.
  replace (heap_algo run_loop) with NEXT_FIT by by_run.
  unfold alloc_next_fit.
  replace (head_pointer run_loop) with (Some 0%nat) by by_run.
  replace (previous_node run_loop) with (Some 3%nat) by by_run.
  cbn [defined bind].
  destruct fuel as [|fuel]; [reflexivity|].
  cbn [next_fit_loop].
  replace (skip_cond run_loop 3 (ALIGN4 24)) with (Done true) by by_run.
  cbn [bind].
  replace (rd_next run_loop 3) with (Done (Some 4%nat)) by by_run.
  cbn [bind defined].
  replace (rd_next run_loop 4) with (@Done (option nat) None) by by_run.
  cbn [bind].
  replace (head_pointer run_loop) with (Some 0%nat) by by_run.
  cbn [bind defined].
  replace (previous_node run_loop) with (Some 3%nat) by by_run.
  destruct (decide (Some 0%nat = Some 3%nat)) as [E|_]; [discriminate E|].
  rewrite (next_fit_loop_spins run_loop 0 2 (ALIGN4 24)); try by_run.
  vm_compute. discriminate.
Qed.

(** ** C6: an allocation released at once *)

(** Claim C6, refuted as stated.  In [run_zero] the list is an ALLOCATED
    block of no bytes at offset 0, then the FREE block of 8 bytes at offset
    0.  An allocation of 4 bytes returns offset 0; the release of offset 0
    right after it finds the empty block first and frees that one: three
    blocks are left where there were two. *)
Lemma C6_roundtrip_empty_block :
  reachable run_zero /\
  mavalloc_alloc 300 run_zero 4 = Done (after_alloc run_zero 4, Some 0) /\
  mavalloc_free 300 (after_alloc run_zero 4) 0
    = Done (after_free (after_alloc run_zero 4) 0) /\
  ~ blocks (after_free (after_alloc run_zero 4) 0) ≡ₚ blocks run_zero.
Proof.
  split; [exact run_zero_reachable|].
  split; [by_run|]. split; [by_run|].
  intros Hp. apply Permutation_length in Hp. vm_compute in Hp. discriminate Hp.
Qed.

(** Claim C6, as amended.  From a reachable state in which every block has
    a positive length, let an allocation succeed with address [a], under
    first, best or worst fit, or under next fit when it changed the list.
    The release of [a] right after it returns, and the list is then again
    the list before the allocation: same blocks in the same order. *)
Theorem C6_roundtrip st fuel size0 st1 a fuel' :
  reachable st ->
  Forall positive (blocks st) ->
  mavalloc_alloc fuel st size0 = Done (st1, Some a) ->
  heap_algo st <> NEXT_FIT \/ blocks st1 <> blocks st ->
  (length (node_stack st1) <= fuel')%nat ->
  exists st2, mavalloc_free fuel' st1 a = Done st2 /\ blocks st2 = blocks st.
Proof.
  intros Hr Hpos Hrun Hcase Hf.
  pose proof (reachable_Inv _ Hr) as HI.
  destruct (mavalloc_alloc_Inv _ _ _ _ _ HI Hrun) as (HI1 & _ & _ & Hres).
  assert (Hc : carved (blocks st) (ALIGN4 size0) a (blocks st1)).
  { destruct Hres as [Hc|(Hnf & Hsame)]; [exact Hc|].
    destruct Hcase as [Hn|Hn]; contradiction. }
  destruct (mavalloc_free_Inv fuel' st1 a HI1 Hf)
    as (st2 & Hrun2 & _ & _ & _ & Hb & _).
  exists st2. split; [exact Hrun2|]. rewrite Hb.
  eapply carved_roundtrip;
    [exact (reachable_good _ Hr)|exact Hpos|apply ALIGN4_nonneg|exact Hc].
Qed.

Lemma C6_roundtrip_witness :
  exists st2,
    mavalloc_free 200 (after_alloc run_plain 4) 8 = Done st2 /\
    blocks st2 = blocks run_plain.
Proof.
  apply (C6_roundtrip run_plain 300 4 (after_alloc run_plain 4) 8 200
           run_plain_reachable).
  - rewrite run_plain_blocks. repeat constructor.
  - vm_compute. reflexivity.
  - left. vm_compute. discriminate.
  - vm_compute. lia.
Defined.

(** ** C8: alignment *)




(** ** C9: no empty block *)

(** Claim C9, refuted as stated.  After [mavalloc_init( 8, FIRST_FIT )] and
    [mavalloc_alloc( 0 )] the first block of the list, which is not the
    sentinel, is an ALLOCATED block of length 0. *)
Lemma C9_empty_block :
  reachable run_zero /\
  blocks run_zero !! 0%nat = Some (mkBlock PROCESS 0 0) /\
  ~ Forall positive (blocks run_zero).
Proof.
  split; [exact run_zero_reachable|]. rewrite run_zero_blocks.
  split; [reflexivity|].
  intros H. apply Forall_cons in H as [H _]. unfold positive in H. cbn in H. lia.
Qed.

(** Claim C9, as amended.  A state reached from an arena whose capacity
    does not round to 0, by releases and by allocations whose size does not
    round to 0, is a reachable state in which every block of the list (the
    sentinel is not one of them) has a length greater than 0. *)
Theorem C9_positive_lengths st :
  reachable_nonzero st -> reachable st /\ Forall positive (blocks st).
Proof.
  induction 1 as [size0 algorithm malloc_ok st0 st Hpos Hrun
                 |st fuel size0 st' r _ [Hr IH] Hpos Hrun
                 |st fuel ptr st' _ [Hr IH] Hrun].
  - split; [eapply reach_init, Hrun|].
    destruct (mavalloc_init_Inv _ _ _ _ _ Hrun) as (_ & -> & _).
    repeat constructor. exact Hpos.
  - split; [eapply reach_alloc; eassumption|].
    destruct (mavalloc_alloc_Inv _ _ _ _ _ (reachable_Inv _ Hr) Hrun)
      as (_ & _ & Hres).
    destruct r as [a|].
    + destruct Hres as (_ & [Hc|(_ & ->)]); [|exact IH].
      eapply carved_positive; eassumption.
    + destruct Hres as (-> & _). exact IH.
  - split; [eapply reach_free; eassumption|].
    destruct (mavalloc_free_Done _ _ _ _ (reachable_Inv _ Hr) Hrun)
      as (_ & _ & _ & ->).
    eapply free_blocks_positive; [exact (reachable_good _ Hr)|exact IH].
Qed.

Lemma C9_positive_lengths_witness :
  reachable run_plain /\ Forall positive (blocks run_plain).
Proof.
  apply C9_positive_lengths.
  apply (reachnz_alloc (after_init 16 FIRST_FIT) 300 8 run_plain (Some 0)).
  - apply (reachnz_init 16 FIRST_FIT true boot).
    + vm_compute. reflexivity.
    + vm_compute. reflexivity.
  - vm_compute. reflexivity.
  - vm_compute. reflexivity.
Defined.

(** ** C10: the allocator before [mavalloc_init] and after [mavalloc_destroy] *)

(** Claim C10.  The allocator is uninitialised when [head_pointer] is
    [NULL]: at program start ([boot]) and after [mavalloc_destroy].  In such
    a state an allocation returns failure, a release returns, the size is
    0 and [mavalloc_destroy] returns, each without a change to the state;
    so two calls of [mavalloc_destroy] in a row do what one does. *)
Theorem C10_uninitialised :
  head_pointer boot = None /\
  (forall st, head_pointer (mavalloc_destroy st) = None /\
              mavalloc_destroy (mavalloc_destroy st) = mavalloc_destroy st) /\
  (forall st, head_pointer st = None ->
     (forall fuel size0, mavalloc_alloc fuel st size0 = Done (st, None)) /\
     (forall fuel ptr, mavalloc_free fuel st ptr = Done st) /\
     (forall fuel, mavalloc_size fuel st = Done 0) /\
     mavalloc_destroy st = st).
Proof.
  split; [reflexivity|]. split.
  - intros st. unfold mavalloc_destroy.
    destruct (head_pointer st) eqn:E; cbn; [split; reflexivity|].
    rewrite E. split; reflexivity.
  - intros st E. repeat split.
    + intros fuel size0. unfold mavalloc_alloc, alloc_first_fit, alloc_next_fit,
        alloc_best_fit, alloc_worst_fit. rewrite E.
      destruct (heap_algo st); reflexivity.
    + intros fuel ptr. unfold mavalloc_free. rewrite E. reflexivity.
    + intros fuel. unfold mavalloc_size. rewrite E. reflexivity.
    + unfold mavalloc_destroy. rewrite E. reflexivity.
Qed.

Lemma C10_uninitialised_witness :
  mavalloc_alloc 300 boot 8 = Done (boot, None) /\
  mavalloc_free 300 (mavalloc_destroy run_plain) 0
    = Done (mavalloc_destroy run_plain) /\
  mavalloc_size 300 (mavalloc_destroy run_plain) = Done 0.
Proof.
  destruct C10_uninitialised as (Hb & Hd & Hu).
  destruct (Hu boot Hb) as (Ha & _).
  destruct (Hu (mavalloc_destroy run_plain) (proj1 (Hd run_plain)))
    as (_ & Hf & Hs & _).
  split; [apply Ha|]. split; [apply Hf|apply Hs].
Defined.

(* ================================================================= *)
(** * Further properties of the allocator *)

(** ** [mavalloc_size] *)

Lemma size_loop_path st r l fuel k :
  path (node_stack st) r l None -> (length l < fuel)%nat ->
  size_loop fuel st r k = Done (k + Z.of_nat (length l)).
Proof.
  revert r fuel k. induction l as [|[y b] l IH]; intros r fuel k Hpath Hf;
    (destruct fuel as [|fuel]; [simpl in Hf; lia|]); cbn [size_loop].
  - cbn [path] in Hpath. apply nxt_Some in Hpath as (nr & Hr & Hnr).
    rewrite (rd_next_eq _ _ _ Hr), Hnr. cbn [bind length]. f_equal. lia.
  - cbn [path fst snd] in Hpath. destruct Hpath as (H1 & _ & H3).
    apply nxt_Some in H1 as (nr & Hr & Hnr).
    rewrite (rd_next_eq _ _ _ Hr), Hnr. cbn [bind].
    rewrite (IH y fuel (k + 1) H3) by (simpl in Hf; lia).
    f_equal. cbn [length]. lia.
Qed.

(** In a reachable state [mavalloc_size] returns the number of blocks of the
    list; the sentinel is not counted. *)
Theorem mavalloc_size_counts_blocks st fuel :
  reachable st -> (length (node_stack st) <= fuel)%nat ->
  mavalloc_size fuel st = Done (Z.of_nat (length (blocks st))).
Proof.
  intros Hr Hf. destruct (reachable_Inv _ Hr) as (hp & l & sp & HS & _).
  pose proof (Struct_length _ _ _ _ HS) as Hlen.
  unfold mavalloc_size. rewrite (s_head _ _ _ _ HS).
  rewrite (size_loop_path st hp l fuel 0 (s_path _ _ _ _ HS)) by lia.
  rewrite (Struct_blocks _ _ _ _ HS), length_fmap. reflexivity.
Qed.

Lemma mavalloc_size_counts_blocks_witness :
  mavalloc_size 200 run_plain = Done 2.
Proof.
  apply (mavalloc_size_counts_blocks run_plain 200 run_plain_reachable).
  vm_compute. lia.
Defined.

(** ** [mavalloc_init] *)

Lemma mavalloc_init_returns size0 algorithm st0 :
  0 <= size0 ->
  exists st, mavalloc_init size0 algorithm true st0 = Done (st, 0).
Proof.
  intros Hs. unfold mavalloc_init.
  assert (E : (size0 <? 0) = false) by (apply Z.ltb_ge; exact Hs).
  rewrite E. cbn [negb].
  generalize (ALIGN4 size0). intros cap.
  cbn [memory_arena memory_arena_size heap_algo head_pointer previous_node
       node_stack stack_head].
  set (st1 := node_stack_init NODE_AMOUNT _).
  assert (H0 : node_stack st1 !! 0%nat
               = Some (mkNode None None None (Some 1%nat)))
    by (apply (node_stack_init_lookup NODE_AMOUNT); unfold NODE_AMOUNT; lia).
  assert (H1 : node_stack st1 !! 1%nat
               = Some (mkNode None None None (Some 2%nat)))
    by (apply (node_stack_init_lookup NODE_AMOUNT); unfold NODE_AMOUNT; lia).
  assert (Hsh : stack_head st1 = Some 0%nat) by reflexivity.
  clearbody st1.
  erewrite new_node_run; [|cbn; exact Hsh|cbn; exact H0].
  run. cbn [next].
  erewrite new_node_run; [|cbn; reflexivity|cbn; lookups; exact H1].
  run. unfold wr_next. run. cbn [next]. eauto.
Qed.

(** [mavalloc_init] with a size that is a [size_t], when [malloc] gives the
    arena, returns 0 whatever the state before, initialised or not.  The
    state after it is reachable; its capacity is the size rounded to a
    multiple of 4, its list is one FREE block over the whole arena, the
    algorithm is the one asked for and the cursor of next fit is the
    sentinel.  When [malloc] fails the call returns -1 and the list, the
    pool and the cursor are those of the state before. *)
Theorem mavalloc_init_fresh size0 algorithm st0 :
  0 <= size0 ->
  (exists st,
     mavalloc_init size0 algorithm true st0 = Done (st, 0) /\
     reachable st /\
     memory_arena_size st = ALIGN4 size0 /\
     blocks st = [mkBlock HOLE 0 (ALIGN4 size0)] /\
     heap_algo st = algorithm /\
     previous_node st = head_pointer st /\ head_pointer st <> None) /\
  (exists st,
     mavalloc_init size0 algorithm false st0 = Done (st, -1) /\
     memory_arena st = false /\
     head_pointer st = head_pointer st0 /\
     previous_node st = previous_node st0 /\
     node_stack st = node_stack st0 /\ stack_head st = stack_head st0).
Proof.
  intros Hs. split.
  - destruct (mavalloc_init_returns size0 algorithm st0 Hs) as (st & Hrun).
    exists st. split; [exact Hrun|].
    split; [eapply reach_init, Hrun|].
    destruct (mavalloc_init_Struct _ _ _ _ _ Hrun) as (HS & Hcap & Halgo & Hprev & _).
    split; [exact Hcap|].
    split; [exact (Struct_blocks _ _ _ _ HS)|].
    split; [exact Halgo|].
    rewrite Hprev, (s_head _ _ _ _ HS). split; [reflexivity|discriminate].
  - unfold mavalloc_init.
    assert (E : (size0 <? 0) = false) by (apply Z.ltb_ge; exact Hs).
    rewrite E. cbn [negb]. eexists. split; [reflexivity|].
    repeat split.
Qed.

Lemma mavalloc_init_fresh_witness :
  exists st,
    mavalloc_init 2048 FIRST_FIT true run_plain = Done (st, 0) /\
    blocks st = [mkBlock HOLE 0 (ALIGN4 2048)].
Proof.
  destruct (mavalloc_init_fresh 2048 FIRST_FIT run_plain ltac:(lia))
    as ((st & Hrun & _ & _ & Hb & _) & _).
  exists st. split; [exact Hrun|exact Hb].
Defined.

(** ** Blocks of a tiling *)

Lemma tiles_within a l c :
  tiles a l c -> Forall (fun b => a <= offset b /\ offset b + len b <= c) l.
Proof.
  revert a. induction l as [|x l IH]; intros a H; [constructor|].
  cbn [tiles] in H. destruct H as (Hx & H0 & Ht).
  pose proof (tiles_le _ _ _ Ht) as Hle.
  constructor; [lia|].
  eapply Forall_impl; [exact (IH _ Ht)|]. cbn. intros b Hb. lia.
Qed.

Lemma tiles_ends_before a l1 x l2 c :
  tiles a (l1 ++ x :: l2) c ->
  Forall (fun b => offset b + len b <= offset x) l1.
Proof.
  intros H. apply tiles_mid in H as (H1 & _).
  eapply Forall_impl; [exact (tiles_within _ _ _ H1)|]. cbn. intros b Hb. lia.
Qed.

Lemma tiles_starts_after a l1 x l2 c :
  tiles a (l1 ++ x :: l2) c ->
  Forall (fun b => offset x + len x <= offset b) l2.
Proof.
  intros H. apply tiles_mid in H as (_ & _ & H2 & _).
  eapply Forall_impl; [exact (tiles_within _ _ _ H2)|]. cbn. intros b Hb. lia.
Qed.

(** ** The ALLOCATED blocks across a split and across a release *)

Lemma split_spec_allocated l1 y l2 s b :
  kind y = HOLE -> kind b = PROCESS ->
  b ∈ split_spec l1 y l2 s <->
  b ∈ l1 ++ y :: l2 \/ b = mkBlock PROCESS (offset y) s.
Proof.
  intros Hy Hb. unfold split_spec.
  rewrite !elem_of_app, !elem_of_cons.
  destruct (len y - s =? 0).
  - split.
    + intros [H|[H|H]]; auto.
    + intros [[H|[H|H]]|H]; auto. subst b. congruence.
  - rewrite elem_of_cons. split.
    + intros [H|[H|[H|H]]]; auto. subst b. discriminate Hb.
    + intros [[H|[H|H]]|H]; auto. subst b. congruence.
Qed.

Lemma merge_next_allocated w l2 b :
  kind w = HOLE -> kind b = PROCESS ->
  b ∈ merge_next w l2 <-> b ∈ l2.
Proof.
  intros Hw Hb. destruct l2 as [|z l2]; cbn [merge_next].
  - split; intros H.
    + apply list_elem_of_singleton in H. subst b. congruence.
    + inversion H.
  - destruct (decide (kind z = HOLE)) as [Hz|Hz]; rewrite !elem_of_cons.
    + split.
      * intros [H|H]; [|auto]. subst b. cbn [grow kind] in Hb. congruence.
      * intros [H|H]; [|auto]. subst b. congruence.
    + split.
      * intros [H|H]; [|exact H]. subst b. congruence.
      * intros H. right. exact H.
Qed.

Lemma coalesce_allocated la x lb b :
  kind b = PROCESS -> b ∈ coalesce la x lb <-> b ∈ la ++ lb.
Proof.
  intros Hb. unfold coalesce.
  destruct la as [|r la _] using rev_ind.
  - cbn [last app]. apply merge_next_allocated; [reflexivity|exact Hb].
  - rewrite last_snoc.
    destruct (decide (kind r = HOLE)) as [Hr|Hr].
    + rewrite removelast_last, !elem_of_app.
      rewrite merge_next_allocated by (exact Hr || exact Hb).
      rewrite list_elem_of_singleton. split; [tauto|].
      intros [[H|H]|H]; auto. subst b. congruence.
    + rewrite (elem_of_app (la ++ [r])), merge_next_allocated
        by (reflexivity || exact Hb).
      rewrite (elem_of_app (la ++ [r]) lb). reflexivity.
Qed.

Lemma free_blocks_allocated l ptr b :
  kind b = PROCESS ->
  (b ∈ free_blocks l ptr -> b ∈ l) /\
  (b ∈ l -> offset b <> ptr -> b ∈ free_blocks l ptr).
Proof.
  intros Hb.
  destruct (free_blocks_cases l ptr) as [(_ & ->)|(la & x & lb & -> & _ & Hx & ->)].
  - tauto.
  - rewrite (coalesce_allocated _ _ _ _ Hb), !elem_of_app, elem_of_cons. split.
    + tauto.
    + intros [H|[H|H]] Hne; auto. subst b. contradiction.
Qed.

(** With no empty block, a release leaves no ALLOCATED block at [ptr]. *)
Lemma free_blocks_clears cap l ptr b :
  good cap l -> Forall positive l ->
  b ∈ free_blocks l ptr -> kind b = PROCESS -> offset b <> ptr.
Proof.
  intros Hg Hpos Hin Hb.
  destruct (free_blocks_cases l ptr)
    as [(Hno & E)|(la & x & lb & -> & Hla & Hx & E)]; rewrite E in Hin.
  - rewrite Forall_forall in Hno. apply Hno. exact Hin.
  - apply (coalesce_allocated _ _ _ _ Hb) in Hin.
    apply elem_of_app in Hin as [Hin|Hin].
    + rewrite Forall_forall in Hla. apply Hla. exact Hin.
    + pose proof (tiles_starts_after _ _ _ _ _ (good_tiles _ _ Hg)) as Haft.
      rewrite Forall_forall in Haft. specialize (Haft _ Hin).
      apply Forall_app in Hpos as (_ & Hpos). apply Forall_cons in Hpos as (Hxp & _).
      unfold positive in Hxp. lia.
Qed.

(** ** Bytes across a split and across a release *)

Ltac kinds :=
  repeat match goal with
         | |- context [decide (?a = ?b)] => destruct (decide (a = b))
         end;
  try congruence; try lia.

Lemma free_bytes_cons x l :
  free_bytes (x :: l) = (if decide (kind x = HOLE) then len x else 0) + free_bytes l.
Proof.
  unfold free_bytes. cbn [foldr]. destruct (decide (kind x = HOLE)); lia.
Qed.

Lemma used_bytes_cons x l :
  used_bytes (x :: l) = (if decide (kind x = PROCESS) then len x else 0) + used_bytes l.
Proof.
  unfold used_bytes. cbn [foldr]. destruct (decide (kind x = PROCESS)); lia.
Qed.

Lemma free_bytes_app l1 l2 : free_bytes (l1 ++ l2) = free_bytes l1 + free_bytes l2.
Proof.
  induction l1 as [|x l1 IH]; [reflexivity|].
  rewrite <- app_comm_cons, !free_bytes_cons, IH. lia.
Qed.

Lemma used_bytes_app l1 l2 : used_bytes (l1 ++ l2) = used_bytes l1 + used_bytes l2.
Proof.
  induction l1 as [|x l1 IH]; [reflexivity|].
  rewrite <- app_comm_cons, !used_bytes_cons, IH. lia.
Qed.

Lemma bytes_total a l c : tiles a l c -> free_bytes l + used_bytes l = c - a.
Proof.
  revert a. induction l as [|x l IH]; intros a H; cbn [tiles] in H.
  - cbn. lia.
  - destruct H as (_ & _ & Ht). specialize (IH _ Ht).
    rewrite free_bytes_cons, used_bytes_cons.
    destruct (decide (kind x = HOLE)) as [E1|E1],
             (decide (kind x = PROCESS)) as [E2|E2]; try lia; try congruence.
    destruct (kind x); congruence.
Qed.

Lemma split_spec_bytes l1 y l2 s :
  kind y = HOLE ->
  free_bytes (split_spec l1 y l2 s) = free_bytes (l1 ++ y :: l2) - s /\
  used_bytes (split_spec l1 y l2 s) = used_bytes (l1 ++ y :: l2) + s.
Proof.
  intros Hy. unfold split_spec.
  rewrite !free_bytes_app, !used_bytes_app, !free_bytes_cons, !used_bytes_cons.
  cbn [kind len].
  destruct (decide (kind y = HOLE)) as [_|N]; [|contradiction].
  destruct (decide (kind y = PROCESS)) as [N|_]; [congruence|].
  destruct (decide (PROCESS = HOLE)) as [N|_]; [discriminate N|].
  destruct (decide (PROCESS = PROCESS)) as [_|N]; [|contradiction].
  destruct (len y - s =? 0) eqn:E.
  - apply Z.eqb_eq in E. lia.
  - rewrite free_bytes_cons, used_bytes_cons. cbn [kind len].
    destruct (decide (HOLE = HOLE)) as [_|N]; [|contradiction].
    destruct (decide (HOLE = PROCESS)) as [N|_]; [discriminate N|]. lia.
Qed.

Lemma merge_next_bytes cap pre w l2 :
  tiled cap (pre ++ w :: l2) -> kind w = HOLE ->
  free_bytes (merge_next w l2) = len w + free_bytes l2 /\
  used_bytes (merge_next w l2) = used_bytes l2.
Proof.
  intros Ht Hw. destruct l2 as [|z l2]; cbn [merge_next].
  - rewrite free_bytes_cons, used_bytes_cons, Hw. split; kinds.
  - destruct (decide (kind z = HOLE)) as [Hz|Hz].
    + destruct (tiled_merge _ _ _ _ _ Ht) as (_ & Hadd).
      rewrite !free_bytes_cons, !used_bytes_cons. cbn [grow kind len].
      rewrite Hw, Hz, Hadd. split; kinds.
    + rewrite (free_bytes_cons w), (used_bytes_cons w), Hw. split; kinds.
Qed.

Lemma coalesce_bytes cap la x lb :
  tiled cap (la ++ x :: lb) ->
  free_bytes (coalesce la x lb) = free_bytes (la ++ lb) + len x /\
  used_bytes (coalesce la x lb) = used_bytes (la ++ lb).
Proof.
  intros Ht. unfold coalesce.
  destruct la as [|r la _] using rev_ind.
  - cbn [last app].
    apply (tiled_retype _ [] _ _ HOLE) in Ht.
    destruct (merge_next_bytes cap [] _ lb Ht eq_refl) as (-> & ->).
    cbn [len]. lia.
  - rewrite last_snoc.
    destruct (decide (kind r = HOLE)) as [Hr|Hr].
    + rewrite removelast_last.
      rewrite <- app_assoc in Ht. cbn [app] in Ht.
      destruct (tiled_merge _ _ _ _ _ Ht) as (Ht' & Hadd).
      destruct (merge_next_bytes cap la (grow r (len x)) lb Ht' Hr) as (E1 & E2).
      rewrite !free_bytes_app, !used_bytes_app, E1, E2.
      rewrite (free_bytes_cons r), (used_bytes_cons r), Hr.
      cbn [grow len]. rewrite Hadd.
      change (free_bytes []) with 0. change (used_bytes []) with 0.
      split; kinds.
    + apply (tiled_retype _ _ _ _ HOLE) in Ht.
      destruct (merge_next_bytes cap _ _ lb Ht eq_refl) as (E1 & E2).
      rewrite (free_bytes_app (la ++ [r])), (used_bytes_app (la ++ [r])), E1, E2.
      rewrite (free_bytes_app (la ++ [r]) lb), (used_bytes_app (la ++ [r]) lb).
      cbn [len]. lia.
Qed.

(** ** What an allocation does to the blocks that are in use *)

(** An allocation, under any of the four algorithms and whether it succeeds
    or not, leaves every ALLOCATED block where it is, with its length; the
    only ALLOCATED block the list can gain is one at the offset returned, of
    the length asked for rounded to a multiple of 4. *)
Theorem alloc_keeps_allocated st fuel size0 st' r :
  reachable st ->
  mavalloc_alloc fuel st size0 = Done (st', r) ->
  (forall b, kind b = PROCESS -> b ∈ blocks st -> b ∈ blocks st') /\
  (forall b, kind b = PROCESS -> b ∈ blocks st' ->
     b ∈ blocks st \/ (r = Some (offset b) /\ len b = ALIGN4 size0)).
Proof.
  intros Hr Hrun.
  destruct (mavalloc_alloc_Inv _ _ _ _ _ (reachable_Inv _ Hr) Hrun)
    as (_ & _ & Hres).
  assert (Hcase : blocks st' = blocks st \/
                  exists a, r = Some a /\
                    carved (blocks st) (ALIGN4 size0) a (blocks st')).
  { destruct r as [a|].
    - destruct Hres as (_ & [Hc|(_ & E)]); [right; eauto|left; exact E].
    - left. apply Hres. }
  destruct Hcase as [->|(a & -> & l1 & y & l2 & -> & Hy & _ & -> & ->)].
  - split; [tauto|]. intros b _ Hb. left. exact Hb.
  - split.
    + intros b Hk Hb. apply split_spec_allocated; [exact Hy|exact Hk|].
      left. exact Hb.
    + intros b Hk Hb. apply split_spec_allocated in Hb; [|exact Hy|exact Hk].
      destruct Hb as [Hb| ->]; [left; exact Hb|right].
      split; reflexivity.
Qed.

Lemma alloc_keeps_allocated_witness :
  mkBlock PROCESS 0 8 ∈ blocks (after_alloc run_plain 4).
Proof.
  destruct (alloc_keeps_allocated run_plain 300 4 (after_alloc run_plain 4)
              (Some 8) run_plain_reachable ltac:(vm_compute; reflexivity))
    as (Hkeep & _).
  apply Hkeep; [reflexivity|].
  rewrite run_plain_blocks. apply elem_of_cons. left. reflexivity.
Defined.

(** The region handed out by an allocation that changed the list (as every
    successful allocation under first, best and worst fit does) lies inside
    the arena, was inside one FREE block, and meets no block that was
    ALLOCATED; the FREE bytes go down, and the ALLOCATED bytes up, by the
    rounded size. *)
Theorem alloc_region_fresh st fuel size0 st' a :
  reachable st ->
  mavalloc_alloc fuel st size0 = Done (st', Some a) ->
  heap_algo st <> NEXT_FIT \/ blocks st' <> blocks st ->
  0 <= a /\ a + ALIGN4 size0 <= memory_arena_size st /\
  (exists y, y ∈ blocks st /\ kind y = HOLE /\ offset y = a /\
             ALIGN4 size0 <= len y) /\
  (forall b, b ∈ blocks st -> kind b = PROCESS ->
     offset b + len b <= a \/ a + ALIGN4 size0 <= offset b) /\
  free_bytes (blocks st') = free_bytes (blocks st) - ALIGN4 size0 /\
  used_bytes (blocks st') = used_bytes (blocks st) + ALIGN4 size0.
Proof.
  intros Hr Hrun Hcase.
  destruct (mavalloc_alloc_Inv _ _ _ _ _ (reachable_Inv _ Hr) Hrun)
    as (_ & _ & _ & Hres).
  assert (Hc : carved (blocks st) (ALIGN4 size0) a (blocks st')).
  { destruct Hres as [Hc|(Hnf & Hsame)]; [exact Hc|].
    destruct Hcase as [Hn|Hn]; contradiction. }
  pose proof (reachable_good _ Hr) as Hg.
  destruct Hc as (l1 & y & l2 & Hl & Hy & Hs & -> & ->).
  rewrite Hl in Hg |- *.
  pose proof (good_tiles _ _ Hg) as Ht.
  pose proof (tiles_mid _ _ _ _ _ Ht) as (_ & _ & _ & Hlo & Hhi).
  split; [lia|]. split; [lia|]. split.
  { exists y. split; [|tauto].
    apply elem_of_app. right. apply elem_of_cons. left. reflexivity. }
  split.
  - intros b Hb Hk. apply elem_of_app in Hb as [Hb|Hb].
    + left. pose proof (tiles_ends_before _ _ _ _ _ Ht) as Hbef.
      rewrite Forall_forall in Hbef. exact (Hbef _ Hb).
    + apply elem_of_cons in Hb as [->|Hb]; [congruence|].
      right. pose proof (tiles_starts_after _ _ _ _ _ Ht) as Haft.
      rewrite Forall_forall in Haft. specialize (Haft _ Hb). lia.
  - apply split_spec_bytes. exact Hy.
Qed.

Lemma alloc_region_fresh_witness :
  0 <= 8 /\ 8 + ALIGN4 3 <= memory_arena_size run_plain /\
  free_bytes (blocks (after_alloc run_plain 3))
    = free_bytes (blocks run_plain) - ALIGN4 3.
Proof.
  destruct (alloc_region_fresh run_plain 300 3 (after_alloc run_plain 3) 8
              run_plain_reachable ltac:(vm_compute; reflexivity)
              ltac:(left; vm_compute; discriminate))
    as (H1 & H2 & _ & _ & H3 & _).
  split; [exact H1|]. split; [exact H2|exact H3].
Defined.

(** ** What a release does to the other blocks *)

(** A release always returns.  It creates no ALLOCATED block, and every
    ALLOCATED block that does not start at the address released stays where
    it is, with its length. *)
Theorem free_keeps_others st fuel ptr :
  reachable st -> (length (node_stack st) <= fuel)%nat ->
  exists st', mavalloc_free fuel st ptr = Done st' /\
    (forall b, kind b = PROCESS -> b ∈ blocks st' -> b ∈ blocks st) /\
    (forall b, kind b = PROCESS -> b ∈ blocks st -> offset b <> ptr ->
       b ∈ blocks st').
Proof.
  intros Hr Hf.
  destruct (mavalloc_free_Inv fuel st ptr (reachable_Inv _ Hr) Hf)
    as (st' & Hrun & _ & _ & _ & Hb & _).
  exists st'. split; [exact Hrun|]. rewrite Hb. split.
  - intros b Hk. apply (free_blocks_allocated _ ptr b Hk).
  - intros b Hk. apply (free_blocks_allocated _ ptr b Hk).
Qed.

Lemma free_keeps_others_witness :
  exists st', mavalloc_free 200 (after_alloc run_plain 4) 8 = Done st' /\
    mkBlock PROCESS 0 8 ∈ blocks st'.
Proof.
  destruct (free_keeps_others (after_alloc run_plain 4) 200 8)
    as (st' & Hrun & _ & Hkeep).
  - apply (after_alloc_reachable _ _ (Some 8)); [exact run_plain_reachable|].
    vm_compute. reflexivity.
  - vm_compute. lia.
  - exists st'. split; [exact Hrun|].
    apply Hkeep; [reflexivity| |cbn; lia].
    vm_compute. apply elem_of_cons. left. reflexivity.
Defined.

Lemma first_at_unique a la x lb c b ptr :
  tiles a (la ++ x :: lb) c -> positive x ->
  Forall (fun b => offset b ≠ ptr) la -> offset x = ptr ->
  b ∈ la ++ x :: lb -> offset b = ptr -> b = x.
Proof.
  intros Ht Hx Hla Hox Hb Hob.
  apply elem_of_app in Hb as [Hb|Hb].
  - rewrite Forall_forall in Hla. destruct (Hla _ Hb Hob).
  - apply elem_of_cons in Hb as [->|Hb]; [reflexivity|].
    pose proof (tiles_starts_after _ _ _ _ _ Ht) as Haft.
    rewrite Forall_forall in Haft. specialize (Haft _ Hb).
    unfold positive in Hx. lia.
Qed.

(** In a state with no empty block, the release of an ALLOCATED block moves
    the bytes of that block from the ALLOCATED bytes to the FREE bytes, and
    no ALLOCATED block starts at its address afterwards. *)
Theorem free_returns_bytes st fuel ptr b :
  reachable st -> Forall positive (blocks st) ->
  b ∈ blocks st -> kind b = PROCESS -> offset b = ptr ->
  (length (node_stack st) <= fuel)%nat ->
  exists st', mavalloc_free fuel st ptr = Done st' /\
    free_bytes (blocks st') = free_bytes (blocks st) + len b /\
    used_bytes (blocks st') = used_bytes (blocks st) - len b /\
    (forall b', b' ∈ blocks st' -> kind b' = PROCESS -> offset b' <> ptr).
Proof.
  intros Hr Hpos Hin Hk Hob Hf.
  destruct (mavalloc_free_Inv fuel st ptr (reachable_Inv _ Hr) Hf)
    as (st' & Hrun & _ & _ & _ & Hb & _).
  exists st'. split; [exact Hrun|]. rewrite Hb.
  pose proof (reachable_good _ Hr) as Hg.
  assert (Hclear : forall b', b' ∈ free_blocks (blocks st) ptr ->
                     kind b' = PROCESS -> offset b' <> ptr).
  { intros b'. eapply free_blocks_clears; eassumption. }
  destruct (free_blocks_cases (blocks st) ptr)
    as [(Hno & _)|(la & x & lb & Hl & Hla & Hx & E)].
  { rewrite Forall_forall in Hno. destruct (Hno _ Hin Hob). }
  rewrite E in Hclear |- *. rewrite Hl in Hg, Hpos, Hin |- *.
  assert (b = x) as ->.
  { eapply first_at_unique; try eassumption.
    - exact (good_tiles _ _ Hg).
    - apply Forall_app in Hpos as (_ & Hpos). apply Forall_cons in Hpos. tauto. }
  apply good_tiled in Hg as (Ht & _).
  destruct (coalesce_bytes _ _ _ _ Ht) as (-> & ->).
  rewrite !free_bytes_app, !used_bytes_app, free_bytes_cons, used_bytes_cons.
  split; [kinds|]. split; [kinds|]. exact Hclear.
Qed.

Lemma free_returns_bytes_witness :
  exists st', mavalloc_free 200 run_plain 0 = Done st' /\
    free_bytes (blocks st') = free_bytes (blocks run_plain) + 8.
Proof.
  destruct (free_returns_bytes run_plain 200 0 (mkBlock PROCESS 0 8)
              run_plain_reachable)
    as (st' & Hrun & Hfree & _).
  - rewrite run_plain_blocks. repeat constructor.
  - rewrite run_plain_blocks. apply elem_of_cons. left. reflexivity.
  - reflexivity.
  - reflexivity.
  - vm_compute. lia.
  - exists st'. split; [exact Hrun|exact Hfree].
Defined.

Lemma Done_inj {A : Type} (a b : A) : Done a = Done b -> a = b.
Proof. intros H. injection H as H. exact H. Qed.

(** In a state with no empty block, a second release of the same address
    right after the first changes nothing. *)
Theorem double_free_harmless st fuel ptr :
  reachable st -> Forall positive (blocks st) ->
  (length (node_stack st) <= fuel)%nat ->
  exists st', mavalloc_free fuel st ptr = Done st' /\
    forall fuel', (length (node_stack st') <= fuel')%nat ->
      mavalloc_free fuel' st' ptr = Done st'.
Proof.
  intros Hr Hpos Hf.
  destruct (mavalloc_free_Inv fuel st ptr (reachable_Inv _ Hr) Hf)
    as (st' & Hrun & HI' & _ & _ & Hb & _).
  exists st'. split; [exact Hrun|]. intros fuel' Hf'.
  destruct (mavalloc_free_Inv fuel' st' ptr HI' Hf')
    as (st2 & Hrun2 & _ & _ & _ & Hb2 & Hsame2).
  rewrite Hrun2. f_equal. apply Hsame2. rewrite Hb2.
  pose proof (reachable_good _ (reach_free _ _ _ _ Hr Hrun)) as Hg'.
  eapply free_blocks_noop; [exact Hg'|].
  intros b' Hin Hk. rewrite Hb in Hin.
  eapply free_blocks_clears; [exact (reachable_good _ Hr)|exact Hpos|exact Hin|exact Hk].
Qed.

Lemma double_free_harmless_witness :
  exists st', mavalloc_free 200 run_plain 0 = Done st' /\
              mavalloc_free 200 st' 0 = Done st'.
Proof.
  destruct (double_free_harmless run_plain 200 0 run_plain_reachable)
    as (st' & Hrun & Hagain).
  - rewrite run_plain_blocks. repeat constructor.
  - vm_compute. lia.
  - exists st'. split; [exact Hrun|]. apply Hagain.
    assert (E : st' = after_free run_plain 0).
    { assert (E0 : mavalloc_free 200 run_plain 0 = Done (after_free run_plain 0))
        by (vm_compute; reflexivity).
      exact (Done_inj _ _ (eq_trans (eq_sym Hrun) E0)). }
    rewrite E. vm_compute. lia.
Defined.

(** ** What the scans from the head select *)

(** [allocate_node] at the node before a hole of the list. *)
Lemma allocate_node_at st hp l1 q y l2 sp s :
  Struct st hp (l1 ++ (q, y) :: l2) sp ->
  good (memory_arena_size st) (l1.*2 ++ y :: l2.*2) ->
  kind y = HOLE -> 0 <= s <= len y -> s mod 4 = 0 ->
  stack_head st <> None ->
  exists st',
    allocate_node st (Some (endp hp l1)) s = Done (st', Some (offset y)) /\
    blocks st' = split_spec l1.*2 y l2.*2 s /\
    previous_node st' = previous_node st.
Proof.
  intros HS Hg Hk Hs Hs4 Hsh.
  destruct (split_good _ _ _ _ _ Hg Hk Hs Hs4) as (Hend & Hbool & _ & _).
  assert (Hend' : (wadd (offset y) s >=? memory_arena_size st) = true -> l2 = []).
  { intros E. apply Hend in E. apply fmap_nil_inv in E. exact E. }
  pose proof (allocate_node_list _ _ _ _ _ _ _ _ HS Hs4 Hend') as Hlist.
  destruct sp as [|t sp0].
  { pose proof (s_pool _ _ _ _ HS) as Hp. cbn in Hp. contradiction. }
  destruct Hlist as (st1 & Hrun1 & _ & Hprev & HS1).
  rewrite Hbool in HS1.
  exists st1. split; [exact Hrun1|]. split; [|exact Hprev].
  assert (Hadd : wadd (offset y) s = offset y + s).
  { apply wadd_small. pose proof (good_cap _ _ Hg).
    pose proof (tiles_mid _ _ _ _ _ (good_tiles _ _ Hg)). lia. }
  assert (Hsub : wsub (len y) s = len y - s).
  { apply wsub_small. pose proof (good_cap _ _ Hg).
    pose proof (tiles_mid _ _ _ _ _ (good_tiles _ _ Hg)). lia. }
  unfold split_spec. destruct (len y - s =? 0).
  - rewrite (Struct_blocks _ _ _ _ HS1), fmap_app, fmap_cons. reflexivity.
  - rewrite (Struct_blocks _ _ _ _ HS1), fmap_app, !fmap_cons. cbn [snd].
    rewrite Hadd, Hsub, Hk. reflexivity.
Qed.

(** The blocks of the list, cut at a block, cut the nodes the same way. *)
Lemma blocks_cut (l : list (nat * Block)) l1 y l2 :
  l.*2 = l1 ++ y :: l2 ->
  exists L1 q L2, l = L1 ++ (q, y) :: L2 /\ L1.*2 = l1 /\ L2.*2 = l2.
Proof.
  intros H. apply fmap_app_inv in H as (L1 & L & -> & H & ->).
  symmetry in H. apply fmap_cons_inv in H as ([q y'] & L2 & Hy & -> & ->).
  cbn [snd] in Hy. subst y'. exists L1, q, L2. repeat split; reflexivity.
Qed.

Lemma first_fit_loop_found st r la y by0 lb e s fuel :
  path (node_stack st) r (la ++ (y, by0) :: lb) e ->
  Forall (fun qb => kind qb.2 = HOLE -> len qb.2 < s) la ->
  kind by0 = HOLE -> s <= len by0 ->
  (length la < fuel)%nat ->
  first_fit_loop fuel st r s = Done (Some (endp r la)).
Proof.
  revert r fuel. induction la as [|[q b] la IH]; intros r fuel Hpath Hla Hk Hs Hf;
    (destruct fuel as [|fuel]; [simpl in Hf; lia|]).
  - cbn [app path fst snd] in Hpath. destruct Hpath as (H1 & H2 & _).
    apply nxt_Some in H1 as (nr & Hr & Hnr).
    apply dat_Some in H2 as (ny & Hny & Hby).
    apply block_of_Some in Hby as (Hty & _ & Hsy).
    cbn [first_fit_loop]. unfold skip_cond.
    rewrite (rd_next_eq _ _ _ Hr), Hnr. cbn [bind defined].
    rewrite (rd_type_eq _ _ _ _ Hny Hty). cbn [bind].
    destruct (decide (kind by0 = PROCESS)) as [E|_]; [congruence|].
    rewrite (rd_size_eq _ _ _ _ Hny Hsy). cbn [bind].
    assert (E : (len by0 <? s) = false) by (apply Z.ltb_ge; exact Hs).
    rewrite E. reflexivity.
  - rewrite <- app_comm_cons in Hpath.
    cbn [path fst snd] in Hpath. destruct Hpath as (H1 & H2 & H3).
    apply nxt_Some in H1 as (nr & Hr & Hnr).
    apply dat_Some in H2 as (nq & Hnq & Hbq).
    apply block_of_Some in Hbq as (Htq & _ & Hsq).
    apply Forall_cons in Hla as [Hb Hla]. cbn [snd] in Hb.
    assert (Hnn : exists z, next nq = Some z).
    { destruct la as [|[z bz] la]; cbn [app path fst] in H3;
        destruct H3 as (H3 & _); apply nxt_Some in H3 as (n' & Hn' & Hz);
        eexists; rewrite <- Hz; congruence. }
    destruct Hnn as (z & Hz).
    assert (Hrec : first_fit_loop fuel st q s = Done (Some (endp r ((q, b) :: la)))).
    { rewrite endp_cons. apply IH; try assumption. simpl in Hf. lia. }
    cbn [first_fit_loop]. unfold skip_cond.
    rewrite (rd_next_eq _ _ _ Hr), Hnr. cbn [bind defined].
    rewrite (rd_type_eq _ _ _ _ Hnq Htq). cbn [bind].
    destruct (decide (kind b = PROCESS)) as [E|E]; cbn [bind defined].
    + rewrite (rd_next_eq _ _ _ Hnq), Hz. cbn [bind]. exact Hrec.
    + rewrite (rd_size_eq _ _ _ _ Hnq Hsq). cbn [bind].
      assert (E' : (len b <? s) = true).
      { apply Z.ltb_lt. apply Hb. apply kind_not_PROCESS. exact E. }
      rewrite E'. cbn [bind defined].
      rewrite (rd_next_eq _ _ _ Hnq), Hz. cbn [bind]. exact Hrec.
Qed.

Lemma Forall_blocks_nodes (P : Block -> Prop) (L : list (nat * Block)) :
  (forall b, b ∈ L.*2 -> P b) -> Forall (fun qb => P qb.2) L.
Proof.
  intros H. apply Forall_forall. intros [q b] Hin. apply H.
  apply list_elem_of_fmap. exists (q, b). split; [reflexivity|exact Hin].
Qed.

Lemma first_fit_rule st fuel size0 l1 y l2 :
  reachable st -> heap_algo st = FIRST_FIT ->
  blocks st = l1 ++ y :: l2 ->
  kind y = HOLE -> ALIGN4 size0 <= len y ->
  (forall b, b ∈ l1 -> kind b = HOLE -> len b < ALIGN4 size0) ->
  stack_head st <> None ->
  (length (node_stack st) <= fuel)%nat ->
  exists st',
    mavalloc_alloc fuel st size0 = Done (st', Some (offset y)) /\
    blocks st' = split_spec l1 y l2 (ALIGN4 size0).
Proof.
  intros Hr Halgo Hl Hk Hs Hsmall Hsh Hf.
  destruct (reachable_Inv _ Hr) as (hp & l & sp & HS & Hg).
  pose proof (Struct_length _ _ _ _ HS) as Hlen.
  rewrite (Struct_blocks _ _ _ _ HS) in Hl.
  destruct (blocks_cut _ _ _ _ Hl) as (L1 & q & L2 & -> & <- & <-).
  rewrite fmap_app, fmap_cons in Hg. cbn [snd] in Hg.
  unfold mavalloc_alloc. rewrite Halgo. unfold alloc_first_fit.
  rewrite (s_head _ _ _ _ HS).
  rewrite (first_fit_loop_found st hp L1 q y L2 None (ALIGN4 size0) fuel
             (s_path _ _ _ _ HS)); try assumption.
  - cbn [bind].
    destruct (allocate_node_at _ _ _ _ _ _ _ (ALIGN4 size0) HS Hg Hk
                (conj (ALIGN4_nonneg size0) Hs) (ALIGN4_aligned size0) Hsh)
      as (st' & Hrun & Hb & _).
    exists st'. split; [exact Hrun|exact Hb].
  - apply (Forall_blocks_nodes (fun b => kind b = HOLE -> len b < ALIGN4 size0)).
    exact Hsmall.
  - rewrite length_app in Hlen. cbn [length] in Hlen. lia.
Qed.

(** First fit takes the first FREE block of the list that is large enough:
    when there is one and the pool has a spare descriptor, the allocation
    returns the offset of that block and splits it. *)
Theorem first_fit_takes_first st fuel size0 l1 y l2 :
  reachable st -> heap_algo st = FIRST_FIT ->
  blocks st = l1 ++ y :: l2 ->
  kind y = HOLE -> ALIGN4 size0 <= len y ->
  (forall b, b ∈ l1 -> kind b = HOLE -> len b < ALIGN4 size0) ->
  stack_head st <> None ->
  (length (node_stack st) <= fuel)%nat ->
  exists st',
    mavalloc_alloc fuel st size0 = Done (st', Some (offset y)) /\
    blocks st' = split_spec l1 y l2 (ALIGN4 size0).
Proof. apply first_fit_rule. Qed.

Lemma first_fit_takes_first_witness :
  exists st',
    mavalloc_alloc 200 run_plain 5 = Done (st', Some 8) /\
    blocks st' = split_spec [mkBlock PROCESS 0 8] (mkBlock HOLE 8 8) [] (ALIGN4 5).
Proof.
  apply (first_fit_takes_first run_plain 200 5 [mkBlock PROCESS 0 8]
           (mkBlock HOLE 8 8) [] run_plain_reachable).
  - vm_compute. reflexivity.
  - exact run_plain_blocks.
  - reflexivity.
  - vm_compute. discriminate.
  - intros b Hb Hk. apply list_elem_of_singleton in Hb. subst b. discriminate Hk.
  - vm_compute. discriminate.
  - vm_compute. lia.
Defined.

Lemma best_fit_loop_scan st r l s fuel best min :
  path (node_stack st) r l None -> (length l < fuel)%nat ->
  best_fit_loop fuel st r s best min = Done (best_scan r l s best min).
Proof.
  revert r fuel best min.
  induction l as [|[y b] l IH]; intros r fuel best min Hpath Hf;
    (destruct fuel as [|fuel]; [simpl in Hf; lia|]); cbn [best_fit_loop best_scan].
  - cbn [path] in Hpath. apply nxt_Some in Hpath as (nr & Hr & Hnr).
    rewrite (rd_next_eq _ _ _ Hr), Hnr. reflexivity.
  - cbn [path fst snd] in Hpath. destruct Hpath as (H1 & H2 & H3).
    apply nxt_Some in H1 as (nr & Hr & Hnr).
    apply dat_Some in H2 as (ny & Hny & Hby).
    apply block_of_Some in Hby as (Hty & _ & Hsy).
    rewrite (rd_next_eq _ _ _ Hr), Hnr. cbn [bind].
    rewrite (rd_type_eq _ _ _ _ Hny Hty). cbn [bind].
    rewrite (rd_size_eq _ _ _ _ Hny Hsy).
    assert (Hrec : forall best min,
               best_fit_loop fuel st y s best min = Done (best_scan y l s best min)).
    { intros best' min'. apply IH; [exact H3 | simpl in Hf; lia]. }
    destruct (decide (kind b = HOLE)) as [E|E].
    + rewrite (bool_decide_eq_true_2 _ E). cbn [bind andb].
      destruct (len b >=? s); cbn [bind andb]; [|apply Hrec].
      destruct (len b <? min); apply Hrec.
    + rewrite (bool_decide_eq_false_2 _ E). cbn [bind andb]. apply Hrec.
Qed.

Lemma worst_fit_loop_scan st r l s fuel worst max :
  path (node_stack st) r l None -> (length l < fuel)%nat ->
  worst_fit_loop fuel st r s worst max = Done (worst_scan r l s worst max).
Proof.
  revert r fuel worst max.
  induction l as [|[y b] l IH]; intros r fuel worst max Hpath Hf;
    (destruct fuel as [|fuel]; [simpl in Hf; lia|]); cbn [worst_fit_loop worst_scan].
  - cbn [path] in Hpath. apply nxt_Some in Hpath as (nr & Hr & Hnr).
    rewrite (rd_next_eq _ _ _ Hr), Hnr. reflexivity.
  - cbn [path fst snd] in Hpath. destruct Hpath as (H1 & H2 & H3).
    apply nxt_Some in H1 as (nr & Hr & Hnr).
    apply dat_Some in H2 as (ny & Hny & Hby).
    apply block_of_Some in Hby as (Hty & _ & Hsy).
    rewrite (rd_next_eq _ _ _ Hr), Hnr. cbn [bind].
    rewrite (rd_type_eq _ _ _ _ Hny Hty). cbn [bind].
    rewrite (rd_size_eq _ _ _ _ Hny Hsy).
    assert (Hrec : forall worst max,
               worst_fit_loop fuel st y s worst max
               = Done (worst_scan y l s worst max)).
    { intros worst' max'. apply IH; [exact H3 | simpl in Hf; lia]. }
    destruct (decide (kind b = HOLE)) as [E|E].
    + rewrite (bool_decide_eq_true_2 _ E). cbn [bind andb].
      destruct (len b >=? s); cbn [bind andb]; [|apply Hrec].
      destruct (len b >? max); apply Hrec.
    + rewrite (bool_decide_eq_false_2 _ E). cbn [bind andb]. apply Hrec.
Qed.

(** A block the scan does not take. *)
Lemma best_scan_stay r l s best min :
  Forall (fun qb => kind qb.2 = HOLE -> s <= len qb.2 -> min <= len qb.2) l ->
  best_scan r l s best min = best.
Proof.
  revert r. induction l as [|[y b] l IH]; intros r Hl; [reflexivity|].
  apply Forall_cons in Hl as [Hb Hl]. cbn [snd] in Hb. cbn [best_scan].
  destruct (bool_decide (kind b = HOLE) && (len b >=? s) && (len b <? min)) eqn:E.
  - apply andb_prop in E as [E E3]. apply andb_prop in E as [E1 E2].
    apply bool_decide_eq_true in E1. apply Z.geb_le in E2. apply Z.ltb_lt in E3.
    specialize (Hb E1 E2). lia.
  - apply IH. exact Hl.
Qed.

Lemma best_scan_pick r l1 q y l2 s best min :
  kind y = HOLE -> s <= len y -> len y < min ->
  Forall (fun qb => kind qb.2 = HOLE -> s <= len qb.2 -> len y < len qb.2) l1 ->
  Forall (fun qb => kind qb.2 = HOLE -> s <= len qb.2 -> len y <= len qb.2) l2 ->
  best_scan r (l1 ++ (q, y) :: l2) s best min = Some (endp r l1).
Proof.
  intros Hk Hs. revert r best min.
  induction l1 as [|[p b] l1 IH]; intros r best min Hmin H1 H2.
  - cbn [app best_scan]. rewrite (bool_decide_eq_true_2 _ Hk).
    assert (E2 : (len y >=? s) = true) by (apply Z.geb_le; exact Hs).
    assert (E3 : (len y <? min) = true) by (apply Z.ltb_lt; exact Hmin).
    rewrite E2, E3. cbn [andb]. rewrite endp_nil.
    apply best_scan_stay. exact H2.
  - apply Forall_cons in H1 as [Hb H1]. cbn [snd] in Hb.
    rewrite <- app_comm_cons. cbn [best_scan]. rewrite endp_cons.
    destruct (bool_decide (kind b = HOLE) && (len b >=? s) && (len b <? min)) eqn:E.
    + apply andb_prop in E as [E E3]. apply andb_prop in E as [E1 E2].
      apply bool_decide_eq_true in E1. apply Z.geb_le in E2.
      apply IH; [exact (Hb E1 E2)|exact H1|exact H2].
    + apply IH; [exact Hmin|exact H1|exact H2].
Qed.

Lemma worst_scan_stay r l s worst max :
  Forall (fun qb => kind qb.2 = HOLE -> s <= len qb.2 -> len qb.2 <= max) l ->
  worst_scan r l s worst max = worst.
Proof.
  revert r. induction l as [|[y b] l IH]; intros r Hl; [reflexivity|].
  apply Forall_cons in Hl as [Hb Hl]. cbn [snd] in Hb. cbn [worst_scan].
  destruct (bool_decide (kind b = HOLE) && (len b >=? s) && (len b >? max)) eqn:E.
  - apply andb_prop in E as [E E3]. apply andb_prop in E as [E1 E2].
    apply bool_decide_eq_true in E1. apply Z.geb_le in E2. apply Z.gtb_lt in E3.
    specialize (Hb E1 E2). lia.
  - apply IH. exact Hl.
Qed.

Lemma worst_scan_pick r l1 q y l2 s worst max :
  kind y = HOLE -> s <= len y -> max < len y ->
  Forall (fun qb => kind qb.2 = HOLE -> s <= len qb.2 -> len qb.2 < len y) l1 ->
  Forall (fun qb => kind qb.2 = HOLE -> s <= len qb.2 -> len qb.2 <= len y) l2 ->
  worst_scan r (l1 ++ (q, y) :: l2) s worst max = Some (endp r l1).
Proof.
  intros Hk Hs. revert r worst max.
  induction l1 as [|[p b] l1 IH]; intros r worst max Hmax H1 H2.
  - cbn [app worst_scan]. rewrite (bool_decide_eq_true_2 _ Hk).
    assert (E2 : (len y >=? s) = true) by (apply Z.geb_le; exact Hs).
    assert (E3 : (len y >? max) = true) by (apply Z.gtb_lt; exact Hmax).
    rewrite E2, E3. cbn [andb]. rewrite endp_nil.
    apply worst_scan_stay. exact H2.
  - apply Forall_cons in H1 as [Hb H1]. cbn [snd] in Hb.
    rewrite <- app_comm_cons. cbn [worst_scan]. rewrite endp_cons.
    destruct (bool_decide (kind b = HOLE) && (len b >=? s) && (len b >? max)) eqn:E.
    + apply andb_prop in E as [E E3]. apply andb_prop in E as [E1 E2].
      apply bool_decide_eq_true in E1. apply Z.geb_le in E2.
      apply IH; [exact (Hb E1 E2)|exact H1|exact H2].
    + apply IH; [exact Hmax|exact H1|exact H2].
Qed.

Lemma best_fit_rule st fuel size0 l1 y l2 :
  reachable st -> heap_algo st = BEST_FIT ->
  blocks st = l1 ++ y :: l2 ->
  kind y = HOLE -> ALIGN4 size0 <= len y ->
  (forall b, b ∈ l1 -> kind b = HOLE -> ALIGN4 size0 <= len b -> len y < len b) ->
  (forall b, b ∈ l2 -> kind b = HOLE -> ALIGN4 size0 <= len b -> len y <= len b) ->
  stack_head st <> None ->
  (length (node_stack st) <= fuel)%nat ->
  exists st',
    mavalloc_alloc fuel st size0 = Done (st', Some (offset y)) /\
    blocks st' = split_spec l1 y l2 (ALIGN4 size0).
Proof.
  intros Hr Halgo Hl Hk Hs Hbefore Hafter Hsh Hf.
  destruct (reachable_Inv _ Hr) as (hp & l & sp & HS & Hg).
  pose proof (Struct_length _ _ _ _ HS) as Hlen.
  rewrite (Struct_blocks _ _ _ _ HS) in Hl.
  destruct (blocks_cut _ _ _ _ Hl) as (L1 & q & L2 & -> & <- & <-).
  rewrite fmap_app, fmap_cons in Hg. cbn [snd] in Hg.
  unfold mavalloc_alloc. rewrite Halgo. unfold alloc_best_fit.
  rewrite (s_head _ _ _ _ HS).
  rewrite (best_fit_loop_scan st hp _ (ALIGN4 size0) fuel None _ (s_path _ _ _ _ HS))
    by lia.
  cbn [bind]. rewrite best_scan_pick; try assumption.
  - destruct (allocate_node_at _ _ _ _ _ _ _ (ALIGN4 size0) HS Hg Hk
                (conj (ALIGN4_nonneg size0) Hs) (ALIGN4_aligned size0) Hsh)
      as (st' & Hrun & Hb & _).
    exists st'. split; [exact Hrun|exact Hb].
  - pose proof (good_cap _ _ Hg) as Hcap.
    pose proof (tiles_mid _ _ _ _ _ (good_tiles _ _ Hg)) as (_ & _ & _ & Hlo & Hhi).
    assert (HM : SIZE_MOD = 18446744073709551616) by reflexivity.
    pose proof (good_cap4 _ _ Hg) as Hc4.
    assert (E : wadd (memory_arena_size st) 1 = memory_arena_size st + 1).
    { apply wadd_small.
      pose proof (Z.div_mod (memory_arena_size st) 4 ltac:(lia)). lia. }
    rewrite E. lia.
  - apply (Forall_blocks_nodes
             (fun b => kind b = HOLE -> ALIGN4 size0 <= len b -> len y < len b)).
    exact Hbefore.
  - apply (Forall_blocks_nodes
             (fun b => kind b = HOLE -> ALIGN4 size0 <= len b -> len y <= len b)).
    exact Hafter.
Qed.

(** Best fit takes the smallest FREE block that is large enough, and among
    several of that length the first: when the pool has a spare descriptor,
    the allocation returns the offset of that block and splits it. *)
Theorem best_fit_takes_smallest st fuel size0 l1 y l2 :
  reachable st -> heap_algo st = BEST_FIT ->
  blocks st = l1 ++ y :: l2 ->
  kind y = HOLE -> ALIGN4 size0 <= len y ->
  (forall b, b ∈ l1 -> kind b = HOLE -> ALIGN4 size0 <= len b -> len y < len b) ->
  (forall b, b ∈ l2 -> kind b = HOLE -> ALIGN4 size0 <= len b -> len y <= len b) ->
  stack_head st <> None ->
  (length (node_stack st) <= fuel)%nat ->
  exists st',
    mavalloc_alloc fuel st size0 = Done (st', Some (offset y)) /\
    blocks st' = split_spec l1 y l2 (ALIGN4 size0).
Proof. apply best_fit_rule. Qed.

Lemma worst_fit_rule st fuel size0 l1 y l2 :
  reachable st -> heap_algo st = WORST_FIT ->
  blocks st = l1 ++ y :: l2 ->
  kind y = HOLE -> ALIGN4 size0 <= len y -> 0 < len y ->
  (forall b, b ∈ l1 -> kind b = HOLE -> ALIGN4 size0 <= len b -> len b < len y) ->
  (forall b, b ∈ l2 -> kind b = HOLE -> ALIGN4 size0 <= len b -> len b <= len y) ->
  stack_head st <> None ->
  (length (node_stack st) <= fuel)%nat ->
  exists st',
    mavalloc_alloc fuel st size0 = Done (st', Some (offset y)) /\
    blocks st' = split_spec l1 y l2 (ALIGN4 size0).
Proof.
  intros Hr Halgo Hl Hk Hs Hpos Hbefore Hafter Hsh Hf.
  destruct (reachable_Inv _ Hr) as (hp & l & sp & HS & Hg).
  pose proof (Struct_length _ _ _ _ HS) as Hlen.
  rewrite (Struct_blocks _ _ _ _ HS) in Hl.
  destruct (blocks_cut _ _ _ _ Hl) as (L1 & q & L2 & -> & <- & <-).
  rewrite fmap_app, fmap_cons in Hg. cbn [snd] in Hg.
  unfold mavalloc_alloc. rewrite Halgo. unfold alloc_worst_fit.
  rewrite (s_head _ _ _ _ HS).
  rewrite (worst_fit_loop_scan st hp _ (ALIGN4 size0) fuel None _ (s_path _ _ _ _ HS))
    by lia.
  cbn [bind]. rewrite worst_scan_pick; try assumption.
  - destruct (allocate_node_at _ _ _ _ _ _ _ (ALIGN4 size0) HS Hg Hk
                (conj (ALIGN4_nonneg size0) Hs) (ALIGN4_aligned size0) Hsh)
      as (st' & Hrun & Hb & _).
    exists st'. split; [exact Hrun|exact Hb].
  - apply (Forall_blocks_nodes
             (fun b => kind b = HOLE -> ALIGN4 size0 <= len b -> len b < len y)).
    exact Hbefore.
  - apply (Forall_blocks_nodes
             (fun b => kind b = HOLE -> ALIGN4 size0 <= len b -> len b <= len y)).
    exact Hafter.
Qed.

(** Worst fit takes the largest FREE block that is large enough, and among
    several of that length the first, provided that block is not empty:
    when the pool has a spare descriptor, the allocation returns the offset
    of that block and splits it. *)
Theorem worst_fit_takes_largest st fuel size0 l1 y l2 :
  reachable st -> heap_algo st = WORST_FIT ->
  blocks st = l1 ++ y :: l2 ->
  kind y = HOLE -> ALIGN4 size0 <= len y -> 0 < len y ->
  (forall b, b ∈ l1 -> kind b = HOLE -> ALIGN4 size0 <= len b -> len b < len y) ->
  (forall b, b ∈ l2 -> kind b = HOLE -> ALIGN4 size0 <= len b -> len b <= len y) ->
  stack_head st <> None ->
  (length (node_stack st) <= fuel)%nat ->
  exists st',
    mavalloc_alloc fuel st size0 = Done (st', Some (offset y)) /\
    blocks st' = split_spec l1 y l2 (ALIGN4 size0).
Proof. apply worst_fit_rule. Qed.

(** ** The runs of the test suite are reachable *)

Lemma after_init_always_reachable size0 algorithm :
  0 <= size0 -> reachable (after_init size0 algorithm).
Proof.
  intros Hs. unfold after_init.
  destruct (mavalloc_init_returns size0 algorithm boot Hs) as (st & H).
  rewrite H. eapply reach_init. exact H.
Qed.

Lemma after_alloc_keeps_reachable st size0 :
  reachable st -> reachable (after_alloc st size0).
Proof.
  intros Hr. unfold after_alloc.
  destruct (mavalloc_alloc 300 st size0) as [[st' r]| |] eqn:E; try exact Hr.
  eapply reach_alloc; eassumption.
Qed.

Lemma after_free_keeps_reachable st ptr :
  reachable st -> reachable (after_free st ptr).
Proof.
  intros Hr. unfold after_free.
  destruct (mavalloc_free 300 st ptr) as [st'| |] eqn:E; try exact Hr.
  eapply reach_free; eassumption.
Qed.

Lemma foldl_alloc_reachable l st :
  reachable st -> reachable (foldl after_alloc st l).
Proof.
  revert st. induction l as [|s l IH]; intros st Hr; [exact Hr|].
  cbn [foldl]. apply IH, after_alloc_keeps_reachable, Hr.
Qed.

Lemma foldl_free_reachable l st :
  reachable st -> reachable (foldl after_free st l).
Proof.
  revert st. induction l as [|s l IH]; intros st Hr; [exact Hr|].
  cbn [foldl]. apply IH, after_free_keeps_reachable, Hr.
Qed.

Lemma fit_setup_reachable algorithm : reachable (fit_setup algorithm).
Proof.
  apply foldl_free_reachable, foldl_alloc_reachable,
    after_init_always_reachable. lia.
Qed.

Lemma fit_setup_blocks algorithm :
  blocks (fit_setup algorithm)
  = [mkBlock HOLE 0 200; mkBlock PROCESS 200 400; mkBlock HOLE 600 240;
     mkBlock PROCESS 840 400; mkBlock HOLE 1240 120; mkBlock PROCESS 1360 400;
     mkBlock HOLE 1760 80].
Proof. destruct algorithm; vm_compute; reflexivity. Qed.

Ltac all_blocks :=
  match goal with
  | |- forall b, b ∈ ?l -> @?P b => apply (proj1 (Forall_forall P l))
  end;
  change (ALIGN4 80) with 80;
  repeat constructor; cbn [kind len]; intros; first [discriminate | lia].

Lemma best_fit_takes_smallest_witness :
  exists st',
    mavalloc_alloc 200 (fit_setup BEST_FIT) 80 = Done (st', Some 1760) /\
    blocks st'
    = split_spec
        [mkBlock HOLE 0 200; mkBlock PROCESS 200 400; mkBlock HOLE 600 240;
         mkBlock PROCESS 840 400; mkBlock HOLE 1240 120; mkBlock PROCESS 1360 400]
        (mkBlock HOLE 1760 80) [] (ALIGN4 80).
Proof.
  apply (best_fit_takes_smallest (fit_setup BEST_FIT) 200 80
           [mkBlock HOLE 0 200; mkBlock PROCESS 200 400; mkBlock HOLE 600 240;
            mkBlock PROCESS 840 400; mkBlock HOLE 1240 120; mkBlock PROCESS 1360 400]
           (mkBlock HOLE 1760 80) [] (fit_setup_reachable BEST_FIT)).
  - vm_compute. reflexivity.
  - apply fit_setup_blocks.
  - reflexivity.
  - vm_compute. discriminate.
  - all_blocks.
  - all_blocks.
  - vm_compute. discriminate.
  - vm_compute. lia.
Defined.

Lemma worst_fit_takes_largest_witness :
  exists st',
    mavalloc_alloc 200 (fit_setup WORST_FIT) 80 = Done (st', Some 600) /\
    blocks st'
    = split_spec
        [mkBlock HOLE 0 200; mkBlock PROCESS 200 400] (mkBlock HOLE 600 240)
        [mkBlock PROCESS 840 400; mkBlock HOLE 1240 120; mkBlock PROCESS 1360 400;
         mkBlock HOLE 1760 80] (ALIGN4 80).
Proof.
  apply (worst_fit_takes_largest (fit_setup WORST_FIT) 200 80
           [mkBlock HOLE 0 200; mkBlock PROCESS 200 400] (mkBlock HOLE 600 240)
           [mkBlock PROCESS 840 400; mkBlock HOLE 1240 120; mkBlock PROCESS 1360 400;
            mkBlock HOLE 1760 80] (fit_setup_reachable WORST_FIT)).
  - vm_compute. reflexivity.
  - apply fit_setup_blocks.
  - reflexivity.
  - vm_compute. discriminate.
  - cbn. lia.
  - all_blocks.
  - all_blocks.
  - vm_compute. discriminate.
  - vm_compute. lia.
Defined.

(** ** The node array keeps its length *)

Lemma wr_length st p f st' :
  wr st p f = Done st' -> length (node_stack st') = length (node_stack st).
Proof.
  intros H. apply wr_Done in H as (n & _ & ->).
  cbn [node_stack with_nodes]. apply length_insert.
Qed.

Ltac len_steps :=
  repeat match goal with
         | H : bind ?m _ = Done _ |- _ =>
             let x := fresh "x" in
             let B := fresh "B" in
             apply bind_Done in H as (x & B & H)
         | H : (let '(_, _) := ?p in _) = Done _ |- _ => destruct p
         | H : (if ?c then _ else _) = Done _ |- _ => destruct c
         | H : match ?o with Some _ => _ | None => _ end = Done _ |- _ =>
             destruct o
         | H : Done _ = Done _ |- _ => apply Done_inj in H
         | H : (_, _) = (_, _) |- _ => injection H as ? ?
         | B : wr _ _ _ = Done _ |- _ => apply wr_length in B
         | B : wr_next _ _ _ = Done _ |- _ => apply wr_length in B
         | B : wr_type _ _ _ = Done _ |- _ => apply wr_length in B
         | B : wr_size _ _ _ = Done _ |- _ => apply wr_length in B
         | B : wr_address _ _ _ = Done _ |- _ => apply wr_length in B
         end;
  subst; cbn [node_stack with_nodes with_stack_head with_previous_node
              with_head_pointer] in *;
  try congruence.

Lemma node_free_length st p st' :
  node_free st p = Done st' -> length (node_stack st') = length (node_stack st).
Proof. unfold node_free. intros H. len_steps. Qed.

Lemma new_node_length st t a s st' r :
  new_node st t a s = Done (st', r) ->
  length (node_stack st') = length (node_stack st).
Proof. unfold new_node, node_malloc. intros H. len_steps. Qed.

Lemma allocate_node_length st hp s st' r :
  allocate_node st hp s = Done (st', r) ->
  length (node_stack st') = length (node_stack st).
Proof.
  unfold allocate_node. intros H. destruct hp as [hp|]; [|len_steps].
  apply bind_Done in H as (y & _ & H). apply bind_Done in H as (y' & _ & H).
  apply bind_Done in H as (a & _ & H). apply bind_Done in H as ([st1 new] & B & H).
  apply new_node_length in B. destruct new as [nw|]; [|len_steps].
  apply bind_Done in H as (y2 & _ & H). apply bind_Done in H as (y3 & _ & H).
  apply bind_Done in H as (a2 & _ & H). apply bind_Done in H as (st2 & B2 & H).
  assert (length (node_stack st2) = length (node_stack st1)).
  { clear H. destruct (wadd a2 s >=? memory_arena_size st1).
    - apply node_free_length in B2. exact B2.
    - apply bind_Done in B2 as (st3 & B3 & B2). apply wr_length in B3.
      apply bind_Done in B2 as (? & _ & B2). apply bind_Done in B2 as (? & _ & B2).
      apply bind_Done in B2 as (? & _ & B2). apply bind_Done in B2 as (st4 & B4 & B2).
      apply wr_length in B4.
      apply bind_Done in B2 as (? & _ & B2). apply bind_Done in B2 as (? & _ & B2).
      apply bind_Done in B2 as (s5 & _ & B2).
      destruct (s5 <=? 0).
      + apply bind_Done in B2 as (? & _ & B2). apply bind_Done in B2 as (st6 & B6 & B2).
        apply wr_length in B6.
        apply bind_Done in B2 as (? & _ & B2). apply bind_Done in B2 as (? & _ & B2).
        apply node_free_length in B2. congruence.
      + apply bind_Done in B2 as (? & _ & B2). apply wr_length in B2. congruence. }
  len_steps.
Qed.

Lemma mavalloc_alloc_length fuel st size0 st' r :
  mavalloc_alloc fuel st size0 = Done (st', r) ->
  length (node_stack st') = length (node_stack st).
Proof.
  unfold mavalloc_alloc, alloc_first_fit, alloc_next_fit, alloc_best_fit,
    alloc_worst_fit.
  intros H. destruct (heap_algo st), (head_pointer st) as [hp|];
    try (apply Done_inj in H; congruence).
  - apply bind_Done in H as ([R|] & _ & H).
    + apply allocate_node_length in H. exact H.
    + apply Done_inj in H. congruence.
  - apply bind_Done in H as (c & _ & H). apply bind_Done in H as ([R|] & _ & H).
    + apply allocate_node_length in H. exact H.
    + apply Done_inj in H. congruence.
  - apply bind_Done in H as (R & _ & H). apply allocate_node_length in H. exact H.
  - apply bind_Done in H as (R & _ & H). apply allocate_node_length in H. exact H.
Qed.

Lemma absorb_next_length st runner st' :
  absorb_next st runner = Done st' ->
  length (node_stack st') = length (node_stack st).
Proof.
  unfold absorb_next. intros H.
  apply bind_Done in H as (? & _ & H). apply bind_Done in H as (? & _ & H).
  apply bind_Done in H as (? & _ & H). apply bind_Done in H as (? & _ & H).
  apply bind_Done in H as (st1 & B1 & H). apply wr_length in B1.
  apply bind_Done in H as (? & _ & H).
  apply bind_Done in H as (st2 & B2 & H). apply wr_length in B2.
  apply node_free_length in H. congruence.
Qed.

Lemma absorb_free_next_length st runner st' :
  absorb_free_next st runner = Done st' ->
  length (node_stack st') = length (node_stack st).
Proof.
  unfold absorb_free_next. intros H.
  apply bind_Done in H as ([y|] & _ & H).
  - apply bind_Done in H as (t & _ & H).
    destruct (decide (t = HOLE)).
    + apply absorb_next_length in H. exact H.
    + apply Done_inj in H. congruence.
  - apply Done_inj in H. congruence.
Qed.

Lemma mavalloc_free_length fuel st ptr st' :
  mavalloc_free fuel st ptr = Done st' ->
  length (node_stack st') = length (node_stack st).
Proof.
  unfold mavalloc_free. intros H. destruct (head_pointer st) as [hp|];
    [|apply Done_inj in H; congruence].
  apply bind_Done in H as ([runner|] & _ & H); [|apply Done_inj in H; congruence].
  apply bind_Done in H as (t & _ & H).
  apply bind_Done in H as ([st1 r1] & B & H).
  apply absorb_free_next_length in H.
  assert (length (node_stack st1) = length (node_stack st)); [|congruence].
  clear H. destruct (bool_decide (t = HOLE) && negb (bool_decide (runner = hp))).
  - apply bind_Done in B as (st2 & B2 & B). apply absorb_next_length in B2.
    apply Done_inj in B. congruence.
  - apply bind_Done in B as (? & _ & B). apply bind_Done in B as (? & _ & B).
    apply bind_Done in B as (st2 & B2 & B). apply wr_length in B2.
    apply Done_inj in B. congruence.
Qed.

Lemma mavalloc_init_length size0 algorithm malloc_ok st0 st :
  mavalloc_init size0 algorithm malloc_ok st0 = Done (st, 0) ->
  length (node_stack st) = NODE_AMOUNT.
Proof.
  unfold mavalloc_init.
  destruct (size0 <? 0); [intros [=]|].
  destruct malloc_ok; cbn [negb]; [|intros [=]].
  intros H. apply bind_Done in H as ([st1 hd] & B1 & H).
  apply new_node_length in B1. cbn [node_stack] in B1.
  rewrite node_stack_init_length in B1.
  destruct hd as [hp|]; [|apply Done_inj in H; discriminate H].
  apply bind_Done in H as ([st2 first] & B2 & H).
  apply new_node_length in B2.
  cbn [node_stack with_head_pointer] in B2.
  apply bind_Done in H as (st3 & B3 & H). apply wr_length in B3.
  destruct first as [f|]; apply Done_inj in H; [|discriminate H].
  injection H as <-. cbn [node_stack with_previous_node]. congruence.
Qed.

(** The node array of a reachable state has [NODE_AMOUNT] nodes. *)
Lemma reachable_length st :
  reachable st -> length (node_stack st) = NODE_AMOUNT.
Proof.
  induction 1 as [size0 algorithm malloc_ok st0 st Hrun
                 |st fuel size0 st' r _ IH Hrun
                 |st fuel ptr st' _ IH Hrun].
  - exact (mavalloc_init_length _ _ _ _ _ Hrun).
  - rewrite (mavalloc_alloc_length _ _ _ _ _ Hrun). exact IH.
  - rewrite (mavalloc_free_length _ _ _ _ Hrun). exact IH.
Qed.

(** The list of a reachable state has at most [NODE_AMOUNT - 1] = 199
    blocks: the sentinel and every block hold one node of the array each.
    So [mavalloc_size] never returns more than 199. *)
Theorem blocks_bounded st :
  reachable st ->
  (length (blocks st) <= NODE_AMOUNT - 1)%nat /\
  mavalloc_size NODE_AMOUNT st = Done (Z.of_nat (length (blocks st))).
Proof.
  intros Hr. destruct (reachable_Inv _ Hr) as (hp & l & sp & HS & _).
  pose proof (Struct_length _ _ _ _ HS) as Hlen.
  pose proof (reachable_length _ Hr) as Hn.
  split.
  - rewrite (Struct_blocks _ _ _ _ HS), length_fmap. lia.
  - unfold mavalloc_size. rewrite (s_head _ _ _ _ HS).
    rewrite (size_loop_path st hp l NODE_AMOUNT 0 (s_path _ _ _ _ HS)) by lia.
    rewrite (Struct_blocks _ _ _ _ HS), length_fmap. reflexivity.
Qed.

Lemma blocks_bounded_witness :
  (length (blocks run_plain) <= NODE_AMOUNT - 1)%nat.
Proof. exact (proj1 (blocks_bounded run_plain run_plain_reachable)). Defined.

(** ** An empty pool *)

Lemma allocate_node_no_spare st hp l R s :
  Struct st hp l [] -> good (memory_arena_size st) l.*2 ->
  R ∈ hp :: l.*1 -> fits st R s -> 0 <= s -> s mod 4 = 0 ->
  allocate_node st (Some R) s = Done (st, None).
Proof.
  intros HS Hg HR (nR & y & nY & L & HnR & Hy & HnY & HtY & HsY & HsL) Hs0 Hs4.
  destruct (live_split _ _ _ _ _ _ (s_path _ _ _ _ HS) HR HnR Hy)
    as (l1 & by0 & l2 & -> & ->).
  pose proof (s_path _ _ _ _ HS) as Hpath.
  apply path_app_cons in Hpath as (_ & Hdy & _).
  apply dat_Some in Hdy as (nY' & HnY' & HbY).
  assert (nY' = nY) as -> by congruence. clear HnY'.
  apply block_of_Some in HbY as (HtY' & HaY & HsY').
  assert (Hk : kind by0 = HOLE) by congruence.
  assert (HL : len by0 = L) by congruence. subst L.
  rewrite fmap_app, fmap_cons in Hg. cbn [snd] in Hg.
  destruct (split_good _ _ _ _ _ Hg Hk (conj Hs0 HsL) Hs4) as (Hend & _).
  assert (Hend' : (wadd (offset by0) s >=? memory_arena_size st) = true -> l2 = []).
  { intros E. apply Hend in E. apply fmap_nil_inv in E. exact E. }
  exact (allocate_node_list _ _ _ _ _ _ _ _ HS Hs4 Hend').
Qed.

(** When the pool of descriptors is empty, an allocation under first, best
    or worst fit returns failure and leaves the state as it is, whether a
    FREE block is large enough or not. *)
Theorem alloc_fails_without_descriptor st fuel size0 :
  reachable st -> heap_algo st <> NEXT_FIT ->
  stack_head st = None -> (NODE_AMOUNT <= fuel)%nat ->
  mavalloc_alloc fuel st size0 = Done (st, None).
Proof.
  intros Hr Halgo Hsh Hf.
  destruct (reachable_Inv _ Hr) as (hp & l & sp & HS & Hg).
  assert (sp = []) as ->.
  { pose proof (s_pool _ _ _ _ HS) as Hp. destruct sp as [|t sp]; [reflexivity|].
    cbn in Hp. destruct Hp as (E & _). congruence. }
  pose proof (Struct_length _ _ _ _ HS) as Hlen.
  pose proof (reachable_length _ Hr) as Hn.
  pose proof (s_path _ _ _ _ HS) as Hpath.
  pose proof (ALIGN4_nonneg size0) as Hs0.
  pose proof (ALIGN4_aligned size0) as Hs4.
  assert (Hhp : hp ∈ hp :: l.*1) by (apply elem_of_cons; left; reflexivity).
  unfold mavalloc_alloc.
  destruct (heap_algo st); [| contradiction | |].
  - unfold alloc_first_fit. rewrite (s_head _ _ _ _ HS).
    destruct l as [|[y b] l].
    { exfalso. exact (good_nonempty _ _ Hg eq_refl). }
    destruct (first_fit_loop_returns st hp y b l (ALIGN4 size0) fuel Hpath)
      as (res & Hres); [simpl in Hlen; lia|].
    rewrite Hres. cbn [bind]. destruct res as [R|]; [|reflexivity].
    destruct (first_fit_loop_sound _ _ _ _ _ _ _ _ HS Hhp Hres) as (HR & Hfit).
    eapply allocate_node_no_spare; eassumption.
  - unfold alloc_best_fit. rewrite (s_head _ _ _ _ HS).
    destruct (best_fit_loop_returns st hp l (ALIGN4 size0) fuel None
                (wadd (memory_arena_size st) 1) Hpath)
      as (res & Hres); [lia|].
    rewrite Hres. cbn [bind]. destruct res as [R|]; [|reflexivity].
    destruct (best_fit_loop_sound _ _ _ _ _ _ _ None _ _ HS Hhp
                ltac:(intros ? [=]) Hres R eq_refl) as (HR & Hfit).
    eapply allocate_node_no_spare; eassumption.
  - unfold alloc_worst_fit. rewrite (s_head _ _ _ _ HS).
    destruct (worst_fit_loop_returns st hp l (ALIGN4 size0) fuel None 0 Hpath)
      as (res & Hres); [lia|].
    rewrite Hres. cbn [bind]. destruct res as [R|]; [|reflexivity].
    destruct (worst_fit_loop_sound _ _ _ _ _ _ _ None _ _ HS Hhp
                ltac:(intros ? [=]) Hres R eq_refl) as (HR & Hfit).
    eapply allocate_node_no_spare; eassumption.
Qed.

Lemma run_full_reachable : reachable run_full.
Proof.
  unfold run_full. generalize 198%nat. intros n. induction n as [|n IH].
  - apply after_init_always_reachable. lia.
  - cbn [Nat.iter]. apply after_alloc_keeps_reachable. exact IH.
Qed.

Lemma alloc_fails_without_descriptor_witness :
  mkBlock HOLE 792 8 ∈ blocks run_full /\
  mavalloc_alloc 200 run_full 4 = Done (run_full, None).
Proof.
  split.
  - vm_compute. apply list_elem_of_In. repeat (first [left; reflexivity | right]).
  - apply (alloc_fails_without_descriptor run_full 200 4 run_full_reachable).
    + vm_compute. discriminate.
    + vm_compute. reflexivity.
    + vm_compute. lia.
Defined.

(** ** Next fit with a cursor on the list *)

Lemma path_suffix h p l1 l2 e :
  path h p (l1 ++ l2) e -> path h (endp p l1) l2 e.
Proof.
  revert p. induction l1 as [|[q b] l1 IH]; intros p H.
  - rewrite endp_nil. exact H.
  - rewrite <- app_comm_cons in H. cbn [path fst snd] in H.
    rewrite endp_cons. apply IH. tauto.
Qed.

Lemma path_next_some h p q b l e :
  path h p ((q, b) :: l) e -> exists n, h !! p = Some n /\ next n = Some q.
Proof. cbn [path fst]. intros (H & _). apply nxt_Some in H. exact H. Qed.

(** One turn of the loop of next fit over a block the scan passes. *)
Lemma next_fit_loop_pass st r q b nq s fuel :
  (exists nr, node_stack st !! r = Some nr /\ next nr = Some q) ->
  dat (node_stack st) q = Some b ->
  (kind b = HOLE -> len b < s) ->
  node_stack st !! q = Some nq ->
  next_fit_loop (S fuel) st r s =
  let* runner :=
    match next nq with
    | None => defined (head_pointer st)
    | Some _ => Done q
    end in
  if decide (Some runner = previous_node st) then Done None
  else next_fit_loop fuel st runner s.
Proof.
  intros (nr & Hr & Hnr) Hd Hskip Hq.
  apply dat_Some in Hd as (nq' & Hnq' & Hb).
  assert (nq' = nq) as -> by congruence.
  apply block_of_Some in Hb as (Ht & _ & Hs).
  cbn [next_fit_loop]. unfold skip_cond.
  rewrite (rd_next_eq _ _ _ Hr), Hnr. cbn [bind defined].
  rewrite (rd_type_eq _ _ _ _ Hq Ht). cbn [bind].
  destruct (decide (kind b = PROCESS)) as [E|E]; cbn [bind defined].
  - rewrite (rd_next_eq _ _ _ Hq). cbn [bind]. reflexivity.
  - rewrite (rd_size_eq _ _ _ _ Hq Hs). cbn [bind].
    assert (E' : (len b <? s) = true).
    { apply Z.ltb_lt, Hskip, kind_not_PROCESS, E. }
    rewrite E'. cbn [bind defined].
    rewrite (rd_next_eq _ _ _ Hq). cbn [bind]. reflexivity.
Qed.

Lemma next_fit_loop_found st c r ta x bx tb e s fuel :
  previous_node st = Some c ->
  path (node_stack st) r (ta ++ (x, bx) :: tb) e ->
  Forall (fun qb => kind qb.2 = HOLE -> len qb.2 < s) ta ->
  c ∉ ta.*1 ->
  kind bx = HOLE -> s <= len bx ->
  (length ta < fuel)%nat ->
  next_fit_loop fuel st r s = Done (Some (endp r ta)).
Proof.
  intros Hprev. revert r fuel.
  induction ta as [|[q b] ta IH]; intros r fuel Hpath Hta Hc Hk Hs Hf;
    (destruct fuel as [|fuel]; [simpl in Hf; lia|]).
  - cbn [app path fst snd] in Hpath. destruct Hpath as (H1 & H2 & _).
    apply nxt_Some in H1 as (nr & Hr & Hnr).
    apply dat_Some in H2 as (nx & Hnx & Hbx).
    apply block_of_Some in Hbx as (Htx & _ & Hsx).
    cbn [next_fit_loop]. unfold skip_cond.
    rewrite (rd_next_eq _ _ _ Hr), Hnr. cbn [bind defined].
    rewrite (rd_type_eq _ _ _ _ Hnx Htx). cbn [bind].
    destruct (decide (kind bx = PROCESS)) as [E|_]; [congruence|].
    rewrite (rd_size_eq _ _ _ _ Hnx Hsx). cbn [bind].
    assert (E : (len bx <? s) = false) by (apply Z.ltb_ge; exact Hs).
    rewrite E. reflexivity.
  - rewrite <- app_comm_cons in Hpath.
    pose proof (path_next_some _ _ _ _ _ _ Hpath) as Hr.
    cbn [path fst snd] in Hpath. destruct Hpath as (_ & H2 & H3).
    apply Forall_cons in Hta as [Hb Hta]. cbn [snd] in Hb.
    rewrite fmap_cons in Hc. cbn [fst] in Hc.
    apply not_elem_of_cons in Hc as [Hcq Hc].
    pose proof H2 as H2'. apply dat_Some in H2' as (nq & Hnq & _).
    assert (Hnn : exists z, next nq = Some z).
    { destruct ta as [|[z bz] ta]; cbn [app] in H3;
        apply path_next_some in H3 as (n' & Hn' & Hz);
        eexists; rewrite <- Hz; congruence. }
    destruct Hnn as (z & Hz).
    rewrite (next_fit_loop_pass st r q b nq s fuel Hr H2 Hb Hnq).
    rewrite Hz, Hprev. cbn [bind].
    destruct (decide (Some q = Some c)) as [E|_]; [congruence|].
    rewrite endp_cons. apply IH; try assumption. simpl in Hf. lia.
Qed.

(** The scan reaches the end of the list and goes on from the head. *)
Lemma next_fit_loop_wrap st c hp r t0 ql bl s fuel :
  previous_node st = Some c -> head_pointer st = Some hp ->
  path (node_stack st) r (t0 ++ [(ql, bl)]) None ->
  Forall (fun qb => kind qb.2 = HOLE -> len qb.2 < s) (t0 ++ [(ql, bl)]) ->
  c ∉ t0.*1 ->
  next_fit_loop (S (length t0) + fuel) st r s =
  if decide (Some hp = Some c) then Done None else next_fit_loop fuel st hp s.
Proof.
  intros Hprev Hhp. revert r.
  induction t0 as [|[q b] t0 IH]; intros r Hpath Hskip Hc.
  - cbn [app] in Hpath, Hskip.
    pose proof (path_next_some _ _ _ _ _ _ Hpath) as Hr.
    cbn [path fst snd] in Hpath. destruct Hpath as (_ & H2 & H3).
    apply Forall_cons in Hskip as [Hb _]. cbn [snd] in Hb.
    pose proof H2 as H2'. apply dat_Some in H2' as (nq & Hnq & _).
    apply nxt_Some in H3 as (n' & Hn' & Hz).
    assert (n' = nq) as -> by congruence.
    cbn [length Nat.add].
    rewrite (next_fit_loop_pass st r ql bl nq s fuel Hr H2 Hb Hnq).
    rewrite Hz, Hhp, Hprev. cbn [bind defined]. reflexivity.
  - rewrite <- app_comm_cons in Hpath, Hskip.
    pose proof (path_next_some _ _ _ _ _ _ Hpath) as Hr.
    cbn [path fst snd] in Hpath. destruct Hpath as (_ & H2 & H3).
    apply Forall_cons in Hskip as [Hb Hskip]. cbn [snd] in Hb.
    rewrite fmap_cons in Hc. cbn [fst] in Hc.
    apply not_elem_of_cons in Hc as [Hcq Hc].
    pose proof H2 as H2'. apply dat_Some in H2' as (nq & Hnq & _).
    assert (Hnn : exists z, next nq = Some z).
    { destruct t0 as [|[z bz] t0]; cbn [app] in H3;
        apply path_next_some in H3 as (n' & Hn' & Hz);
        eexists; rewrite <- Hz; congruence. }
    destruct Hnn as (z & Hz).
    cbn [length Nat.add].
    rewrite (next_fit_loop_pass st r q b nq s _ Hr H2 Hb Hnq).
    rewrite Hz, Hprev. cbn [bind].
    destruct (decide (Some q = Some c)) as [E|_]; [congruence|].
    apply IH; assumption.
Qed.

(** The scan comes back to the cursor. *)
Lemma next_fit_loop_stop st c r la0 bc z s fuel :
  previous_node st = Some c ->
  path (node_stack st) r (la0 ++ [(c, bc)]) (Some z) ->
  Forall (fun qb => kind qb.2 = HOLE -> len qb.2 < s) (la0 ++ [(c, bc)]) ->
  c ∉ la0.*1 ->
  (length la0 < fuel)%nat ->
  next_fit_loop fuel st r s = Done None.
Proof.
  intros Hprev. revert r fuel.
  induction la0 as [|[q b] la0 IH]; intros r fuel Hpath Hskip Hc Hf;
    (destruct fuel as [|fuel]; [simpl in Hf; lia|]).
  - cbn [app] in Hpath, Hskip.
    pose proof (path_next_some _ _ _ _ _ _ Hpath) as Hr.
    cbn [path fst snd] in Hpath. destruct Hpath as (_ & H2 & H3).
    apply Forall_cons in Hskip as [Hb _]. cbn [snd] in Hb.
    pose proof H2 as H2'. apply dat_Some in H2' as (nq & Hnq & _).
    apply nxt_Some in H3 as (n' & Hn' & Hz).
    assert (n' = nq) as -> by congruence.
    rewrite (next_fit_loop_pass st r c bc nq s fuel Hr H2 Hb Hnq).
    rewrite Hz, Hprev. cbn [bind].
    destruct (decide (Some c = Some c)) as [_|E]; [reflexivity|congruence].
  - rewrite <- app_comm_cons in Hpath, Hskip.
    pose proof (path_next_some _ _ _ _ _ _ Hpath) as Hr.
    cbn [path fst snd] in Hpath. destruct Hpath as (_ & H2 & H3).
    apply Forall_cons in Hskip as [Hb Hskip]. cbn [snd] in Hb.
    rewrite fmap_cons in Hc. cbn [fst] in Hc.
    apply not_elem_of_cons in Hc as [Hcq Hc].
    pose proof H2 as H2'. apply dat_Some in H2' as (nq & Hnq & _).
    assert (Hnn : exists z, next nq = Some z).
    { destruct la0 as [|[z' bz] la0]; cbn [app] in H3;
        apply path_next_some in H3 as (n' & Hn' & Hz);
        eexists; rewrite <- Hz; congruence. }
    destruct Hnn as (z' & Hz).
    rewrite (next_fit_loop_pass st r q b nq s fuel Hr H2 Hb Hnq).
    rewrite Hz, Hprev. cbn [bind].
    destruct (decide (Some q = Some c)) as [E|_]; [congruence|].
    apply IH; try assumption. simpl in Hf. lia.
Qed.

Lemma endp_app p (l1 l2 : list (nat * Block)) :
  endp p (l1 ++ l2) = endp (endp p l1) l2.
Proof.
  revert p. induction l1 as [|[q b] l1 IH]; intros p.
  - rewrite endp_nil. reflexivity.
  - rewrite <- app_comm_cons, !endp_cons. apply IH.
Qed.

Lemma allocate_node_at_cursor st hp l1 q y l2 sp s :
  Struct st hp (l1 ++ (q, y) :: l2) sp ->
  good (memory_arena_size st) (l1.*2 ++ y :: l2.*2) ->
  kind y = HOLE -> 0 <= s <= len y -> s mod 4 = 0 ->
  stack_head st <> None ->
  exists st',
    allocate_node st (Some (endp hp l1)) s = Done (st', Some (offset y)) /\
    blocks st' = split_spec l1.*2 y l2.*2 s /\
    previous_node st' = previous_node st /\
    live st' !! length l1 = Some (endp hp l1).
Proof.
  intros HS Hg Hk Hs Hs4 Hsh.
  destruct (split_good _ _ _ _ _ Hg Hk Hs Hs4) as (Hend & Hbool & _ & _).
  assert (Hend' : (wadd (offset y) s >=? memory_arena_size st) = true -> l2 = []).
  { intros E. apply Hend in E. apply fmap_nil_inv in E. exact E. }
  pose proof (allocate_node_list _ _ _ _ _ _ _ _ HS Hs4 Hend') as Hlist.
  destruct sp as [|t sp0].
  { pose proof (s_pool _ _ _ _ HS) as Hp. cbn in Hp. contradiction. }
  destruct Hlist as (st1 & Hrun1 & _ & Hprev & HS1).
  rewrite Hbool in HS1.
  exists st1. split; [exact Hrun1|].
  assert (Hadd : wadd (offset y) s = offset y + s).
  { apply wadd_small. pose proof (good_cap _ _ Hg).
    pose proof (tiles_mid _ _ _ _ _ (good_tiles _ _ Hg)). lia. }
  assert (Hsub : wsub (len y) s = len y - s).
  { apply wsub_small. pose proof (good_cap _ _ Hg).
    pose proof (tiles_mid _ _ _ _ _ (good_tiles _ _ Hg)). lia. }
  assert (Hlook : forall (x : nat * Block) k,
             (hp :: (l1 ++ x :: k).*1) !! length l1 = Some (endp hp l1)).
  { intros x k.
    rewrite (endp_take hp (l1 ++ x :: k) (length l1) x)
      by (apply list_lookup_middle; reflexivity).
    rewrite take_app_length. reflexivity. }
  unfold split_spec. destruct (len y - s =? 0).
  - rewrite (Struct_blocks _ _ _ _ HS1), (Struct_live _ _ _ _ HS1).
    split; [rewrite fmap_app, fmap_cons; reflexivity|].
    split; [exact Hprev|apply Hlook].
  - rewrite (Struct_blocks _ _ _ _ HS1), (Struct_live _ _ _ _ HS1).
    split; [rewrite fmap_app, !fmap_cons; cbn [snd];
            rewrite Hadd, Hsub, Hk; reflexivity|].
    split; [exact Hprev|apply Hlook].
Qed.

(** The cursor, as a node of the list: the list cut in front of block [i]. *)
Lemma cursor_cut st hp l sp i :
  Struct st hp l sp -> cursor_at st i ->
  exists Lc T c,
    l = Lc ++ T /\ length Lc = i /\ T <> [] /\
    previous_node st = Some c /\ c = endp hp Lc.
Proof.
  intros HS (Hi & c & Hprev & Hlive).
  rewrite (Struct_blocks _ _ _ _ HS), length_fmap in Hi.
  rewrite (Struct_live _ _ _ _ HS) in Hlive.
  destruct (lookup_lt_is_Some_2 l i Hi) as (x & Hx).
  rewrite (endp_take hp l i x Hx) in Hlive. injection Hlive as <-.
  exists (take i l), (drop i l), (endp hp (take i l)).
  split; [symmetry; apply take_drop|].
  split; [rewrite length_take; lia|].
  split; [|split; [exact Hprev|reflexivity]].
  intros E. apply (f_equal length) in E. rewrite length_drop in E. cbn in E. lia.
Qed.

(** Nodes of the list after the cursor are not the cursor. *)
Lemma cursor_not_later hp (Lc M : list (nat * Block)) :
  NoDup (hp :: (Lc ++ M).*1) -> endp hp Lc ∉ M.*1.
Proof.
  intros Hnd Hin. rewrite fmap_app in Hnd.
  rewrite app_comm_cons in Hnd.
  apply (NoDup_app_disj _ _ _ Hnd (endp_elem hp Lc)). exact Hin.
Qed.

Lemma next_fit_none st fuel size0 i :
  reachable st -> heap_algo st = NEXT_FIT -> cursor_at st i ->
  (forall b, b ∈ blocks st -> kind b = HOLE -> len b < ALIGN4 size0) ->
  (NODE_AMOUNT < fuel)%nat ->
  mavalloc_alloc fuel st size0 = Done (st, None).
Proof.
  intros Hr Halgo Hcur Hsmall Hf.
  destruct (reachable_Inv _ Hr) as (hp & l & sp & HS & Hg).
  pose proof (Struct_length _ _ _ _ HS) as Hlen.
  pose proof (reachable_length _ Hr) as Hn.
  destruct (cursor_cut _ _ _ _ _ HS Hcur) as (Lc & T & c & -> & Hi & HT & Hprev & Hc).
  pose proof (s_nodup _ _ _ _ HS) as Hnd. apply NoDup_app in Hnd as (Hnd & _).
  pose proof (s_path _ _ _ _ HS) as Hpath.
  rewrite (Struct_blocks _ _ _ _ HS) in Hsmall.
  assert (Hskip : Forall (fun qb : nat * Block =>
                            kind qb.2 = HOLE -> len qb.2 < ALIGN4 size0) (Lc ++ T)).
  { apply (Forall_blocks_nodes
             (fun b => kind b = HOLE -> len b < ALIGN4 size0)). exact Hsmall. }
  apply Forall_app in Hskip as (HskipL & HskipT).
  rewrite length_app in Hlen.
  unfold mavalloc_alloc. rewrite Halgo. unfold alloc_next_fit.
  rewrite (s_head _ _ _ _ HS), Hprev. cbn [defined bind].
  destruct T as [|xl T0 _] using rev_ind; [contradiction|]. destruct xl as [ql bl].
  rewrite length_app in Hlen. cbn [length] in Hlen.
  replace fuel with (S (length T0) + (fuel - S (length T0)))%nat by lia.
  rewrite (next_fit_loop_wrap st c hp c T0 ql bl (ALIGN4 size0) _ Hprev
             (s_head _ _ _ _ HS)).
  - destruct (decide (Some hp = Some c)) as [E|E]; [reflexivity|].
    destruct Lc as [|xc La0 _] using rev_ind.
    { rewrite endp_nil in Hc. congruence. }
    destruct xc as [c' bc]. rewrite endp_snoc in Hc. subst c'.
    assert (Hz : exists z, path (node_stack st) hp (La0 ++ [(c, bc)]) (Some z)).
    { destruct T0 as [|[z bz] T0]; cbn [app] in Hpath.
      - exists ql. apply path_app_cons in Hpath. tauto.
      - exists z. apply path_app_cons in Hpath. tauto. }
    destruct Hz as (z & Hz).
    rewrite (next_fit_loop_stop st c hp La0 bc z (ALIGN4 size0) _ Hprev Hz HskipL).
    + reflexivity.
    + rewrite <- app_assoc, fmap_app in Hnd. rewrite app_comm_cons in Hnd.
      apply NoDup_app in Hnd as (_ & Hdis & _).
      intros Hin. apply (Hdis c); [right; exact Hin|].
      rewrite fmap_app, fmap_cons. apply elem_of_app. left.
      apply elem_of_cons. left. reflexivity.
    + rewrite length_app in Hlen. cbn [length] in Hlen. lia.
  - subst c. apply path_suffix. exact Hpath.
  - exact HskipT.
  - subst c. intros Hin.
    apply (cursor_not_later hp Lc (T0 ++ [(ql, bl)]) Hnd).
    rewrite fmap_app. apply elem_of_app. left. exact Hin.
Qed.

(** Under next fit with the cursor on the list, a request that no FREE block
    can hold returns failure and leaves the state as it is. *)
Theorem next_fit_exhausted st fuel size0 i :
  reachable st -> heap_algo st = NEXT_FIT -> cursor_at st i ->
  (forall b, b ∈ blocks st -> kind b = HOLE -> len b < ALIGN4 size0) ->
  (NODE_AMOUNT < fuel)%nat ->
  mavalloc_alloc fuel st size0 = Done (st, None).
Proof. apply next_fit_none. Qed.

Lemma alloc_next_fit_at st hp L1 q y L2 sp s fuel c :
  Struct st hp (L1 ++ (q, y) :: L2) sp ->
  good (memory_arena_size st) (L1.*2 ++ y :: L2.*2) ->
  kind y = HOLE -> 0 <= s <= len y -> s mod 4 = 0 ->
  stack_head st <> None ->
  previous_node st = Some c ->
  next_fit_loop fuel st c s = Done (Some (endp hp L1)) ->
  exists st',
    alloc_next_fit fuel st s = Done (st', Some (offset y)) /\
    blocks st' = split_spec L1.*2 y L2.*2 s /\
    cursor_at st' (length L1.*2).
Proof.
  intros HS Hg Hk Hs Hs4 Hsh Hprev Hloop.
  unfold alloc_next_fit. rewrite (s_head _ _ _ _ HS), Hprev. cbn [defined bind].
  rewrite Hloop. cbn [bind].
  set (R := endp hp L1) in *.
  assert (HR : R ∈ (hp :: (L1 ++ (q, y) :: L2).*1) ++ sp).
  { apply elem_of_app. left. rewrite fmap_app, app_comm_cons.
    apply elem_of_app. left. apply endp_elem. }
  pose proof (Struct_with_prev _ _ _ _ R HS HR) as HS2.
  destruct (allocate_node_at_cursor (with_previous_node st (Some R)) hp L1 q y L2 sp s
              HS2 Hg Hk Hs Hs4 Hsh)
    as (st' & Hrun & Hb & Hp & Hlive).
  exists st'. split; [exact Hrun|]. split; [exact Hb|].
  split.
  - rewrite Hb. unfold split_spec. rewrite length_app. cbn [length]. lia.
  - exists R. split; [rewrite Hp; reflexivity|].
    rewrite length_fmap. exact Hlive.
Qed.

(** The scan of next fit from a cursor on the list: the node it stops at. *)
Lemma next_fit_scan st hp l sp fuel s i l1 y l2 :
  Struct st hp l sp -> (length (node_stack st) < fuel)%nat ->
  cursor_at st i ->
  l.*2 = l1 ++ y :: l2 -> kind y = HOLE -> s <= len y ->
  ((i <= length l1)%nat /\
   (forall b, b ∈ drop i l1 -> kind b = HOLE -> len b < s)) \/
  ((length l1 < i)%nat /\
   (forall b, b ∈ l1 -> kind b = HOLE -> len b < s) /\
   (forall b, b ∈ drop (i - length l1 - 1) l2 -> kind b = HOLE -> len b < s)) ->
  exists L1 q L2 c,
    l = L1 ++ (q, y) :: L2 /\ L1.*2 = l1 /\ L2.*2 = l2 /\
    previous_node st = Some c /\
    next_fit_loop fuel st c s = Done (Some (endp hp L1)).
Proof.
  intros HS Hf Hcur Hl Hk Hs Hfirst.
  destruct (cursor_cut _ _ _ _ _ HS Hcur) as (Lc & T & c & -> & Hi & HT & Hprev & Hc).
  destruct (blocks_cut _ _ _ _ Hl) as (L1 & q & L2 & Hcut & <- & <-).
  rewrite length_fmap in Hfirst.
  exists L1, q, L2, c. split; [exact Hcut|]. split; [reflexivity|].
  split; [reflexivity|]. split; [exact Hprev|].
  pose proof HS as HS'. rewrite Hcut in HS'.
  pose proof (Struct_length _ _ _ _ HS') as Hlen.
  rewrite length_app in Hlen. cbn [length] in Hlen.
  pose proof (s_nodup _ _ _ _ HS) as Hnd. apply NoDup_app in Hnd as (Hnd & _).
  pose proof (s_nodup _ _ _ _ HS') as Hnd'. apply NoDup_app in Hnd' as (Hnd' & _).
  assert (Hcases : (exists Ta, L1 = Lc ++ Ta /\ T = Ta ++ (q, y) :: L2) \/
                   (exists M, Lc = L1 ++ (q, y) :: M /\ L2 = M ++ T)).
  { pose proof Hcut as Hcut'.
    apply app_eq_app in Hcut' as (l0 & [(E1 & E2)|(E1 & E2)]).
    - destruct l0 as [|x0 M].
      + left. exists []. rewrite app_nil_r in E1. cbn [app] in E2.
        split; [rewrite app_nil_r; congruence|cbn [app]; congruence].
      + right. exists M. cbn [app] in E2. injection E2 as <- ->.
        split; [exact E1|reflexivity].
    - left. exists l0. split; assumption. }
  destruct Hcases as [(Ta & E1 & E2)|(M & E1 & E2)].
  - (* the block is at or after the cursor *)
    subst L1 T.
    assert (Hsmall : Forall (fun qb : nat * Block =>
                               kind qb.2 = HOLE -> len qb.2 < s) Ta).
    { apply (Forall_blocks_nodes (fun b => kind b = HOLE -> len b < s)).
      destruct Hfirst as [(_ & H)|(H & _)].
      - intros b Hb. apply H. rewrite <- Hi, <- fmap_drop, drop_app_length.
        exact Hb.
      - rewrite length_app in H. lia. }
    rewrite endp_app, <- Hc.
    apply (next_fit_loop_found st c c Ta q y L2 None s fuel Hprev);
      try assumption.
    + subst c. apply path_suffix. exact (s_path _ _ _ _ HS).
    + subst c. intros Hin.
      apply (cursor_not_later hp Lc (Ta ++ (q, y) :: L2) Hnd).
      rewrite fmap_app. apply elem_of_app. left. exact Hin.
    + rewrite length_app in Hlen. lia.
  - (* the block is before the cursor: the scan goes round the end *)
    subst Lc L2.
    rewrite length_app in Hi. cbn [length] in Hi.
    destruct Hfirst as [(H & _)|(_ & H1 & H2)]; [lia|].
    assert (Hsmall1 : Forall (fun qb : nat * Block =>
                                kind qb.2 = HOLE -> len qb.2 < s) L1).
    { apply (Forall_blocks_nodes (fun b => kind b = HOLE -> len b < s)).
      exact H1. }
    assert (HsmallT : Forall (fun qb : nat * Block =>
                                kind qb.2 = HOLE -> len qb.2 < s) T).
    { apply (Forall_blocks_nodes (fun b => kind b = HOLE -> len b < s)).
      intros b Hb. apply H2.
      replace (i - length L1 - 1)%nat with (length M) by lia.
      rewrite <- fmap_drop, drop_app_length. exact Hb. }
    assert (Hcq : c ∈ q :: M.*1).
    { subst c. rewrite endp_app, endp_cons. apply endp_elem. }
    assert (HcL1 : c ∉ L1.*1).
    { intros Hin. rewrite fmap_app, fmap_cons, fmap_app in Hnd'.
      cbn [fst] in Hnd'.
      apply NoDup_cons in Hnd' as (_ & Hnd').
      apply NoDup_app in Hnd' as (_ & Hdis & _).
      apply (Hdis c Hin).
      rewrite app_comm_cons. apply elem_of_app. left. exact Hcq. }
    assert (Hchp : Some hp <> Some c).
    { intros [= E]. apply NoDup_cons in Hnd' as (Hhp & _). apply Hhp.
      rewrite fmap_app, fmap_cons, fmap_app. cbn [fst].
      apply elem_of_app. right. rewrite app_comm_cons.
      apply elem_of_app. left. rewrite E. exact Hcq. }
    destruct T as [|xl T0 _] using rev_ind; [contradiction|].
    destruct xl as [ql bl].
    rewrite !length_app in Hlen. cbn [length] in Hlen.
    replace fuel with (S (length T0) + (fuel - S (length T0)))%nat by lia.
    rewrite (next_fit_loop_wrap st c hp c T0 ql bl s _ Hprev (s_head _ _ _ _ HS)).
    + destruct (decide (Some hp = Some c)) as [E|_]; [contradiction|].
      apply (next_fit_loop_found st c hp L1 q y (M ++ T0 ++ [(ql, bl)]) None s _
               Hprev (s_path _ _ _ _ HS') Hsmall1 HcL1 Hk Hs). lia.
    + rewrite Hc. apply path_suffix. exact (s_path _ _ _ _ HS).
    + exact HsmallT.
    + rewrite Hc. intros Hin.
      apply (cursor_not_later hp _ _ Hnd).
      rewrite fmap_app. apply elem_of_app. left. exact Hin.
Qed.

Lemma next_fit_rule st fuel size0 i l1 y l2 :
  reachable st -> heap_algo st = NEXT_FIT -> cursor_at st i ->
  blocks st = l1 ++ y :: l2 ->
  kind y = HOLE -> ALIGN4 size0 <= len y ->
  ((i <= length l1)%nat /\
   (forall b, b ∈ drop i l1 -> kind b = HOLE -> len b < ALIGN4 size0)) \/
  ((length l1 < i)%nat /\
   (forall b, b ∈ l1 -> kind b = HOLE -> len b < ALIGN4 size0) /\
   (forall b, b ∈ drop (i - length l1 - 1) l2 ->
      kind b = HOLE -> len b < ALIGN4 size0)) ->
  stack_head st <> None ->
  (NODE_AMOUNT < fuel)%nat ->
  exists st',
    mavalloc_alloc fuel st size0 = Done (st', Some (offset y)) /\
    blocks st' = split_spec l1 y l2 (ALIGN4 size0) /\
    cursor_at st' (length l1).
Proof.
  intros Hr Halgo Hcur Hl Hk Hs Hfirst Hsh Hf.
  destruct (reachable_Inv _ Hr) as (hp & l & sp & HS & Hg).
  pose proof (reachable_length _ Hr) as Hn.
  rewrite (Struct_blocks _ _ _ _ HS) in Hl.
  destruct (next_fit_scan st hp l sp fuel (ALIGN4 size0) i l1 y l2 HS
              ltac:(lia) Hcur Hl Hk Hs Hfirst)
    as (L1 & q & L2 & c & -> & <- & <- & Hprev & Hloop).
  rewrite fmap_app, fmap_cons in Hg. cbn [snd] in Hg.
  unfold mavalloc_alloc. rewrite Halgo.
  destruct (alloc_next_fit_at st hp L1 q y L2 sp (ALIGN4 size0) fuel c
              HS Hg Hk (conj (ALIGN4_nonneg size0) Hs) (ALIGN4_aligned size0)
              Hsh Hprev Hloop) as (st' & H1 & H2 & H3).
  exists st'. split; [exact H1|]. split; [exact H2|exact H3].
Qed.

(** Under next fit with the cursor in front of block [i], an allocation
    takes the first FREE block large enough that comes at or after block
    [i], or else the first one from the start of the list: when the pool
    has a spare descriptor it returns the offset of that block, splits it,
    and leaves the cursor in front of the new block. *)
Theorem next_fit_takes_next st fuel size0 i l1 y l2 :
  reachable st -> heap_algo st = NEXT_FIT -> cursor_at st i ->
  blocks st = l1 ++ y :: l2 ->
  kind y = HOLE -> ALIGN4 size0 <= len y ->
  ((i <= length l1)%nat /\
   (forall b, b ∈ drop i l1 -> kind b = HOLE -> len b < ALIGN4 size0)) \/
  ((length l1 < i)%nat /\
   (forall b, b ∈ l1 -> kind b = HOLE -> len b < ALIGN4 size0) /\
   (forall b, b ∈ drop (i - length l1 - 1) l2 ->
      kind b = HOLE -> len b < ALIGN4 size0)) ->
  stack_head st <> None ->
  (NODE_AMOUNT < fuel)%nat ->
  exists st',
    mavalloc_alloc fuel st size0 = Done (st', Some (offset y)) /\
    blocks st' = split_spec l1 y l2 (ALIGN4 size0) /\
    cursor_at st' (length l1).
Proof. apply next_fit_rule. Qed.

Lemma run_round_reachable : reachable run_round.
Proof.
  apply after_free_keeps_reachable.
  do 3 apply after_alloc_keeps_reachable.
  apply after_init_always_reachable. lia.
Qed.

Lemma run_round_blocks :
  blocks run_round = [mkBlock HOLE 0 4; mkBlock PROCESS 4 4; mkBlock PROCESS 8 8].
Proof. vm_compute. reflexivity. Qed.

Lemma run_round_cursor : cursor_at run_round 2.
Proof.
  split; [rewrite run_round_blocks; cbn; lia|].
  exists 3%nat. split; vm_compute; reflexivity.
Qed.

Lemma next_fit_exhausted_witness :
  mavalloc_alloc 300 run_round 8 = Done (run_round, None).
Proof.
  apply (next_fit_exhausted run_round 300 8 2 run_round_reachable).
  - vm_compute. reflexivity.
  - exact run_round_cursor.
  - rewrite run_round_blocks. change (ALIGN4 8) with 8.
    match goal with
    | |- forall b, b ∈ ?l -> @?P b => apply (proj1 (Forall_forall P l))
    end.
    repeat constructor; cbn [kind len]; intros; first [discriminate | lia].
  - vm_compute. lia.
Defined.

Lemma next_fit_takes_next_witness :
  exists st',
    mavalloc_alloc 300 run_round 4 = Done (st', Some 0) /\
    blocks st' = split_spec [] (mkBlock HOLE 0 4)
                   [mkBlock PROCESS 4 4; mkBlock PROCESS 8 8] (ALIGN4 4) /\
    cursor_at st' 0.
Proof.
  apply (next_fit_takes_next run_round 300 4 2 [] (mkBlock HOLE 0 4)
           [mkBlock PROCESS 4 4; mkBlock PROCESS 8 8] run_round_reachable).
  - vm_compute. reflexivity.
  - exact run_round_cursor.
  - exact run_round_blocks.
  - reflexivity.
  - vm_compute. discriminate.
  - right. split; [cbn; lia|]. split.
    + intros b Hb. inversion Hb.
    + cbn [length Nat.sub drop]. intros b Hb Hk.
      apply list_elem_of_singleton in Hb. subst b. discriminate Hk.
  - vm_compute. discriminate.
  - vm_compute. lia.
Defined.

(** ** Next fit keeps its cursor on the list as long as nothing is released *)

Lemma first_fitting (s : Z) (l : list Block) :
  Forall (fun b => kind b = HOLE -> len b < s) l \/
  exists la y lb, l = la ++ y :: lb /\
    Forall (fun b => kind b = HOLE -> len b < s) la /\
    kind y = HOLE /\ s <= len y.
Proof.
  induction l as [|x l IH]; [left; constructor|].
  destruct (decide (kind x = HOLE)) as [Hk|Hk].
  - destruct (Z_lt_le_dec (len x) s) as [Hlt|Hle].
    + destruct IH as [IH|(la & y & lb & -> & Hla & Hy)].
      * left. constructor; [intros _; exact Hlt|exact IH].
      * right. exists (x :: la), y, lb. split; [reflexivity|].
        split; [constructor; [intros _; exact Hlt|exact Hla]|exact Hy].
    + right. exists [], x, l. split; [reflexivity|]. split; [constructor|tauto].
  - destruct IH as [IH|(la & y & lb & -> & Hla & Hy)].
    + left. constructor; [intros E; contradiction|exact IH].
    + right. exists (x :: la), y, lb. split; [reflexivity|].
      split; [constructor; [intros E; contradiction|exact Hla]|exact Hy].
Qed.

(** The block next fit is to take from the cursor in front of block [i]. *)
Lemma next_fit_choice (s : Z) (i : nat) (l : list Block) :
  (i <= length l)%nat ->
  (forall b, b ∈ l -> kind b = HOLE -> len b < s) \/
  exists l1 y l2, l = l1 ++ y :: l2 /\ kind y = HOLE /\ s <= len y /\
    (((i <= length l1)%nat /\
      (forall b, b ∈ drop i l1 -> kind b = HOLE -> len b < s)) \/
     ((length l1 < i)%nat /\
      (forall b, b ∈ l1 -> kind b = HOLE -> len b < s) /\
      (forall b, b ∈ drop (i - length l1 - 1) l2 -> kind b = HOLE -> len b < s))).
Proof.
  intros Hi.
  assert (Hlt : length (take i l) = i) by (rewrite length_take; lia).
  destruct (first_fitting s (drop i l)) as [Hd|(ka & y & kb & Hd & Hka & Hk & Hs)].
  - destruct (first_fitting s (take i l)) as [Ht|(la & y & lb & Ht & Hla & Hk & Hs)].
    + left. intros b Hb. rewrite <- (take_drop i l) in Hb.
      rewrite Forall_forall in Hd, Ht.
      apply elem_of_app in Hb as [Hb|Hb]; [exact (Ht _ Hb)|exact (Hd _ Hb)].
    + right. exists la, y, (lb ++ drop i l).
      split; [rewrite <- (take_drop i l) at 1; rewrite Ht, <- app_assoc; reflexivity|].
      split; [exact Hk|]. split; [exact Hs|]. right.
      rewrite Ht, length_app in Hlt. cbn [length] in Hlt.
      split; [lia|]. split; [rewrite Forall_forall in Hla; exact Hla|].
      replace (i - length la - 1)%nat with (length lb) by lia.
      rewrite drop_app_length. rewrite Forall_forall in Hd. exact Hd.
  - right. exists (take i l ++ ka), y, kb.
    split; [rewrite <- (take_drop i l) at 1; rewrite Hd, <- app_assoc; reflexivity|].
    split; [exact Hk|]. split; [exact Hs|]. left.
    split; [rewrite length_app; lia|].
    rewrite (drop_app_length' _ _ _ (eq_sym Hlt)).
    rewrite Forall_forall in Hka. exact Hka.
Qed.

Lemma next_fit_loop_mono fuel fuel' st r s x :
  next_fit_loop fuel st r s = Done x -> (fuel <= fuel')%nat ->
  next_fit_loop fuel' st r s = Done x.
Proof.
  revert fuel' r. induction fuel as [|fuel IH]; intros fuel' r H Hle.
  - discriminate.
  - destruct fuel' as [|fuel']; [lia|]. cbn [next_fit_loop] in *.
    destruct (skip_cond st r s) as [c| |]; cbn [bind] in *; try discriminate.
    destruct c; [|exact H].
    destruct (rd_next st r) as [o| |]; cbn [bind] in *; try discriminate.
    destruct (defined o) as [y| |]; cbn [bind] in *; try discriminate.
    destruct (rd_next st y) as [o'| |]; cbn [bind] in *; try discriminate.
    destruct (match o' with
              | Some _ => Done y
              | None => defined (head_pointer st)
              end) as [runner| |]; cbn [bind] in *; try discriminate.
    destruct (decide (Some runner = previous_node st)); [exact H|].
    apply IH; [exact H|lia].
Qed.

Lemma alloc_next_fit_mono fuel fuel' st s x :
  alloc_next_fit fuel st s = Done x -> (fuel <= fuel')%nat ->
  alloc_next_fit fuel' st s = Done x.
Proof.
  unfold alloc_next_fit. intros H Hle.
  destruct (head_pointer st) as [hp|]; [|exact H].
  apply bind_Done in H as (c & Hc & H). rewrite Hc. cbn [bind].
  apply bind_Done in H as (r & Hr & H).
  rewrite (next_fit_loop_mono _ _ _ _ _ _ Hr Hle). exact H.
Qed.

(** One allocation under next fit, from a cursor on the list. *)
Lemma next_fit_alloc_cursor st fuel size0 i :
  reachable st -> heap_algo st = NEXT_FIT -> cursor_at st i ->
  (NODE_AMOUNT < fuel)%nat ->
  exists st' r i',
    mavalloc_alloc fuel st size0 = Done (st', r) /\ cursor_at st' i'.
Proof.
  intros Hr Halgo Hcur Hf.
  destruct (next_fit_choice (ALIGN4 size0) i (blocks st))
    as [Hsmall|(l1 & y & l2 & Hl & Hk & Hs & Hfirst)].
  { destruct Hcur as (Hi & _). lia. }
  - exists st, None, i. split; [|exact Hcur].
    apply (next_fit_none st fuel size0 i); assumption.
  - destruct (reachable_Inv _ Hr) as (hp & l & sp & HS & Hg).
    pose proof (reachable_length _ Hr) as Hn.
    rewrite (Struct_blocks _ _ _ _ HS) in Hl.
    destruct (next_fit_scan st hp l sp fuel (ALIGN4 size0) i l1 y l2 HS
                ltac:(lia) Hcur Hl Hk Hs Hfirst)
      as (L1 & q & L2 & c & -> & <- & <- & Hprev & Hloop).
    rewrite fmap_app, fmap_cons in Hg. cbn [snd] in Hg.
    pose proof (ALIGN4_nonneg size0) as Hs0.
    pose proof (ALIGN4_aligned size0) as Hs4.
    unfold mavalloc_alloc. rewrite Halgo.
    destruct (stack_head st) as [t|] eqn:Hsh.
    + destruct (alloc_next_fit_at st hp L1 q y L2 sp (ALIGN4 size0) fuel c
                  HS Hg Hk (conj Hs0 Hs) Hs4 ltac:(congruence) Hprev Hloop)
        as (st' & H1 & _ & H3).
      exists st', (Some (offset y)), (length L1.*2). split; assumption.
    + assert (sp = []) as ->.
      { pose proof (s_pool _ _ _ _ HS) as Hp. destruct sp as [|t sp]; [reflexivity|].
        cbn in Hp. destruct Hp as (E & _). congruence. }
      set (R := endp hp L1) in *.
      assert (HR : R ∈ (hp :: (L1 ++ (q, y) :: L2).*1) ++ []).
      { apply elem_of_app. left. rewrite fmap_app, app_comm_cons.
        apply elem_of_app. left. apply endp_elem. }
      pose proof (Struct_with_prev _ _ _ _ R HS HR) as HS2.
      destruct (split_good _ _ _ _ _ Hg Hk (conj Hs0 Hs) Hs4) as (Hend & _).
      assert (Hend' : (wadd (offset y) (ALIGN4 size0)
                         >=? memory_arena_size (with_previous_node st (Some R)))
                      = true -> L2 = []).
      { intros E. apply Hend in E. apply fmap_nil_inv in E. exact E. }
      pose proof (allocate_node_list _ _ _ _ _ _ _ _ HS2 Hs4 Hend') as Hrun.
      cbn beta iota in Hrun.
      exists (with_previous_node st (Some R)), None, (length L1).
      unfold alloc_next_fit. rewrite (s_head _ _ _ _ HS), Hprev.
      cbn [defined bind]. rewrite Hloop. cbn [bind].
      split; [exact Hrun|]. split.
      * rewrite (Struct_blocks _ _ _ _ HS2), length_fmap, length_app.
        cbn [length]. lia.
      * exists R. split; [reflexivity|].
        rewrite (Struct_live _ _ _ _ HS2).
        rewrite (endp_take hp (L1 ++ (q, y) :: L2) (length L1) (q, y))
          by (apply list_lookup_middle; reflexivity).
        rewrite take_app_length. reflexivity.
Qed.

(** Under next fit, in every state reached from [mavalloc_init] by
    allocations alone, the cursor is a node of the list other than the last
    one: until the first release, every allocation starts its scan from a
    node of the list that has a successor. *)
Theorem next_fit_allocs_only st :
  allocs_only st ->
  reachable st /\ heap_algo st = NEXT_FIT /\ exists i, cursor_at st i.
Proof.
  induction 1 as [size0 malloc_ok st0 st Hrun
                 |st fuel size0 st' r _ (Hr & Halgo & i & Hcur) Hrun].
  - split; [eapply reach_init, Hrun|].
    destruct (mavalloc_init_Struct _ _ _ _ _ Hrun) as (HS & _ & Halgo & Hprev & _).
    split; [exact Halgo|]. exists 0%nat. split.
    + rewrite (Struct_blocks _ _ _ _ HS). cbn. lia.
    + exists 0%nat. split; [exact Hprev|].
      rewrite (Struct_live _ _ _ _ HS). reflexivity.
  - split; [eapply reach_alloc; eassumption|].
    destruct (mavalloc_alloc_Inv _ _ _ _ _ (reachable_Inv _ Hr) Hrun)
      as (_ & (_ & _ & Hsame & _) & _).
    split; [congruence|].
    destruct (next_fit_alloc_cursor st (fuel + S (S NODE_AMOUNT)) size0 i Hr Halgo Hcur
                ltac:(lia)) as (st2 & r2 & i' & Hrun2 & Hcur2).
    assert (E : mavalloc_alloc (fuel + S (S NODE_AMOUNT)) st size0 = Done (st', r)).
    { unfold mavalloc_alloc in Hrun |- *. rewrite Halgo in Hrun |- *.
      eapply alloc_next_fit_mono; [exact Hrun|lia]. }
    rewrite E in Hrun2. apply Done_inj in Hrun2.
    exists i'. congruence.
Qed.

Lemma next_fit_allocs_only_witness :
  reachable run_next /\ exists i, cursor_at run_next i.
Proof.
  destruct (next_fit_allocs_only run_next) as (Hr & _ & Hc).
  - apply (only_alloc (after_alloc (after_init 16 NEXT_FIT) 4) 300 4 _ (Some 4)).
    + apply (only_alloc (after_init 16 NEXT_FIT) 300 4 _ (Some 0)).
      * apply (only_init 16 true boot). vm_compute. reflexivity.
      * vm_compute. reflexivity.
    + vm_compute. reflexivity.
  - split; [exact Hr|exact Hc].
Defined.

(** ** The scans from the head never go wrong *)

(** Under first, best and worst fit an allocation from a reachable state
    returns: it follows no [NULL] pointer, reads no field that was never
    written, and its loop ends within as many turns as the array has
    nodes. *)
Theorem alloc_from_head_safe fuel st size0 :
  reachable st -> heap_algo st <> NEXT_FIT ->
  (length (node_stack st) <= fuel)%nat ->
  exists st' r, mavalloc_alloc fuel st size0 = Done (st', r).
Proof. apply alloc_from_head_returns. Qed.

Lemma alloc_from_head_safe_witness :
  exists st' r, mavalloc_alloc 200 run_plain 4 = Done (st', r).
Proof.
  apply (alloc_from_head_safe 200 run_plain 4 run_plain_reachable).
  - vm_compute. discriminate.
  - vm_compute. lia.
Defined.

(** Under first, best and worst fit a request larger than every FREE block
    returns failure and leaves the state as it is. *)
Theorem alloc_from_head_exhausted fuel st size0 :
  reachable st -> heap_algo st <> NEXT_FIT ->
  (forall b, b ∈ blocks st -> kind b = HOLE -> len b < ALIGN4 size0) ->
  (length (node_stack st) <= fuel)%nat ->
  mavalloc_alloc fuel st size0 = Done (st, None).
Proof. apply exhausted_from_head. Qed.

Lemma alloc_from_head_exhausted_witness :
  mavalloc_alloc 200 run_plain 12 = Done (run_plain, None).
Proof.
  apply (alloc_from_head_exhausted 200 run_plain 12 run_plain_reachable).
  - vm_compute. discriminate.
  - rewrite run_plain_blocks. change (ALIGN4 12) with 12.
    match goal with
    | |- forall b, b ∈ ?l -> @?P b => apply (proj1 (Forall_forall P l))
    end.
    repeat constructor; cbn [kind len]; intros; first [discriminate | lia].
  - vm_compute. lia.
Defined.

(** ** A fresh arena, given out whole and taken back *)

Lemma init_cursor size0 algorithm malloc_ok st0 st :
  mavalloc_init size0 algorithm malloc_ok st0 = Done (st, 0) ->
  cursor_at st 0 /\ stack_head st <> None.
Proof.
  intros Hrun.
  destruct (mavalloc_init_Struct _ _ _ _ _ Hrun) as (HS & _ & _ & Hprev & _).
  split.
  - split; [rewrite (Struct_blocks _ _ _ _ HS); cbn; lia|].
    exists 0%nat. split; [exact Hprev|].
    rewrite (Struct_live _ _ _ _ HS). reflexivity.
  - pose proof (s_pool _ _ _ _ HS) as Hp. cbn in Hp. destruct Hp as (E & _).
    congruence.
Qed.

(** After [mavalloc_init] of a size that does not round to 0, under any of
    the four algorithms, an allocation of that same size returns the start
    of the arena and leaves one ALLOCATED block over the whole arena; its
    release gives back the one FREE block over the whole arena. *)
Theorem whole_arena_cycle size0 algorithm st0 fuel :
  0 <= size0 -> 0 < ALIGN4 size0 -> (NODE_AMOUNT < fuel)%nat ->
  exists st1 st2 st3,
    mavalloc_init size0 algorithm true st0 = Done (st1, 0) /\
    mavalloc_alloc fuel st1 size0 = Done (st2, Some 0) /\
    blocks st2 = [mkBlock PROCESS 0 (ALIGN4 size0)] /\
    mavalloc_free fuel st2 0 = Done st3 /\
    blocks st3 = [mkBlock HOLE 0 (ALIGN4 size0)].
Proof.
  intros Hs Hpos Hf.
  destruct (mavalloc_init_returns size0 algorithm st0 Hs) as (st1 & Hinit).
  pose proof (reach_init _ _ _ _ _ Hinit) as Hr1.
  destruct (mavalloc_init_Inv _ _ _ _ _ Hinit) as (_ & Hb1 & _ & Halgo).
  destruct (init_cursor _ _ _ _ _ Hinit) as (Hcur & Hsh).
  pose proof (reachable_length _ Hr1) as Hn.
  set (cap := ALIGN4 size0) in *.
  assert (Halloc : exists st2,
             mavalloc_alloc fuel st1 size0 = Done (st2, Some 0) /\
             blocks st2 = split_spec [] (mkBlock HOLE 0 cap) [] cap).
  { assert (Hnone : forall b : Block, b ∈ @nil Block ->
                      kind b = HOLE -> len b < ALIGN4 size0).
    { intros b Hb. inversion Hb. }
    assert (Hnone1 : forall b : Block, b ∈ @nil Block ->
                       kind b = HOLE -> ALIGN4 size0 <= len b ->
                       len (mkBlock HOLE 0 cap) < len b).
    { intros b Hb. inversion Hb. }
    assert (Hnone2 : forall b : Block, b ∈ @nil Block ->
                       kind b = HOLE -> ALIGN4 size0 <= len b ->
                       len (mkBlock HOLE 0 cap) <= len b).
    { intros b Hb. inversion Hb. }
    assert (Hnone3 : forall b : Block, b ∈ @nil Block ->
                       kind b = HOLE -> ALIGN4 size0 <= len b ->
                       len b < len (mkBlock HOLE 0 cap)).
    { intros b Hb. inversion Hb. }
    assert (Hnone4 : forall b : Block, b ∈ @nil Block ->
                       kind b = HOLE -> ALIGN4 size0 <= len b ->
                       len b <= len (mkBlock HOLE 0 cap)).
    { intros b Hb. inversion Hb. }
    assert (Hle : ALIGN4 size0 <= len (mkBlock HOLE 0 cap)) by (cbn [len]; lia).
    assert (Hlen1 : (length (node_stack st1) <= fuel)%nat) by lia.
    destruct algorithm.
    - exact (first_fit_rule st1 fuel size0 [] (mkBlock HOLE 0 cap) []
               Hr1 Halgo Hb1 eq_refl Hle Hnone Hsh Hlen1).
    - destruct (next_fit_rule st1 fuel size0 0 [] (mkBlock HOLE 0 cap) []
                  Hr1 Halgo Hcur Hb1 eq_refl Hle
                  (or_introl (conj (Nat.le_refl 0) Hnone)) Hsh Hf)
        as (st2 & H1 & H2 & _).
      exists st2. split; assumption.
    - exact (best_fit_rule st1 fuel size0 [] (mkBlock HOLE 0 cap) []
               Hr1 Halgo Hb1 eq_refl Hle Hnone1 Hnone2 Hsh Hlen1).
    - exact (worst_fit_rule st1 fuel size0 [] (mkBlock HOLE 0 cap) []
               Hr1 Halgo Hb1 eq_refl Hle Hpos Hnone3 Hnone4 Hsh Hlen1). }
  destruct Halloc as (st2 & Hrun2 & Hb2).
  unfold split_spec in Hb2. cbn [len offset app] in Hb2.
  rewrite Z.sub_diag in Hb2. cbn in Hb2.
  pose proof (reach_alloc _ _ _ _ _ Hr1 Hrun2) as Hr2.
  destruct (mavalloc_free_Inv fuel st2 0 (reachable_Inv _ Hr2))
    as (st3 & Hrun3 & _ & _ & _ & Hb3 & _).
  { rewrite (reachable_length _ Hr2). lia. }
  exists st1, st2, st3. split; [exact Hinit|]. split; [exact Hrun2|].
  split; [exact Hb2|]. split; [exact Hrun3|].
  rewrite Hb3, Hb2. reflexivity.
Qed.

Lemma whole_arena_cycle_witness :
  exists st1 st2 st3,
    mavalloc_init 2048 WORST_FIT true boot = Done (st1, 0) /\
    mavalloc_alloc 300 st1 2048 = Done (st2, Some 0) /\
    blocks st2 = [mkBlock PROCESS 0 (ALIGN4 2048)] /\
    mavalloc_free 300 st2 0 = Done st3 /\
    blocks st3 = [mkBlock HOLE 0 (ALIGN4 2048)].
Proof.
  apply (whole_arena_cycle 2048 WORST_FIT boot 300).
  - lia.
  - vm_compute. reflexivity.
  - vm_compute. lia.
Defined.

(** ** [mavalloc_print] *)

Lemma print_loop_path st r l fuel k :
  path (node_stack st) r l None -> (length l < fuel)%nat ->
  print_loop fuel st r k = Done (lines_from k l.*2).
Proof.
  revert r fuel k. induction l as [|[y b] l IH]; intros r fuel k Hpath Hf;
    (destruct fuel as [|fuel]; [simpl in Hf; lia|]); cbn [print_loop].
  - cbn [path] in Hpath. apply nxt_Some in Hpath as (nr & Hr & Hnr).
    rewrite (rd_next_eq _ _ _ Hr), Hnr. reflexivity.
  - cbn [path fst snd] in Hpath. destruct Hpath as (H1 & H2 & H3).
    apply nxt_Some in H1 as (nr & Hr & Hnr).
    apply dat_Some in H2 as (ny & Hny & Hby).
    apply block_of_Some in Hby as (Hty & Hay & Hsy).
    rewrite (rd_next_eq _ _ _ Hr), Hnr. cbn [bind].
    rewrite (rd_type_eq _ _ _ _ Hny Hty). cbn [bind].
    rewrite (rd_address_eq _ _ _ _ Hny Hay). cbn [bind].
    rewrite (rd_size_eq _ _ _ _ Hny Hsy). cbn [bind].
    rewrite (IH y fuel (k + 1) H3) by (simpl in Hf; lia).
    reflexivity.
Qed.

Lemma lines_from_length k l : length (lines_from k l) = length l.
Proof.
  revert k. induction l as [|b l IH]; intros k; [reflexivity|].
  cbn [lines_from length]. rewrite IH. reflexivity.
Qed.

Lemma lines_from_lookup k l j b :
  l !! j = Some b ->
  lines_from k l !! j
  = Some (mkLine (k + Z.of_nat j + 1) (kind b) (offset b) (len b)).
Proof.
  revert k j. induction l as [|x l IH]; intros k [|j] H; try discriminate H.
  - injection H as ->. cbn [lines_from]. cbn [lookup list_lookup].
    do 2 f_equal. lia.
  - cbn [lines_from].
    change (lines_from (k + 1) l !! j
            = Some (mkLine (k + Z.of_nat (S j) + 1) (kind b) (offset b) (len b))).
    change (l !! j = Some b) in H.
    rewrite (IH (k + 1) j H). do 2 f_equal. lia.
Qed.

(** In a reachable state [mavalloc_print] prints one line per block of the
    list, in list order and numbered from 1, each with the kind, the offset
    and the length of its block; the sentinel is not printed. *)
Theorem mavalloc_print_lists_blocks st fuel :
  reachable st -> (length (node_stack st) <= fuel)%nat ->
  exists out,
    mavalloc_print fuel st = Done out /\
    length out = length (blocks st) /\
    forall j b, blocks st !! j = Some b ->
      out !! j = Some (mkLine (Z.of_nat j + 1) (kind b) (offset b) (len b)).
Proof.
  intros Hr Hf. destruct (reachable_Inv _ Hr) as (hp & l & sp & HS & _).
  pose proof (Struct_length _ _ _ _ HS) as Hlen.
  exists (lines_from 0 (blocks st)).
  unfold mavalloc_print. rewrite (s_head _ _ _ _ HS).
  rewrite (print_loop_path st hp l fuel 0 (s_path _ _ _ _ HS)) by lia.
  rewrite (Struct_blocks _ _ _ _ HS).
  split; [reflexivity|]. split; [apply lines_from_length|].
  intros j b Hj. rewrite (lines_from_lookup 0 _ j b Hj). reflexivity.
Qed.

Lemma mavalloc_print_lists_blocks_witness :
  exists out,
    mavalloc_print 200 run_plain = Done out /\
    out !! 1%nat = Some (mkLine 2 HOLE 8 8).
Proof.
  destruct (mavalloc_print_lists_blocks run_plain 200 run_plain_reachable)
    as (out & Hrun & _ & Hline).
  - vm_compute. lia.
  - exists out. split; [exact Hrun|].
    apply (Hline 1%nat (mkBlock HOLE 8 8)).
    rewrite run_plain_blocks. reflexivity.
Defined.

(** ** The pool of descriptors is a stack *)

(** [node_stack_init] leaves the nodes [0 .. n-1] in the pool, in that
    order.  [node_malloc] takes the first node of the pool and leaves the
    others, and returns [NULL] from an empty pool without a change to the
    state; [node_free] puts a node that is not in the pool in front of it. *)
Theorem node_pool_is_stack :
  (forall n st, (0 < n)%nat ->
     let st' := node_stack_init n st in
     seg (node_stack st') (stack_head st') (seq 0 n) None) /\
  (forall st t sp,
     seg (node_stack st) (stack_head st) (t :: sp) None ->
     exists st', node_malloc st = Done (st', Some t) /\
       node_stack st' = node_stack st /\
       seg (node_stack st') (stack_head st') sp None) /\
  (forall st, stack_head st = None -> node_malloc st = Done (st, None)) /\
  (forall st p sp,
     seg (node_stack st) (stack_head st) sp None ->
     p ∉ sp -> (p < length (node_stack st))%nat ->
     exists st', node_free st p = Done st' /\
       seg (node_stack st') (stack_head st') (p :: sp) None).
Proof.
  split; [|split; [|split]].
  - intros n st Hn. cbn zeta.
    pose proof (node_stack_init_seg n st n 0 eq_refl) as H.
    destruct (decide (0 < n)%nat); [exact H|lia].
  - intros st t sp Hseg. cbn [seg] in Hseg.
    destruct Hseg as (Hsh & nt & Ht & Hseg).
    unfold node_malloc. rewrite Hsh, (rd_next_eq _ _ _ Ht). cbn [bind].
    eexists. split; [reflexivity|]. split; [reflexivity|exact Hseg].
  - intros st Hsh. unfold node_malloc. rewrite Hsh. reflexivity.
  - intros st p sp Hseg Hp Hlt.
    destruct (lookup_lt_is_Some_2 _ _ Hlt) as (np & Hnp).
    unfold node_free, wr_next. rewrite (wr_eq _ _ _ _ Hnp). cbn [bind].
    eexists. split; [reflexivity|].
    cbn [seg node_stack stack_head with_nodes with_stack_head].
    split; [reflexivity|]. eexists. split.
    + apply list_lookup_insert_eq. exact Hlt.
    + cbn [next set_next]. eapply seg_ext; [|exact Hseg].
      intros q Hq. unfold nxt. rewrite list_lookup_insert_ne; [reflexivity|].
      intros ->. contradiction.
Qed.

Lemma node_pool_is_stack_witness :
  exists st', node_malloc (node_stack_init 3 boot) = Done (st', Some 0%nat).
Proof.
  destruct node_pool_is_stack as (Hinit & Hpop & _).
  destruct (Hpop (node_stack_init 3 boot) 0%nat [1; 2]%nat) as (st' & H & _).
  - apply (Hinit 3%nat boot). lia.
  - exists st'. exact H.
Defined.

(** ** The unit tests *)

(** Whatever the state of the allocator when they start, [test_case_0],
    [test_case_2] and [test_case_3] return 1 and leave the allocator
    uninitialised.  [test_case_1], which its comment announces as a test
    that fails, returns 0 whenever it starts with the allocator
    uninitialised, as it does in the suite after [test_case_0]. *)
Theorem unit_tests st0 :
  (exists st, test_case_0 st0 = Done (st, 1) /\ head_pointer st = None) /\
  (exists st, test_case_2 300 st0 = Done (st, 1) /\ head_pointer st = None) /\
  (exists st, test_case_3 300 st0 = Done (st, 1) /\ head_pointer st = None) /\
  (head_pointer st0 = None -> forall fuel, test_case_1 fuel st0 = Done (st0, 0)).
Proof.
  split; [|split; [|split]].
  - eexists. split; vm_compute; reflexivity.
  - eexists. split; vm_compute; reflexivity.
  - eexists. split; vm_compute; reflexivity.
  - intros E fuel. unfold test_case_1, mavalloc_alloc, alloc_first_fit,
      alloc_next_fit, alloc_best_fit, alloc_worst_fit. rewrite E.
    destruct (heap_algo st0); reflexivity.
Qed.

Lemma unit_tests_witness :
  test_case_1 300 boot = Done (boot, 0).
Proof.
  destruct (unit_tests boot) as (_ & _ & _ & H).
  apply H. reflexivity.
Defined.

(** ** Every descriptor is in the list or in the pool *)

Lemma seg_walk h o sp fuel :
  seg h o sp None -> (length sp <= fuel)%nat -> walk fuel h o = sp.
Proof.
  revert o fuel. induction sp as [|t sp IH]; intros o fuel H Hf; cbn [seg] in H.
  - subst o. destruct fuel; reflexivity.
  - destruct H as (-> & n & Hn & H). destruct fuel as [|fuel]; [simpl in Hf; lia|].
    cbn [walk]. rewrite Hn. f_equal. apply IH; [exact H|simpl in Hf; lia].
Qed.

Lemma Struct_pool st hp l sp : Struct st hp l sp -> spare st = sp.
Proof.
  intros HS. unfold spare. apply seg_walk; [exact (s_pool _ _ _ _ HS)|].
  pose proof (s_nodup _ _ _ _ HS) as Hnd.
  apply NoDup_app in Hnd as (_ & _ & Hnd).
  apply NoDup_bounded; [exact Hnd|].
  intros x Hx. apply lookup_lt_is_Some.
  eapply seg_lookup; [exact (s_pool _ _ _ _ HS)|exact Hx].
Qed.

(** The count of a state: the blocks of its list and its spare nodes. *)
Lemma Struct_count st hp l sp :
  Struct st hp l sp ->
  (length (blocks st) + length (spare st) = length l + length sp)%nat.
Proof.
  intros HS. rewrite (Struct_blocks _ _ _ _ HS), (Struct_pool _ _ _ _ HS),
    length_fmap. reflexivity.
Qed.

Lemma allocate_node_count st hp l sp R s st' r :
  Struct st hp l sp -> good (memory_arena_size st) l.*2 ->
  R ∈ hp :: l.*1 -> fits st R s -> 0 <= s -> s mod 4 = 0 ->
  allocate_node st (Some R) s = Done (st', r) ->
  (length (blocks st') + length (spare st')
   = length (blocks st) + length (spare st))%nat /\
  (stack_head st <> None -> r <> None).
Proof.
  intros HS Hg HR (nR & y & nY & L & HnR & Hy & HnY & HtY & HsY & HsL) Hs0 Hs4 Hrun.
  rewrite (Struct_count _ _ _ _ HS).
  destruct (live_split _ _ _ _ _ _ (s_path _ _ _ _ HS) HR HnR Hy)
    as (l1 & by0 & l2 & -> & ->).
  pose proof (s_path _ _ _ _ HS) as Hpath.
  apply path_app_cons in Hpath as (_ & Hdy & _).
  apply dat_Some in Hdy as (nY' & HnY' & HbY).
  assert (nY' = nY) as -> by congruence. clear HnY'.
  apply block_of_Some in HbY as (HtY' & HaY & HsY').
  assert (Hk : kind by0 = HOLE) by congruence.
  assert (HL : len by0 = L) by congruence. subst L.
  rewrite fmap_app, fmap_cons in Hg. cbn [snd] in Hg.
  destruct (split_good _ _ _ _ _ Hg Hk (conj Hs0 HsL) Hs4) as (Hend & _).
  assert (Hend' : (wadd (offset by0) s >=? memory_arena_size st) = true -> l2 = []).
  { intros E. apply Hend in E. apply fmap_nil_inv in E. exact E. }
  pose proof (allocate_node_list _ _ _ _ _ _ _ _ HS Hs4 Hend') as Hlist.
  destruct sp as [|t sp0].
  - rewrite Hlist in Hrun. apply Done_inj in Hrun. injection Hrun as <- <-.
    split; [apply (Struct_count _ _ _ _ HS)|].
    intros Hsh. pose proof (s_pool _ _ _ _ HS) as Hp. cbn in Hp. contradiction.
  - destruct Hlist as (st1 & Hrun1 & _ & _ & HS1).
    rewrite Hrun1 in Hrun. apply Done_inj in Hrun. injection Hrun as <- <-.
    split; [|discriminate].
    destruct ((wadd (offset by0) s >=? memory_arena_size st)
              || (wsub (len by0) s <=? 0));
      rewrite (Struct_count _ _ _ _ HS1), !length_app; cbn [length]; lia.
Qed.

Lemma absorb_free_next_count st hp l1 w bw lb sp :
  Struct st hp (l1 ++ (w, bw) :: lb) sp ->
  exists st' l' sp',
    absorb_free_next st w = Done st' /\
    Struct st' hp l' sp' /\
    (length l' + length sp' = length (l1 ++ (w, bw) :: lb) + length sp)%nat.
Proof.
  intros S. pose proof (s_path _ _ _ _ S) as Hpath.
  apply path_app_cons in Hpath as (_ & Hdw & Hp2).
  destruct lb as [|[z bz] lb].
  - cbn [path] in Hp2. apply nxt_Some in Hp2 as (nw & Hw & Hnw).
    exists st, (l1 ++ [(w, bw)]), sp. unfold absorb_free_next.
    rewrite (rd_next_eq _ _ _ Hw), Hnw. cbn [bind].
    split; [reflexivity|]. split; [exact S|reflexivity].
  - cbn [path fst snd] in Hp2. destruct Hp2 as (H1 & H2 & _).
    apply nxt_Some in H1 as (nw & Hw & Hnw).
    apply dat_Some in H2 as (nz & Hz & Hbz).
    apply block_of_Some in Hbz as (Htz & _ & _).
    unfold absorb_free_next.
    rewrite (rd_next_eq _ _ _ Hw), Hnw. cbn [bind].
    rewrite (rd_type_eq _ _ _ _ Hz Htz). cbn [bind].
    destruct (decide (kind bz = HOLE)) as [Hk|Hk].
    + destruct (absorb_next_Struct _ _ _ _ _ _ _ _ _ S) as (st' & Hrun & S' & _).
      exists st', (l1 ++ (w, grow bw (len bz)) :: lb), (z :: sp).
      split; [exact Hrun|]. split; [exact S'|].
      rewrite !length_app. cbn [length]. lia.
    + exists st, (l1 ++ (w, bw) :: (z, bz) :: lb), sp.
      split; [reflexivity|]. split; [exact S|reflexivity].
Qed.

Lemma mavalloc_free_count st hp l sp ptr fuel :
  Struct st hp l sp -> l ≠ [] -> (length l <= fuel)%nat ->
  exists st' l' sp',
    mavalloc_free fuel st ptr = Done st' /\
    Struct st' hp l' sp' /\
    (length l' + length sp' = length l + length sp)%nat.
Proof.
  intros S Hne Hfuel. unfold mavalloc_free. rewrite (s_head _ _ _ _ S).
  destruct (first_at l ptr) as [Hall|(la & x & bx & lb & -> & Hla & Hx)].
  - destruct l as [|[y b] l]; [contradiction|].
    rewrite (free_loop_none _ _ _ _ _ _ _ (s_path _ _ _ _ S) Hall)
      by (simpl in Hfuel; lia).
    cbn [bind]. exists st, ((y, b) :: l), sp.
    split; [reflexivity|]. split; [exact S|reflexivity].
  - rewrite (free_loop_found _ _ _ _ _ _ _ _ _ (s_path _ _ _ _ S) Hla Hx)
      by (rewrite length_app in Hfuel; simpl in Hfuel; lia).
    cbn [bind].
    pose proof (s_path _ _ _ _ S) as Hpath.
    apply path_app_cons in Hpath as (Hp1 & Hdx & Hp2).
    destruct (s_sentinel _ _ _ _ S) as (n0 & Hn0 & Ht0).
    destruct la as [|[r br] la _] using rev_ind.
    + rewrite endp_nil. rewrite (rd_type_eq _ _ _ _ Hn0 Ht0). cbn [bind].
      rewrite bool_decide_eq_true_2 by reflexivity.
      rewrite (bool_decide_eq_true_2 (hp = hp)) by reflexivity.
      cbn [andb negb]. cbn [path] in Hp1.
      apply nxt_Some in Hp1 as (n0' & Hn0' & Hnx0).
      rewrite (rd_next_eq _ _ _ Hn0'), Hnx0. cbn [bind defined].
      destruct (retype_Struct _ _ _ _ _ _ _ S) as (st1 & Hrun & S1 & _).
      rewrite Hrun. cbn [bind].
      destruct (absorb_free_next_count _ _ _ _ _ _ _ S1)
        as (st' & l' & sp' & Hrun2 & S' & Hcount).
      exists st', l', sp'. split; [exact Hrun2|]. split; [exact S'|].
      rewrite Hcount. repeat rewrite length_app. cbn [length]. lia.
    + rewrite endp_snoc.
      apply path_app_cons in Hp1 as (_ & Hdr & Hp1).
      cbn [path] in Hp1. apply nxt_Some in Hp1 as (nr & Hr & Hnxr).
      apply dat_Some in Hdr as (nr' & Hr' & Hbr).
      assert (nr' = nr) as -> by congruence. clear Hr'.
      apply block_of_Some in Hbr as (Htr & _ & _).
      rewrite (rd_type_eq _ _ _ _ Hr Htr). cbn [bind].
      assert (Hrhp : r ≠ hp).
      { pose proof (s_nodup _ _ _ _ S) as Hnd.
        rewrite !fmap_app, !fmap_cons in Hnd. cbn [fst] in Hnd.
        nd_at r Hnd as Hr0. mem. }
      rewrite (bool_decide_eq_false_2 (r = hp)) by exact Hrhp.
      cbn [negb]. rewrite andb_true_r.
      rewrite <- app_assoc in S. cbn [app] in S.
      destruct (decide (kind br = HOLE)) as [Hk|Hk].
      * rewrite bool_decide_eq_true_2 by exact Hk.
        destruct (absorb_next_Struct _ _ _ _ _ _ _ _ _ S) as (st1 & Hrun & S1 & _).
        rewrite Hrun. cbn [bind].
        destruct (absorb_free_next_count _ _ _ _ _ _ _ S1)
          as (st' & l' & sp' & Hrun2 & S' & Hcount).
        exists st', l', sp'. split; [exact Hrun2|]. split; [exact S'|].
        rewrite Hcount. repeat rewrite length_app. cbn [length]. lia.
      * rewrite bool_decide_eq_false_2 by exact Hk.
        rewrite (rd_next_eq _ _ _ Hr), Hnxr. cbn [bind defined].
        replace (la ++ (r, br) :: (x, bx) :: lb)
          with ((la ++ [(r, br)]) ++ (x, bx) :: lb) in S
          by (rewrite <- app_assoc; reflexivity).
        destruct (retype_Struct _ _ _ _ _ _ _ S) as (st1 & Hrun & S1 & _).
        rewrite Hrun. cbn [bind].
        destruct (absorb_free_next_count _ _ _ _ _ _ _ S1)
          as (st' & l' & sp' & Hrun2 & S' & Hcount).
        exists st', l', sp'. split; [exact Hrun2|]. split; [exact S'|].
        rewrite Hcount. repeat rewrite length_app. cbn [length]. lia.
Qed.

Lemma free_count fuel st ptr st' :
  reachable st -> mavalloc_free fuel st ptr = Done st' ->
  (length (blocks st') + length (spare st')
   = length (blocks st) + length (spare st))%nat.
Proof.
  intros Hr Hrun. destruct (reachable_Inv _ Hr) as (hp & l & sp & HS & Hg).
  pose proof (Struct_length _ _ _ _ HS) as Hlen.
  assert (Hne : l ≠ []).
  { intros ->. exact (good_nonempty _ _ Hg eq_refl). }
  destruct (mavalloc_free_count st hp l sp ptr (fuel + length l) HS Hne ltac:(lia))
    as (st2 & l' & sp' & Hrun2 & HS2 & Hcount).
  rewrite (mavalloc_free_mono _ (fuel + length l) _ _ _ Hrun ltac:(lia)) in Hrun2.
  apply Done_inj in Hrun2. subst st2.
  rewrite (Struct_count _ _ _ _ HS), (Struct_count _ _ _ _ HS2). exact Hcount.
Qed.

Lemma alloc_from_head_count fuel st size0 st' r :
  reachable st -> heap_algo st <> NEXT_FIT ->
  mavalloc_alloc fuel st size0 = Done (st', r) ->
  (length (blocks st') + length (spare st')
   = length (blocks st) + length (spare st))%nat.
Proof.
  intros Hr Halgo Hrun.
  destruct (reachable_Inv _ Hr) as (hp & l & sp & HS & Hg).
  pose proof (ALIGN4_nonneg size0) as Hs0.
  pose proof (ALIGN4_aligned size0) as Hs4.
  assert (Hhp : hp ∈ hp :: l.*1) by (apply elem_of_cons; left; reflexivity).
  unfold mavalloc_alloc in Hrun.
  destruct (heap_algo st); [| contradiction | |].
  - unfold alloc_first_fit in Hrun. rewrite (s_head _ _ _ _ HS) in Hrun.
    apply bind_Done in Hrun as (res & Hres & Hrun).
    destruct res as [R|]; [|apply Done_inj in Hrun; congruence].
    destruct (first_fit_loop_sound _ _ _ _ _ _ _ _ HS Hhp Hres) as (HR & Hfit).
    eapply allocate_node_count; eassumption.
  - unfold alloc_best_fit in Hrun. rewrite (s_head _ _ _ _ HS) in Hrun.
    apply bind_Done in Hrun as (res & Hres & Hrun).
    destruct res as [R|]; [|apply Done_inj in Hrun; congruence].
    destruct (best_fit_loop_sound _ _ _ _ _ _ _ None _ _ HS Hhp
                ltac:(intros ? [=]) Hres R eq_refl) as (HR & Hfit).
    eapply allocate_node_count; eassumption.
  - unfold alloc_worst_fit in Hrun. rewrite (s_head _ _ _ _ HS) in Hrun.
    apply bind_Done in Hrun as (res & Hres & Hrun).
    destruct res as [R|]; [|apply Done_inj in Hrun; congruence].
    destruct (worst_fit_loop_sound _ _ _ _ _ _ _ None _ _ HS Hhp
                ltac:(intros ? [=]) Hres R eq_refl) as (HR & Hfit).
    eapply allocate_node_count; eassumption.
Qed.

Lemma pool_count st :
  reachable st -> heap_algo st <> NEXT_FIT ->
  (length (blocks st) + length (spare st) + 1 = NODE_AMOUNT)%nat.
Proof.
  induction 1 as [size0 algorithm malloc_ok st0 st Hrun
                 |st fuel size0 st' r Hr IH Hrun
                 |st fuel ptr st' Hr IH Hrun]; intros Halgo.
  - destruct (mavalloc_init_Struct _ _ _ _ _ Hrun) as (HS & _).
    rewrite (Struct_count _ _ _ _ HS). reflexivity.
  - destruct (mavalloc_alloc_Inv _ _ _ _ _ (reachable_Inv _ Hr) Hrun)
      as (_ & (_ & _ & Hsame & _) & _).
    assert (Halgo0 : heap_algo st <> NEXT_FIT) by congruence.
    rewrite (alloc_from_head_count _ _ _ _ _ Hr Halgo0 Hrun). exact (IH Halgo0).
  - destruct (mavalloc_free_Done _ _ _ _ (reachable_Inv _ Hr) Hrun)
      as (_ & (_ & _ & Hsame & _) & _).
    assert (Halgo0 : heap_algo st <> NEXT_FIT) by congruence.
    rewrite (free_count _ _ _ _ Hr Hrun). exact (IH Halgo0).
Qed.

(** Under first, best and worst fit every node of the array is the
    sentinel, the node of a block of the list, or a spare node of the pool:
    the blocks and the spare nodes add up to [NODE_AMOUNT - 1].  So the pool
    is empty exactly when the list has [NODE_AMOUNT - 1] = 199 blocks. *)
Theorem pool_conserved st :
  reachable st -> heap_algo st <> NEXT_FIT ->
  (length (blocks st) + length (spare st) + 1 = NODE_AMOUNT)%nat /\
  (stack_head st = None <-> length (blocks st) = (NODE_AMOUNT - 1)%nat).
Proof.
  intros Hr Halgo. pose proof (pool_count st Hr Halgo) as Hc.
  split; [exact Hc|].
  destruct (reachable_Inv _ Hr) as (hp & l & sp & HS & _).
  rewrite (Struct_pool _ _ _ _ HS) in Hc.
  pose proof (s_pool _ _ _ _ HS) as Hp.
  destruct sp as [|t sp]; cbn [seg length] in Hp, Hc.
  - split; [lia|]. intros _. exact Hp.
  - destruct Hp as (E & _). split; [congruence|lia].
Qed.

Lemma pool_conserved_witness :
  (length (blocks run_full) + length (spare run_full) + 1 = NODE_AMOUNT)%nat /\
  stack_head run_full = None.
Proof.
  destruct (pool_conserved run_full run_full_reachable) as (Hc & Hiff).
  - vm_compute. discriminate.
  - split; [exact Hc|]. apply Hiff. vm_compute. reflexivity.
Defined.

Lemma best_scan_some r l s best min :
  best <> None \/
  Exists (fun qb : nat * Block =>
            kind qb.2 = HOLE /\ s <= len qb.2 /\ len qb.2 < min) l ->
  best_scan r l s best min <> None.
Proof.
  revert r best min. induction l as [|[y b] l IH]; intros r best min H.
  - cbn [best_scan]. destruct H as [H|H]; [exact H|inversion H].
  - cbn [best_scan].
    destruct (bool_decide (kind b = HOLE) && (len b >=? s) && (len b <? min)) eqn:E.
    + apply IH. left. discriminate.
    + apply IH. destruct H as [H|H]; [left; exact H|].
      apply Exists_cons in H as [(H1 & H2 & H3)|H]; [|right; exact H].
      cbn [snd] in H1, H2, H3.
      rewrite (bool_decide_eq_true_2 _ H1) in E.
      apply Z.geb_le in H2. apply Z.ltb_lt in H3. rewrite H2, H3 in E.
      discriminate E.
Qed.

Lemma worst_scan_some r l s worst max :
  worst <> None \/
  Exists (fun qb : nat * Block =>
            kind qb.2 = HOLE /\ s <= len qb.2 /\ max < len qb.2) l ->
  worst_scan r l s worst max <> None.
Proof.
  revert r worst max. induction l as [|[y b] l IH]; intros r worst max H.
  - cbn [worst_scan]. destruct H as [H|H]; [exact H|inversion H].
  - cbn [worst_scan].
    destruct (bool_decide (kind b = HOLE) && (len b >=? s) && (len b >? max)) eqn:E.
    + apply IH. left. discriminate.
    + destruct H as [H|H]; [apply IH; left; exact H|].
      apply Exists_cons in H as [(H1 & H2 & H3)|H].
      * cbn [snd] in H1, H2, H3.
        rewrite (bool_decide_eq_true_2 _ H1) in E.
        apply Z.geb_le in H2. apply Z.gtb_lt in H3. rewrite H2, H3 in E.
        discriminate E.
      * apply andb_false_iff in E.
        destruct (decide (kind b = HOLE /\ s <= len b /\ max < len b))
          as [(H1 & H2 & H3)|Hn].
        -- exfalso. rewrite (bool_decide_eq_true_2 _ H1) in E.
           apply Z.geb_le in H2. apply Z.gtb_lt in H3. rewrite H2, H3 in E.
           destruct E as [E|E]; discriminate E.
        -- apply IH. right. exact H.
Qed.

(** Under first, best and worst fit an allocation succeeds as soon as some
    FREE block that is not empty is large enough and the list has fewer than
    [NODE_AMOUNT - 1] = 199 blocks. *)
Theorem alloc_from_head_succeeds st fuel size0 b :
  reachable st -> heap_algo st <> NEXT_FIT ->
  b ∈ blocks st -> kind b = HOLE -> ALIGN4 size0 <= len b -> 0 < len b ->
  (length (blocks st) < NODE_AMOUNT - 1)%nat ->
  (NODE_AMOUNT <= fuel)%nat ->
  exists st' a, mavalloc_alloc fuel st size0 = Done (st', Some a).
Proof.
  intros Hr Halgo Hb Hk Hs Hpos Hfew Hf.
  assert (Hsh : stack_head st <> None).
  { destruct (reachable_Inv _ Hr) as (hp & l & sp & HS & _).
    pose proof (pool_count st Hr Halgo) as Hc.
    rewrite (Struct_pool _ _ _ _ HS) in Hc.
    pose proof (s_pool _ _ _ _ HS) as Hp.
    destruct sp as [|t sp]; cbn [seg length] in Hp, Hc; [lia|].
    destruct Hp as (E & _). congruence. }
  destruct (reachable_Inv _ Hr) as (hp & l & sp & HS & Hg).
  pose proof (Struct_length _ _ _ _ HS) as Hlen.
  pose proof (reachable_length _ Hr) as Hn.
  pose proof (s_path _ _ _ _ HS) as Hpath.
  pose proof (ALIGN4_nonneg size0) as Hs0.
  pose proof (ALIGN4_aligned size0) as Hs4.
  assert (Hhp : hp ∈ hp :: l.*1) by (apply elem_of_cons; left; reflexivity).
  rewrite (Struct_blocks _ _ _ _ HS) in Hb.
  apply list_elem_of_fmap in Hb as ([q b'] & Eb & Hin). cbn [snd] in Eb. subst b'.
  assert (Hfinish : forall R,
             R ∈ hp :: l.*1 -> fits st R (ALIGN4 size0) ->
             exists st' a,
               allocate_node st (Some R) (ALIGN4 size0) = Done (st', Some a)).
  { intros R HR Hfit.
    destruct (allocate_node_returns _ _ _ _ _ _ HS Hg HR Hfit Hs0 Hs4)
      as (st' & r & Hrun).
    destruct (allocate_node_count _ _ _ _ _ _ _ _ HS Hg HR Hfit Hs0 Hs4 Hrun)
      as (_ & Hsome).
    destruct r as [a|]; [eauto|]. destruct (Hsome Hsh eq_refl). }
  unfold mavalloc_alloc.
  destruct (heap_algo st); [| contradiction | |].
  - unfold alloc_first_fit. rewrite (s_head _ _ _ _ HS).
    destruct (first_fitting (ALIGN4 size0) l.*2)
      as [Hnone|(la & y & lb & Hl & Hla & Hky & Hsy)].
    { rewrite Forall_forall in Hnone.
      assert (Hb2 : b ∈ l.*2).
      { apply list_elem_of_fmap. exists (q, b). split; [reflexivity|exact Hin]. }
      specialize (Hnone b Hb2 Hk). lia. }
    destruct (blocks_cut _ _ _ _ Hl) as (L1 & qy & L2 & -> & <- & <-).
    assert (Hres : first_fit_loop fuel st hp (ALIGN4 size0)
                   = Done (Some (endp hp L1))).
    { apply (first_fit_loop_found st hp L1 qy y L2 None (ALIGN4 size0) fuel Hpath);
        try assumption.
      - apply (Forall_blocks_nodes
                 (fun b => kind b = HOLE -> len b < ALIGN4 size0)).
        rewrite Forall_forall in Hla. exact Hla.
      - rewrite length_app in Hlen. cbn [length] in Hlen. lia. }
    rewrite Hres. cbn [bind].
    destruct (first_fit_loop_sound _ _ _ _ _ _ _ _ HS Hhp Hres) as (HR & Hfit).
    apply Hfinish; assumption.
  - unfold alloc_best_fit. rewrite (s_head _ _ _ _ HS).
    rewrite (best_fit_loop_scan st hp l (ALIGN4 size0) fuel None _ Hpath) by lia.
    cbn [bind].
    destruct (best_scan hp l (ALIGN4 size0) None (wadd (memory_arena_size st) 1))
      as [R|] eqn:ER.
    + assert (Hres : best_fit_loop fuel st hp (ALIGN4 size0) None
                       (wadd (memory_arena_size st) 1) = Done (Some R)).
      { rewrite (best_fit_loop_scan st hp l (ALIGN4 size0) fuel None _ Hpath) by lia.
        rewrite ER. reflexivity. }
      destruct (best_fit_loop_sound _ _ _ _ _ _ _ None _ _ HS Hhp
                  ltac:(intros ? [=]) Hres R eq_refl) as (HR & Hfit).
      apply Hfinish; assumption.
    + exfalso. revert ER. apply best_scan_some. right.
      apply Exists_exists. exists (q, b). split; [exact Hin|]. cbn [snd].
      split; [exact Hk|]. split; [exact Hs|].
      pose proof (good_cap _ _ Hg) as Hcap. pose proof (good_cap4 _ _ Hg) as Hc4.
      assert (HM : SIZE_MOD = 18446744073709551616) by reflexivity.
      assert (E : wadd (memory_arena_size st) 1 = memory_arena_size st + 1).
      { apply wadd_small.
        pose proof (Z.div_mod (memory_arena_size st) 4 ltac:(lia)). lia. }
      rewrite E.
      pose proof (tiles_within _ _ _ (good_tiles _ _ Hg)) as Hw.
      rewrite Forall_forall in Hw.
      assert (Hb2 : b ∈ l.*2).
      { apply list_elem_of_fmap. exists (q, b). split; [reflexivity|exact Hin]. }
      specialize (Hw b Hb2). lia.
  - unfold alloc_worst_fit. rewrite (s_head _ _ _ _ HS).
    rewrite (worst_fit_loop_scan st hp l (ALIGN4 size0) fuel None _ Hpath) by lia.
    cbn [bind].
    destruct (worst_scan hp l (ALIGN4 size0) None 0) as [R|] eqn:ER.
    + assert (Hres : worst_fit_loop fuel st hp (ALIGN4 size0) None 0
                     = Done (Some R)).
      { rewrite (worst_fit_loop_scan st hp l (ALIGN4 size0) fuel None _ Hpath) by lia.
        rewrite ER. reflexivity. }
      destruct (worst_fit_loop_sound _ _ _ _ _ _ _ None _ _ HS Hhp
                  ltac:(intros ? [=]) Hres R eq_refl) as (HR & Hfit).
      apply Hfinish; assumption.
    + exfalso. revert ER. apply worst_scan_some. right.
      apply Exists_exists. exists (q, b). split; [exact Hin|]. cbn [snd]. tauto.
Qed.

Lemma alloc_from_head_succeeds_witness :
  exists st' a, mavalloc_alloc 200 (fit_setup BEST_FIT) 100 = Done (st', Some a).
Proof.
  apply (alloc_from_head_succeeds (fit_setup BEST_FIT) 200 100 (mkBlock HOLE 1240 120)
           (fit_setup_reachable BEST_FIT)).
  - vm_compute. discriminate.
  - rewrite fit_setup_blocks. apply list_elem_of_In. cbn. tauto.
  - reflexivity.
  - vm_compute. discriminate.
  - cbn. lia.
  - rewrite fit_setup_blocks. vm_compute. lia.
  - vm_compute. lia.
Defined.
